(** * StredoLiga results export: a shallow embedding of [results_creator.py]

    The script reads one IOF result list per race, gives points for the
    finishing position, and writes one table per category.  This file embeds
    the script's functions as Rocq functions and proves properties of them.

    Conventions of the embedding.
    - A Python [str] is the list of its code points ([list N]).
    - [None] is [None]; a function that may raise returns a [result].
    - The Unicode character database (case mappings, normalisation forms),
      [int()] on text and [datetime.fromisoformat] are Python's, not the
      script's: they are the fields of the class [PyRuntime].
    - A [dict] whose iteration order is observed is an association list in
      insertion order; a [dict] that is only looked up is a [gmap]. *)

From Stdlib Require Import ZArith NArith Lia Bool Ascii String.
From Stdlib Require Import Permutation Sorted.
From stdpp Require Import gmap list.

Open Scope Z_scope.

(* ================================================================== *)
(** * Python strings *)
(* ================================================================== *)

Abbreviation str := (list N).

(** [u "abc"] is the Python literal ["abc"] (ASCII literals only). *)
Fixpoint u (s : string) : str :=
  match s with
  | EmptyString => []
  | String a r => N_of_ascii a :: u r
  end.

Definition LATIN_SMALL_Z_CARON : N := 0x17E.   (* 'ž' *)
Definition LATIN_CAPITAL_Z_CARON : N := 0x17D. (* 'Ž' *)
Definition COMBINING_CARON : N := 0x30C.
Definition SPACE : N := 0x20.
Definition HYPHEN_MINUS : N := 0x2D.
Definition LINE_FEED : N := 0x0A.

(** ["muži"] and ["ženy"], the two literals of the script outside ASCII. *)
Definition muzi_accented : str := u "mu" ++ [LATIN_SMALL_Z_CARON] ++ u "i".
Definition zeny_accented : str := [LATIN_SMALL_Z_CARON] ++ u "eny".

Definition in_range (lo hi c : N) : bool := ((lo <=? c) && (c <=? hi))%N.

(** [Py_UNICODE_ISSPACE]: the test behind [str.strip()] and behind [\s] in
    a [str] pattern. *)
Definition isspace (c : N) : bool :=
  in_range 0x09 0x0D c || in_range 0x1C 0x20 c
  || (c =? 0x85)%N || (c =? 0xA0)%N || (c =? 0x1680)%N
  || in_range 0x2000 0x200A c || (c =? 0x2028)%N || (c =? 0x2029)%N
  || (c =? 0x202F)%N || (c =? 0x205F)%N || (c =? 0x3000)%N.

(** The character class of [[ –—\-]]. *)
Definition is_dash (c : N) : bool :=
  (c =? 0xA0)%N || (c =? 0x2013)%N || (c =? 0x2014)%N || (c =? HYPHEN_MINUS)%N.

(** The character class [[a-z]] (no flags: ASCII only). *)
Definition is_az (c : N) : bool := in_range 0x61 0x7A c.

Definition is_ascii_digit (c : N) : bool := in_range 0x30 0x39 c.

Fixpoint dropwhile (p : N -> bool) (s : str) : str :=
  match s with
  | [] => []
  | c :: s' => if p c then dropwhile p s' else s
  end.

Definition lstrip (s : str) : str := dropwhile isspace s.
Definition rstrip (s : str) : str := rev (dropwhile isspace (rev s)).
(** [s.strip()] *)
Definition strip (s : str) : str := rstrip (lstrip s).

(** [re.sub(r"[class]+", rep, s)]: every maximal run of characters of the
    class is replaced by [rep].  [in_run] tells that the previous character
    belonged to the run that is being replaced. *)
Fixpoint sub_runs (p : N -> bool) (rep : str) (in_run : bool) (s : str) : str :=
  match s with
  | [] => []
  | c :: s' =>
      if p c
      then (if in_run then [] else rep) ++ sub_runs p rep true s'
      else c :: sub_runs p rep false s'
  end.

(** [re.sub(r"[ –—\-]+", " - ", name)] *)
Definition unify_dashes (name : str) : str := sub_runs is_dash (u " - ") false name.

(** [re.sub(r"\s+", " ", name)] *)
Definition collapse_spaces (name : str) : str := sub_runs isspace (u " ") false name.

(** [re.sub(r" [a-z]$", "", name)].  [$] matches at the end of the string
    and also just before a line feed that ends the string; the match is
    looked for on the reversed string. *)
Definition chop_trailing_letter (name : str) : str :=
  match rev name with
  | c :: sp :: r =>
      if (sp =? SPACE)%N && is_az c then rev r
      else match r with
           | sp' :: r' =>
               if (c =? LINE_FEED)%N && is_az sp && (sp' =? SPACE)%N
               then rev r' ++ [LINE_FEED]
               else name
           | [] => name
           end
  | _ => name
  end.

Fixpoint is_prefix (p s : str) : bool :=
  match p, s with
  | [], _ => true
  | a :: p', b :: s' => (a =? b)%N && is_prefix p' s'
  | _ :: _, [] => false
  end.

(** [s.replace(old, new)] for a non-empty [old]: the occurrences of [old]
    are found from the left and do not overlap.  [skip] counts the
    characters of a found occurrence still to be passed over. *)
Fixpoint replace_go (old new : str) (skip : nat) (s : str) : str :=
  match s with
  | [] => []
  | c :: s' =>
      match skip with
      | S k => replace_go old new k s'
      | O =>
          if is_prefix old s
          then new ++ replace_go old new (length old - 1) s'
          else c :: replace_go old new 0 s'
      end
  end.

Definition str_replace (old new s : str) : str := replace_go old new 0 s.

(** [s.isdigit()] and [int(s)] as the script uses them: on the display
    texts it has itself produced, which are ASCII. *)
Definition isdigit (s : str) : bool :=
  match s with
  | [] => false
  | _ => forallb is_ascii_digit s
  end.

Definition digit_value (c : N) : Z := Z.of_N c - 0x30.

Definition int_of_digits (s : str) : Z :=
  fold_left (fun acc c => 10 * acc + digit_value c) s 0.

(** The decimal digits of [n >= 0], most significant first; [fuel] bounds
    their number. *)
Fixpoint digits_of (fuel : nat) (n : Z) : str :=
  match fuel with
  | O => []
  | S f =>
      (if n <? 10 then [] else digits_of f (n / 10))
        ++ [Z.to_N (0x30 + n mod 10)]
  end.

(** [str(n)] for an integer. *)
Definition str_of_Z (n : Z) : str :=
  if n <? 0 then HYPHEN_MINUS :: digits_of (S (Z.to_nat (- n))) (- n)
  else digits_of (S (Z.to_nat n)) n.

(* ================================================================== *)
(** * What the script takes from Python *)
(* ================================================================== *)

(** A [datetime]: its position on the time line, and whether it carries a
    time zone.  Comparing a naive with an aware [datetime] raises. *)
Record datetime := { instant : Z; tzaware : bool }.

Class PyRuntime := {
  (** [_PyUnicode_ToLowerFull], [_PyUnicode_ToTitleFull], [_PyUnicode_IsCased]
      and [_PyUnicode_IsCaseIgnorable] of the Unicode database *)
  tolower_full : N -> str;
  totitle_full : N -> str;
  is_cased : N -> bool;
  is_case_ignorable : N -> bool;
  (** [unicodedata.normalize("NFKD", s)] and [unicodedata.normalize("NFC", s)] *)
  nfkd : str -> str;
  nfc : str -> str;
  (** [int(text)]; [None] stands for [ValueError] *)
  py_int : str -> option Z;
  (** [datetime.fromisoformat(text)]; [None] stands for [ValueError] *)
  fromisoformat : str -> option datetime
}.

Section Helpers.
Context {rt : PyRuntime}.

Definition GREEK_CAPITAL_SIGMA : N := 0x3A3.

(** Lower case of a capital sigma: final sigma when a cased letter comes
    before it and none after it, case-ignorable characters skipped. *)
Definition handle_capital_sigma (before_rev after : str) : N :=
  let final_sigma :=
    match dropwhile is_case_ignorable before_rev with
    | c :: _ =>
        is_cased c &&
        match dropwhile is_case_ignorable after with
        | c' :: _ => negb (is_cased c')
        | [] => true
        end
    | [] => false
    end in
  if final_sigma then 0x3C2%N else 0x3C3%N.

(** The loop of [str.lower()]; [before_rev] holds the characters already
    passed, last one first. *)
Fixpoint lower_go (before_rev s : str) : str :=
  match s with
  | [] => []
  | c :: s' =>
      (if (c =? GREEK_CAPITAL_SIGMA)%N
       then [handle_capital_sigma before_rev s']
       else tolower_full c) ++ lower_go (c :: before_rev) s'
  end.

(** [s.lower()] *)
Definition lower (s : str) : str := lower_go [] s.

(** [s.capitalize()]: the first character in title case, the others in
    lower case. *)
Definition capitalize (s : str) : str :=
  match s with
  | [] => []
  | c :: s' => totitle_full c ++ lower_go [c] s'
  end.

(** [normalize_class_name]: the canonical name of a class. *)
Definition normalize_class_name (raw : option str) : str :=
  match raw with
  | None | Some [] => []
  | Some raw =>
      let name := strip (lower raw) in
      let name := unify_dashes name in
      let name := collapse_spaces name in
      let name := chop_trailing_letter name in
      let name := nfkd name in
      let name := str_replace (u "zeny") zeny_accented
                    (str_replace (u "muzi") muzi_accented name) in
      let name := nfc name in
      capitalize name
  end.

(** [map_status]: the raw IOF status as a display text, [None] when the
    position decides. *)
Definition map_status (raw : option str) : option str :=
  let raw_lc := lower (default [] raw) in
  if decide (raw_lc = u "didnotstart") then Some (u "DNS")
  else if decide (raw_lc = u "didnotfinish") then Some (u "DNF")
  else if negb (bool_decide (raw_lc = [])) && negb (bool_decide (raw_lc = u "ok"))
       then Some (u "DISQ")
  else None.

End Helpers.

(* ================================================================== *)
(** * Exceptions and effects *)
(* ================================================================== *)

Inductive exn :=
| ValueError
| TypeError
| AttributeError
| SystemExit (msg : str).

Inductive result (A : Type) :=
| Ok (a : A)
| Raise (e : exn).
Arguments Ok {A} a.
Arguments Raise {A} e.

(** An exception ends the computation: [x ← r; k] runs [k] on the value of
    [r] when [r] did not raise. *)
#[global] Instance result_bind : MBind result := fun A B k r =>
  match r with
  | Ok a => k a
  | Raise e => Raise e
  end.

(** [[f(x) for x in l]] for an [f] that may raise: the first failure ends
    the comprehension. *)
Fixpoint map_result {A B} (f : A -> result B) (l : list A) : result (list B) :=
  match l with
  | [] => Ok []
  | x :: l' => y ← f x; ys ← map_result f l'; Ok (y :: ys)
  end.

(** The exit status of the interpreter: 0 when the script runs to its end,
    1 for [SystemExit] with a message and for an exception nobody caught. *)
Definition exit_status {A} (r : result A) : Z :=
  match r with
  | Ok _ => 0
  | Raise _ => 1
  end.

(* ================================================================== *)
(** * Sorting *)
(* ================================================================== *)

(** [list.sort] and [sorted] are stable.  A stable sort has one possible
    result, so insertion from the right stands for Python's. *)
Fixpoint insert_sorted {A} (leb : A -> A -> bool) (x : A) (l : list A) : list A :=
  match l with
  | [] => [x]
  | y :: l' => if leb x y then x :: l else y :: insert_sorted leb x l'
  end.

Definition stable_sort {A} (leb : A -> A -> bool) (l : list A) : list A :=
  foldr (insert_sorted leb) [] l.

(** [a <= b] on [str]: code point by code point. *)
Fixpoint str_leb (a b : str) : bool :=
  match a, b with
  | [], _ => true
  | _ :: _, [] => false
  | x :: a', y :: b' =>
      if (x <? y)%N then true
      else if (y <? x)%N then false
      else str_leb a' b'
  end.

(** [sorted(set(l))] *)
Definition sorted_set (l : list str) : list str :=
  stable_sort str_leb (remove_dups l).

(* ================================================================== *)
(** * The data *)
(* ================================================================== *)

(** [POINTS = {i: 21 - i for i in range(1, 21)}] *)
Definition POINTS : gmap Z Z :=
  list_to_map ((fun i => (i, 21 - i)) <$> seqZ 1 20).

(** [POINTS.get(position, 0)] *)
Definition POINTS_get (position : Z) : Z := default 0 (POINTS !! position).

Definition RESULT_FILE_NAME : str := u "StredoLigaResults".

(** What [parse_event] reads of an IOF result list.  A text field holds
    what [findtext] returns: with [default=""] a [str], without it [None]
    when the element is missing. *)
Record IdNode := {
  id_type : option str;   (* id_node.get("type") *)
  id_text : option str    (* id_node.text *)
}.

Record PersonNode := {
  given_text : str;       (* ./iof:Name/iof:Given *)
  family_text : str;      (* ./iof:Name/iof:Family *)
  id_nodes : list IdNode  (* ./iof:Id *)
}.

Record PersonResultNode := {
  person_node : option PersonNode;  (* pr.find("./iof:Person") *)
  position_text : str;              (* ./iof:Result/iof:Position *)
  status_text : str                 (* ./iof:Result/iof:Status *)
}.

Record ClassResultNode := {
  class_name_text : option str;           (* ./iof:Class/iof:Name *)
  person_results : list PersonResultNode  (* ./iof:PersonResult *)
}.

Record ResultList := {
  event_name_text : option str;        (* .//iof:Event/iof:Name *)
  event_date_text : option str;        (* .//iof:Event/iof:StartTime/iof:Date *)
  class_results : list ClassResultNode (* .//iof:ClassResult *)
}.

Abbreviation PersonKey := (str * str * str)%type.

(** One dictionary of [records]. *)
Record ResultRecord := {
  class_name : str;
  person_key : PersonKey;
  position : option Z;
  points : Z;
  status_raw : str
}.

(** The dictionary [parse_event] returns. *)
Record Event := {
  name : option str;
  date_str : str;
  date_obj : datetime;
  records : list ResultRecord
}.

(** A cell of a [DataFrame]. *)
Inductive cell :=
| CStr (s : str)
| CInt (n : Z)
| CNone.

Record DataFrame := {
  columns : list str;
  body : list (list cell)
}.

Inductive effect :=
| ReadXml (path : str)
| WriteCsv (file_name : str) (df : DataFrame)
| Print (line : str).

(** One data row before the rank is put in front. *)
Record Row := {
  row_key : PersonKey;
  row_cells : list str;
  row_total : Z
}.

(** The two dictionaries the loop over a category fills. *)
Record Acc := {
  cells_by_comp : list (PersonKey * list str);
  totals_by_comp : gmap PersonKey Z
}.

(** [d[key] = f(d[key])] on a [defaultdict] kept in insertion order: a key
    that is there keeps its place, a new key goes to the end and starts from
    [dflt]. *)
Fixpoint dict_update {V} (key : PersonKey) (f : V -> V) (dflt : V)
    (d : list (PersonKey * V)) : list (PersonKey * V) :=
  match d with
  | [] => [(key, f dflt)]
  | (k, v) :: d' =>
      if decide (k = key) then (k, f v) :: d'
      else (k, v) :: dict_update key f dflt d'
  end.

Fixpoint dict_get {V} (key : PersonKey) (d : list (PersonKey * V)) : option V :=
  match d with
  | [] => None
  | (k, v) :: d' => if decide (k = key) then Some v else dict_get key d'
  end.

(* ================================================================== *)
(** * [parse_event] *)
(* ================================================================== *)

Section Parser.
Context {rt : PyRuntime}.

(** The loop over [person.findall("./iof:Id")]: the first identifier of
    type ["SVK"], stripped, else [""]. *)
Fixpoint find_svk_id (ids : list IdNode) : str :=
  match ids with
  | [] => []
  | id_node :: ids' =>
      if decide (id_type id_node = Some (u "SVK"))
      then strip (default [] (id_text id_node))
      else find_svk_id ids'
  end.

(** The [try] block: [int(pos_text)] and the look-up in [POINTS], or
    [(None, 0)] on [ValueError]. *)
Definition parse_position (pos_text : str) : option Z * Z :=
  match py_int pos_text with
  | Some position => (Some position, POINTS_get position)
  | None => (None, 0)
  end.

(** The body of the loop over the [PersonResult] elements of a class.  A
    [PersonResult] without [Person] makes [person.findtext] fail. *)
Definition parse_person_result (class_name : str) (pr : PersonResultNode)
    : result ResultRecord :=
  match person_node pr with
  | None => Raise AttributeError
  | Some person =>
      let given := strip (given_text person) in
      let family := strip (family_text person) in
      let svk_id := find_svk_id (id_nodes person) in
      let '(position, points) := parse_position (position_text pr) in
      Ok {| class_name := class_name;
            person_key := (given, family, svk_id);
            position := position;
            points := points;
            status_raw := status_text pr |}
  end.

Definition parse_class_result (class_res : ClassResultNode)
    : result (list ResultRecord) :=
  let class_name := normalize_class_name (class_name_text class_res) in
  map_result (parse_person_result class_name) (person_results class_res).

(** [parse_event]: the records are read first, the date is parsed last.
    [fromisoformat(None)] is a [TypeError], an unreadable date a
    [ValueError]. *)
Definition parse_event (doc : ResultList) : result Event :=
  chunks ← map_result parse_class_result (class_results doc);
  match event_date_text doc with
  | None => Raise TypeError
  | Some event_date =>
      match fromisoformat event_date with
      | None => Raise ValueError
      | Some d =>
          Ok {| name := event_name_text doc;
                date_str := event_date;
                date_obj := d;
                records := concat chunks |}
      end
  end.

End Parser.

(* ================================================================== *)
(** * [build_tables] *)
(* ================================================================== *)

Section Tables.
Context {rt : PyRuntime}.

(** The display text of a record (the [if] chain of the inner loop). *)
Definition display_of (rec : ResultRecord) : str :=
  match map_status (Some (status_raw rec)) with
  | Some status_display => status_display
  | None =>
      match position rec with
      | None => []
      | Some _ =>
          if 0 <? points rec then str_of_Z (points rec) else u "0"
      end
  end.

(** The body of the inner loop, for the event of index [idx] among
    [n_events] events. *)
Definition accumulate_record (n_events idx : nat) (acc : Acc)
    (rec : ResultRecord) : Acc :=
  let key := person_key rec in
  let display := display_of rec in
  {| cells_by_comp :=
       dict_update key (fun cells => <[idx := display]> cells)
                   (replicate n_events []) (cells_by_comp acc);
     totals_by_comp :=
       if isdigit display
       then <[key := default 0 (totals_by_comp acc !! key) + int_of_digits display]>
              (totals_by_comp acc)
       else totals_by_comp acc |}.

(** The records of an event that belong to the category. *)
Definition records_of_category (cat : str) (ev : Event) : list ResultRecord :=
  filter (fun r => class_name r = cat) (records ev).

(** The loop [for idx, ev in enumerate(events)], from index [idx] on. *)
Fixpoint accumulate_from (cat : str) (n_events idx : nat) (acc : Acc)
    (events : list Event) : Acc :=
  match events with
  | [] => acc
  | ev :: events' =>
      accumulate_from cat n_events (S idx)
        (foldl (accumulate_record n_events idx) acc (records_of_category cat ev))
        events'
  end.

Definition accumulate (cat : str) (events : list Event) : Acc :=
  accumulate_from cat (length events) 0
    {| cells_by_comp := []; totals_by_comp := ∅ |} events.

(** [rows] before sorting: one per competitor, in the order of the
    dictionary; [totals_by_comp[key]] is 0 for a key it has not seen. *)
Definition rows_of (acc : Acc) : list Row :=
  (fun '(key, cells) =>
     {| row_key := key;
        row_cells := cells;
        row_total := default 0 (totals_by_comp acc !! key) |})
  <$> cells_by_comp acc.

(** [rows.sort(key=lambda x: -x[-1])] *)
Definition sort_rows (rows : list Row) : list Row :=
  stable_sort (fun a b => - row_total a <=? - row_total b) rows.

(** [[[rk + 1] + row for rk, row in enumerate(rows)]] *)
Definition add_pos (rows : list Row) : list (Z * Row) :=
  imap (fun rk row => (Z.of_nat rk + 1, row)) rows.

(** The ranked data rows of a category. *)
Definition category_rows (cat : str) (events : list Event) : list (Z * Row) :=
  add_pos (sort_rows (rows_of (accumulate cat events))).

Definition row_cells_of (r : Z * Row) : list cell :=
  let '(given, family, pid) := row_key r.2 in
  [CInt r.1; CStr given; CStr family; CStr pid]
    ++ (CStr <$> row_cells r.2) ++ [CInt (row_total r.2)].

Definition cols (events : list Event) : list str :=
  [u "Pos"; u "Name"; u "FamilyName"; u "ID"]
    ++ imap (fun i _ => u "Race " ++ str_of_Z (Z.of_nat i + 1)) events
    ++ [u "Total"].

Definition categories (events : list Event) : list str :=
  sorted_set (class_name <$> concat (records <$> events)).

(** The rows of one category: title, three header rows, data rows. *)
Definition category_section (events : list Event) (cat : str) : list (list cell) :=
  let blank := CStr [] in
  let hdr_order :=
    replicate 4 blank
      ++ imap (fun i _ => CStr (str_of_Z (Z.of_nat i + 1) ++ u ". kolo")) events
      ++ [blank] in
  let hdr_dates :=
    replicate 4 blank ++ ((fun e => CStr (date_str e)) <$> events) ++ [blank] in
  let hdr_names :=
    [CStr (u "Poradie"); CStr (u "Meno"); CStr (u "Priezvisko"); CStr (u "SZOS ID")]
      ++ ((fun e => from_option CStr CNone (name e)) <$> events)
      ++ [CStr (u "Body spolu")] in
  let title_row :=
    replicate 4 blank ++ [CStr cat]
      ++ replicate (length (cols events) - 5) blank in
  title_row :: hdr_order :: hdr_dates :: hdr_names
    :: (row_cells_of <$> category_rows cat events).

(** [pd.concat(big_chunks[:-1])]: the sections with the separator between
    them. *)
Fixpoint join_chunks (sep : list (list cell)) (chunks : list (list (list cell)))
    : list (list cell) :=
  match chunks with
  | [] => []
  | [chunk] => chunk
  | chunk :: chunks' => chunk ++ sep ++ join_chunks sep chunks'
  end.

(** [build_tables]: the effects, and how the call ends.  [pd.concat] of no
    frame at all is a [ValueError]. *)
Definition build_tables (events : list Event) : list effect * result unit :=
  let sep_3blank := replicate 3 (replicate (length (cols events)) (CStr [])) in
  match categories events with
  | [] => ([], Raise ValueError)
  | cats =>
      let final_df :=
        {| columns := cols events;
           body := join_chunks sep_3blank (category_section events <$> cats) |} in
      ([WriteCsv (RESULT_FILE_NAME ++ u ".csv") final_df;
        Print ([0x2713%N] ++ u "  StredoLigaResults.csv written ("
                 ++ str_of_Z (Z.of_nat (length cats)) ++ u " categories)")],
       Ok ())
  end.

(* ================================================================== *)
(** * The main program *)
(* ================================================================== *)

(** [[parse_event(p) for p in xml_files]]: the files are read one after
    the other, the first failure ends the run. *)
Fixpoint parse_all (xml_files : list (str * ResultList))
    : list effect * result (list Event) :=
  match xml_files with
  | [] => ([], Ok [])
  | (path, doc) :: rest =>
      match parse_event doc with
      | Raise e => ([ReadXml path], Raise e)
      | Ok ev =>
          let '(fx, r) := parse_all rest in
          (ReadXml path :: fx, evs ← r; Ok (ev :: evs))
      end
  end.

Definition mixed_awareness (events : list Event) : bool :=
  existsb (fun e => tzaware (date_obj e)) events
  && existsb (fun e => negb (tzaware (date_obj e))) events.

(** [events.sort(key=lambda e: e["date_obj"])].  Sorting compares every two
    neighbours of the result, so a list with naive and aware dates raises
    [TypeError]. *)
Definition sort_events (events : list Event) : result (list Event) :=
  if mixed_awareness events then Raise TypeError
  else Ok (stable_sort
             (fun a b => instant (date_obj a) <=? instant (date_obj b)) events).

(** The script run on the directory listing [found]: the [*.xml] files of
    [XML_DIR] with their contents, in the order [glob] gives them. *)
Definition main (found : list (str * ResultList)) : list effect * result unit :=
  let xml_files := stable_sort (fun a b => str_leb a.1 b.1) found in
  match xml_files with
  | [] => ([], Raise (SystemExit (u "No *.xml files found!")))
  | _ =>
      let '(fx, parsed) := parse_all xml_files in
      match parsed ≫= sort_events with
      | Raise e => (fx, Raise e)
      | Ok events =>
          let '(fx', r) := build_tables events in (fx ++ fx', r)
      end
  end.

End Tables.

(* ================================================================== *)
(** * A runtime for Basic Latin *)
(* ================================================================== *)

(** The Unicode tables restricted to Basic Latin and to the characters the
    script itself writes ([ž], with [Ž] and the combining caron); every
    other character is left alone.  It is what the examples run on. *)
Module BasicLatin.

Definition lower1 (c : N) : N :=
  if in_range 0x41 0x5A c then (c + 0x20)%N
  else if (c =? LATIN_CAPITAL_Z_CARON)%N then LATIN_SMALL_Z_CARON
  else c.

Definition title1 (c : N) : N :=
  if in_range 0x61 0x7A c then (c - 0x20)%N
  else if (c =? LATIN_SMALL_Z_CARON)%N then LATIN_CAPITAL_Z_CARON
  else c.

Definition cased (c : N) : bool :=
  in_range 0x41 0x5A c || in_range 0x61 0x7A c
  || (c =? LATIN_SMALL_Z_CARON)%N || (c =? LATIN_CAPITAL_Z_CARON)%N.

(** ['], [.], [:], [^], [`] and the combining caron. *)
Definition case_ignorable (c : N) : bool :=
  (c =? 0x27)%N || (c =? 0x2E)%N || (c =? 0x3A)%N || (c =? 0x5E)%N
  || (c =? 0x60)%N || (c =? COMBINING_CARON)%N.

Definition decompose1 (c : N) : str :=
  if (c =? LATIN_SMALL_Z_CARON)%N then [0x7A%N; COMBINING_CARON]
  else if (c =? LATIN_CAPITAL_Z_CARON)%N then [0x5A%N; COMBINING_CARON]
  else [c].

Definition decompose (s : str) : str := flat_map decompose1 s.

Fixpoint compose (s : str) : str :=
  match s with
  | [] => []
  | c :: s' =>
      match s' with
      | m :: s'' =>
          if (m =? COMBINING_CARON)%N && (c =? 0x7A)%N
          then LATIN_SMALL_Z_CARON :: compose s''
          else if (m =? COMBINING_CARON)%N && (c =? 0x5A)%N
          then LATIN_CAPITAL_Z_CARON :: compose s''
          else c :: compose s'
      | [] => [c]
      end
  end.

(** Digits with single underscores between them. *)
Fixpoint int_digits (acc : Z) (after_digit : bool) (s : str) : option Z :=
  match s with
  | [] => if after_digit then Some acc else None
  | c :: s' =>
      if is_ascii_digit c then int_digits (10 * acc + digit_value c) true s'
      else if (c =? 0x5F)%N && after_digit
      then match s' with
           | d :: _ => if is_ascii_digit d then int_digits acc false s' else None
           | [] => None
           end
      else None
  end.

(** [int(text)]: blanks around, a sign, decimal digits. *)
Definition int_of_text (text : str) : option Z :=
  match strip text with
  | c :: s' =>
      if (c =? 0x2D)%N then Z.opp <$> int_digits 0 false s'
      else if (c =? 0x2B)%N then int_digits 0 false s'
      else int_digits 0 false (c :: s')
  | [] => None
  end.

Definition is_leap (y : Z) : bool :=
  (y mod 4 =? 0) && (negb (y mod 100 =? 0) || (y mod 400 =? 0)).

Definition days_in_month (y m : Z) : Z :=
  if m =? 2 then (if is_leap y then 29 else 28)
  else if (m =? 4) || (m =? 6) || (m =? 9) || (m =? 11) then 30
  else 31.

(** Dates written [YYYY-MM-DD], as the [Date] element of a result list
    has them: a naive [datetime] at midnight. *)
Definition date_of_text (text : str) : option datetime :=
  match text with
  | [y1; y2; y3; y4; h1; m1; m2; h2; d1; d2] =>
      if forallb is_ascii_digit [y1; y2; y3; y4; m1; m2; d1; d2]
         && (h1 =? HYPHEN_MINUS)%N && (h2 =? HYPHEN_MINUS)%N
      then
        let y := int_of_digits [y1; y2; y3; y4] in
        let m := int_of_digits [m1; m2] in
        let d := int_of_digits [d1; d2] in
        if (1 <=? y) && (1 <=? m) && (m <=? 12) && (1 <=? d)
           && (d <=? days_in_month y m)
        then Some {| instant := (y * 12 + m) * 31 + d; tzaware := false |}
        else None
      else None
  | _ => None
  end.

Definition runtime : PyRuntime := {|
  tolower_full c := [lower1 c];
  totitle_full c := [title1 c];
  is_cased := cased;
  is_case_ignorable := case_ignorable;
  nfkd := decompose;
  nfc := compose;
  py_int := int_of_text;
  fromisoformat := date_of_text
|}.

End BasicLatin.

(** The characters of the script's own alphabet: Basic Latin, [ž], [Ž]. *)
Definition latin (c : N) : Prop :=
  (c < 0x80)%N \/ c = LATIN_SMALL_Z_CARON \/ c = LATIN_CAPITAL_Z_CARON.

(** [t] spells [s] with some of its [ž] and [Ž] written as a letter and a
    combining caron. *)
Inductive spells : str -> str -> Prop :=
| spells_nil : spells [] []
| spells_same c s t : spells s t -> spells (c :: s) (c :: t)
| spells_split c s t :
    spells s t -> spells (c :: s) (BasicLatin.decompose1 c ++ t).

(** What the theorems on texts ask of the runtime: on the script's alphabet
    the Unicode tables are the ones of [BasicLatin], blanks have no lower
    case of their own, and NFC puts a split [ž] together again. *)
Record Faithful (rt : PyRuntime) : Prop := {
  tolower_latin : forall c, latin c -> tolower_full c = [BasicLatin.lower1 c];
  tolower_space : forall c, isspace c = true -> tolower_full c = [c];
  totitle_latin : forall c, latin c -> totitle_full c = [BasicLatin.title1 c];
  nfkd_latin : forall s, Forall latin s -> nfkd s = BasicLatin.decompose s;
  nfc_latin : forall s t, Forall latin s -> spells s t -> nfc t = s
}.

(* ================================================================== *)
(** * Notions of the statements and of the proofs *)
(* ================================================================== *)

Section Notions.
Context {rt : PyRuntime}.

(** A character that [str.lower()] maps as [BasicLatin.lower1] does. *)
Definition plain (c : N) : Prop := latin c \/ isspace c = true.

(** No file is written. *)
Definition writes_nothing (fx : list effect) : Prop :=
  forall file_name df, WriteCsv file_name df ∉ fx.

(** Two results that end the same way, with values related by [R]. *)
Definition result_rel {A B} (R : A -> B -> Prop) (r : result A) (r' : result B) : Prop :=
  match r, r' with
  | Ok a, Ok b => R a b
  | Raise e, Raise e' => e = e'
  | _, _ => False
  end.

(** Two result lists that differ in the position texts only. *)
Definition same_but_position (pr pr' : PersonResultNode) : Prop :=
  person_node pr = person_node pr' /\ status_text pr = status_text pr'.

(** The same for the classes of a result list, and for result lists. *)
Definition same_but_positions_class (cr cr' : ClassResultNode) : Prop :=
  class_name_text cr = class_name_text cr'
  /\ Forall2 same_but_position (person_results cr) (person_results cr').

Definition same_but_positions (doc doc' : ResultList) : Prop :=
  event_name_text doc = event_name_text doc'
  /\ event_date_text doc = event_date_text doc'
  /\ Forall2 same_but_positions_class (class_results doc) (class_results doc').

(** Two records, and two events, that differ in positions and points only. *)
Definition same_entry (r r' : ResultRecord) : Prop :=
  class_name r = class_name r' /\ person_key r = person_key r'
  /\ status_raw r = status_raw r'.

Definition same_entries (ev ev' : Event) : Prop :=
  name ev = name ev' /\ date_str ev = date_str ev' /\ date_obj ev = date_obj ev'
  /\ Forall2 same_entry (records ev) (records ev').

(** The date of the document is missing or is not a calendar date. *)
Definition date_unreadable (doc : ResultList) : Prop :=
  match event_date_text doc with
  | None => True
  | Some event_date => fromisoformat event_date = None
  end.

(** The competitors of a list of keys, each once, in the order in which
    they first appear. *)
Fixpoint first_appearance (keys : list PersonKey) : list PersonKey :=
  match keys with
  | [] => []
  | k :: keys' => k :: filter (fun x => x <> k) (first_appearance keys')
  end.

(** The sum of a list of integers. *)
Definition Zsum (l : list Z) : Z := foldr Z.add 0 l.

(** What a display text adds to the total. *)
Definition numeric_value (display : str) : Z :=
  if isdigit display then int_of_digits display else 0.

(** The key that [d[key]] adds to a dictionary kept in insertion order. *)
Fixpoint add_key (k : PersonKey) (ks : list PersonKey) : list PersonKey :=
  match ks with
  | [] => [k]
  | k' :: ks' => if decide (k' = k) then ks else k' :: add_key k ks'
  end.

(** The records of the category with the index of their event, in the
    order in which the two loops meet them. *)
Fixpoint tagged_from (cat : str) (idx : nat) (events : list Event)
    : list (nat * ResultRecord) :=
  match events with
  | [] => []
  | ev :: events' =>
      ((fun r => (idx, r)) <$> records_of_category cat ev)
        ++ tagged_from cat (S idx) events'
  end.

(** The records of the category, event after event. *)
Definition entries (cat : str) (events : list Event) : list ResultRecord :=
  concat (records_of_category cat <$> events).

(** What the inner loop does to [totals_by_comp]. *)
Definition add_total (totals : gmap PersonKey Z) (rec : ResultRecord)
    : gmap PersonKey Z :=
  if isdigit (display_of rec)
  then <[person_key rec :=
           default 0 (totals !! person_key rec) + int_of_digits (display_of rec)]>
         totals
  else totals.

(** [totals_by_comp[key]] as the rows read it. *)
Definition season_total (cat : str) (events : list Event) (key : PersonKey) : Z :=
  default 0 (totals_by_comp (accumulate cat events) !! key).

(** The points of a competitor over a list of records. *)
Definition points_of (key : PersonKey) (recs : list ResultRecord) : Z :=
  Zsum ((fun r => numeric_value (display_of r))
          <$> filter (fun r => person_key r = key) recs).

(** The two dictionaries after the loops have met the records [L], each
    with the index of its event. *)
Definition accumulated (n : nat) (L : list (nat * ResultRecord)) : Acc :=
  foldl (fun acc p => accumulate_record n p.1 acc p.2)
        {| cells_by_comp := []; totals_by_comp := ∅ |} L.

(** [collapse_spaces (unify_dashes v)] in one pass.  [sp]: the last
    character written is a blank; [da]: the last character read is a
    dash. *)
Fixpoint tidy_go (sp da : bool) (v : str) : str :=
  match v with
  | [] => []
  | c :: v' =>
      if is_dash c then
        if da then tidy_go sp true v'
        else (if sp then [] else [SPACE])
               ++ HYPHEN_MINUS :: SPACE :: tidy_go true true v'
      else if isspace c then (if sp then [] else [SPACE]) ++ tidy_go true false v'
      else c :: tidy_go false false v'
  end.

(** The places of a tidy label: after a word character, after the blank
    that follows a word, after the blank that follows a dash. *)
Inductive place := Word | Blank | Gap.

(** The rest of a tidy label, seen from a place: blanks are single
    spaces, a dash is a hyphen with a space on either side, and the label
    does not end on the blank after a word. *)
Fixpoint tidy_from (q : place) (o : str) : Prop :=
  match o with
  | [] => q <> Blank
  | c :: o' =>
      if (c =? HYPHEN_MINUS)%N then
        q <> Word
        /\ match o' with
           | sp :: o'' => sp = SPACE /\ tidy_from Gap o''
           | [] => False
           end
      else if (c =? SPACE)%N then q = Word /\ tidy_from Blank o'
      else (isspace c = false /\ is_dash c = false) /\ tidy_from Word o'
  end.

(** A tidy label.  It does not begin with a dash, and it begins with a
    space only before a dash. *)
Definition tidied (o : str) : Prop :=
  match o with
  | [] => True
  | c :: o' =>
      if (c =? SPACE)%N
      then match o' with
           | d :: _ => d = HYPHEN_MINUS
           | [] => False
           end /\ tidy_from Blank o'
      else c <> HYPHEN_MINUS /\ tidy_from Gap o
  end.

(** The text does not end with a blank that is not a dash. *)
Definition ends_ok (v : str) : Prop :=
  match last v with
  | Some c => is_dash c = true \/ isspace c = false
  | None => True
  end.

(** [a] is [b], or is ž where [b] is z: what the two replacements do to a
    character. *)
Definition accented (a b : N) : Prop :=
  a = b \/ (a = LATIN_SMALL_Z_CARON /\ b = 0x7A%N).

(** [old] begins at no place of [t]. *)
Fixpoint no_occurrence (old t : str) : Prop :=
  match t with
  | [] => True
  | _ :: t' => is_prefix old t = false /\ no_occurrence old t'
  end.

(** A pattern of Basic Latin in which z and Z are not the last letter: it
    cannot begin in the middle of a split ž. *)
Fixpoint guarded (old : str) : Prop :=
  match old with
  | [] => True
  | c :: r =>
      (c < 0x80)%N /\ (c = 0x7A%N \/ c = 0x5A%N -> r <> []) /\ guarded r
  end.

(** A character of the script's alphabet that is its own lower case. *)
Definition small (c : N) : Prop := latin c /\ BasicLatin.lower1 c = c.

(** When the trailing-letter rule leaves a label as it is. *)
Definition keeps_tail (name : str) : Prop :=
  match rev name with
  | c :: sp :: r =>
      (sp =? SPACE)%N && is_az c = false
      /\ match r with
         | sp' :: _ => (c =? LINE_FEED)%N && is_az sp && (sp' =? SPACE)%N = false
         | [] => True
         end
  | _ => True
  end.

(** The two replacements of [normalize_class_name]. *)
Definition accent (s : str) : str :=
  str_replace (u "zeny") zeny_accented (str_replace (u "muzi") muzi_accented s).

(** The first three steps of [normalize_class_name] after [lower]. *)
Definition tidy (s : str) : str := collapse_spaces (unify_dashes (strip s)).

(** The display text of the last record of a competitor in a list of
    records, blank when there is none: what the assignment
    [cells_by_comp[key][idx] = display] leaves in a cell. *)
Definition last_display (key : PersonKey) (recs : list ResultRecord) : str :=
  from_option display_of [] (last (filter (fun r => person_key r = key) recs)).

(** What a record adds to the total of its competitor: its points, when
    its status is empty or OK, its place is a number and it scored. *)
Definition counted_points (rec : ResultRecord) : Z :=
  match map_status (Some (status_raw rec)), position rec with
  | None, Some _ => Z.max 0 (points rec)
  | _, _ => 0
  end.

(** The [PersonResult] elements of a result list with their class, in
    document order. *)
Definition person_results_of (doc : ResultList)
    : list (ClassResultNode * PersonResultNode) :=
  concat ((fun cr => (fun pr => (cr, pr)) <$> person_results cr)
            <$> class_results doc).

(** Every [PersonResult] of the result list has a [Person]. *)
Definition persons_present (doc : ResultList) : Prop :=
  forall cr pr,
    cr ∈ class_results doc -> pr ∈ person_results cr -> person_node pr <> None.

(** [s.capitalize()] on a text of small letters: the first character in
    title case. *)
Definition title_first (e : str) : str :=
  match e with
  | [] => []
  | c :: e' => BasicLatin.title1 c :: e'
  end.

(** The characters of a class label: the script's alphabet, blanks, and
    the dashes that [unify_dashes] replaces. *)
Definition label_char (c : N) : Prop :=
  latin c \/ isspace c = true \/ is_dash c = true.

(** [str.lower()] leaves the dashes as they are. *)
Definition dashes_uncased : Prop :=
  forall c, is_dash c = true -> tolower_full c = [c].

(** The text ends in a space and a letter a-z: the trailing-letter rule
    applies to it. *)
Definition final_letter (y : str) : bool :=
  match rev y with
  | c :: sp :: _ => (sp =? SPACE)%N && is_az c
  | _ => false
  end.

(** The text ends in a hyphen. *)
Definition final_hyphen (y : str) : bool :=
  match rev y with
  | c :: _ => (c =? HYPHEN_MINUS)%N
  | [] => false
  end.

End Notions.

(* ================================================================== *)
(** * Example data *)
(* ================================================================== *)

(** A race with two runners of the same name and no federation number in
    one class: the script takes them for one competitor. *)
Module Homonyms.

Definition runner (position status : string) : PersonResultNode :=
  {| person_node :=
       Some {| given_text := u "Jan"; family_text := u "Novak"; id_nodes := [] |};
     position_text := u position;
     status_text := u status |}.

Definition race : ResultList :=
  {| event_name_text := Some (u "1. kolo");
     event_date_text := Some (u "2024-04-06");
     class_results :=
       [ {| class_name_text := Some (u "M");
            person_results := [runner "1" "OK"; runner "2" "OK"] |} ] |}.

Definition key : PersonKey := (u "Jan", u "Novak", []).

End Homonyms.

(** A season of two races. *)
Module Season.

Definition runner (given family id position status : string) : PersonResultNode :=
  {| person_node :=
       Some {| given_text := u given; family_text := u family;
               id_nodes := [ {| id_type := Some (u "SVK"); id_text := Some (u id) |} ] |};
     position_text := u position;
     status_text := u status |}.

Definition race (date : string) (runners : list PersonResultNode) : ResultList :=
  {| event_name_text := Some (u "kolo");
     event_date_text := Some (u date);
     class_results :=
       [ {| class_name_text := Some (u "M"); person_results := runners |} ] |}.

Definition spring : ResultList :=
  race "2024-04-06" [runner "Adam" "Kral" "SK1" "1" "OK";
                     runner "Boris" "Hora" "SK2" "" "DidNotFinish"].

Definition summer : ResultList :=
  race "2024-06-15" [runner "Boris" "Hora" "SK2" "1" "OK";
                     runner "Adam" "Kral" "SK1" "5" "OK"].

(** [summer] with position texts that are not numbers. *)
Definition summer_smudged : ResultList :=
  race "2024-06-15" [runner "Boris" "Hora" "SK2" "first" "OK";
                     runner "Adam" "Kral" "SK1" "5th" "OK"].

(** [summer] with a date that is not a calendar date. *)
Definition summer_undated : ResultList :=
  race "15.6.2024" [runner "Boris" "Hora" "SK2" "1" "OK"].

Definition event_of (doc : ResultList) : Event :=
  match @parse_event BasicLatin.runtime doc with
  | Ok ev => ev
  | Raise _ => {| name := None; date_str := []; date_obj := {| instant := 0; tzaware := false |};
                  records := [] |}
  end.

End Season.

(** The table of the season, and what the witnesses of its properties
    need. *)
Module SeasonTable.

Definition events : list Event :=
  [Season.event_of Season.spring; Season.event_of Season.summer].

Definition listing : list (str * ResultList) :=
  [(u "a.xml", Season.spring); (u "b.xml", Season.summer)].

(** The row of Adam Kral: first in spring, fifth in summer. *)
Definition adam : Row :=
  {| row_key := (u "Adam", u "Kral", u "SK1");
     row_cells := [u "20"; u "16"];
     row_total := 36 |}.

(** The frame the script writes for the season. *)
Definition table : DataFrame :=
  match (@build_tables BasicLatin.runtime events).1 with
  | WriteCsv _ df :: _ => df
  | _ => {| columns := []; body := [] |}
  end.

(** A result list in which a [PersonResult] has no [Person]. *)
Definition anonymous : ResultList :=
  Season.race "2024-04-06"
    [ {| person_node := None; position_text := u "1"; status_text := u "OK" |} ].

(** The identifiers of a person: one of the international federation, two
    of the national one. *)
Definition foreign_id : IdNode :=
  {| id_type := Some (u "IOF"); id_text := Some (u "123") |}.

Definition home_id : IdNode :=
  {| id_type := Some (u "SVK"); id_text := Some (u " SK1 ") |}.

Definition late_id : IdNode :=
  {| id_type := Some (u "SVK"); id_text := Some (u "SK9") |}.

End SeasonTable.

(* ================================================================== *)
(** * Characters and texts *)
(* ================================================================== *)

Ltac unfold_chars :=
  unfold latin, isspace, is_dash, is_az, is_ascii_digit,
    BasicLatin.lower1, BasicLatin.title1, BasicLatin.decompose1,
    LATIN_SMALL_Z_CARON, LATIN_CAPITAL_Z_CARON, COMBINING_CARON, SPACE,
    HYPHEN_MINUS, LINE_FEED, GREEK_CAPITAL_SIGMA in *;
  unfold in_range in *.

(** The tests on code points as propositions. *)
Ltac bool_props :=
  rewrite ?orb_true_iff, ?andb_true_iff, ?orb_false_iff, ?andb_false_iff,
    ?negb_true_iff, ?negb_false_iff,
    ?N.leb_le, ?N.eqb_eq, ?N.ltb_lt, ?N.leb_gt, ?N.eqb_neq, ?N.ltb_ge in *.

(** Goals on classes of characters: every test that guards a branch is
    decided, the rest is linear arithmetic. *)
Ltac decide_test b :=
  lazymatch b with
  | context [if _ then _ else _] => fail
  | _ => destruct b eqn:?
  end.

Ltac chars :=
  unfold_chars;
  repeat match goal with
    | |- context [if ?b then _ else _] => decide_test b
    | H : context [if ?b then _ else _] |- _ => decide_test b
    end;
  bool_props; try reflexivity; try lia; try congruence.

Lemma isspace_lower1 c : isspace c = true -> BasicLatin.lower1 c = c.
Proof. intros H. chars. Qed.

Lemma isspace_not_sigma c : isspace c = true -> (c =? GREEK_CAPITAL_SIGMA)%N = false.
Proof. intros H. chars. Qed.

Lemma latin_not_sigma c : latin c -> (c =? GREEK_CAPITAL_SIGMA)%N = false.
Proof. intros H. chars. Qed.

Lemma lower1_latin c : (BasicLatin.lower1 c < 0x80)%N -> latin c.
Proof. intros H. left. revert H. chars. Qed.

Section Texts.
Context {rt : PyRuntime} (faithful : Faithful rt).

Lemma tolower_plain c :
  plain c ->
  (c =? GREEK_CAPITAL_SIGMA)%N = false /\ tolower_full c = [BasicLatin.lower1 c].
Proof.
  intros [H | H]; split.
  - by apply latin_not_sigma.
  - by apply (tolower_latin _ faithful).
  - by apply isspace_not_sigma.
  - rewrite (isspace_lower1 _ H). by apply (tolower_space _ faithful).
Qed.

Lemma lower_go_plain before s :
  Forall plain s -> lower_go before s = BasicLatin.lower1 <$> s.
Proof.
  intros Hs. revert before.
  induction Hs as [|c s Hc _ IH]; intros before; simpl; [done|].
  destruct (tolower_plain c Hc) as [-> ->]. simpl. by rewrite IH.
Qed.

Lemma lower_plain s : Forall plain s -> lower s = BasicLatin.lower1 <$> s.
Proof. apply lower_go_plain. Qed.

End Texts.

(* ================================================================== *)
(** * The status mapper *)
(* ================================================================== *)

Section Status.
Context {rt : PyRuntime}.

Lemma map_status_cases (raw : option str) :
  map_status raw =
    let raw_lc := lower (default [] raw) in
    if decide (raw_lc = u "didnotstart") then Some (u "DNS")
    else if decide (raw_lc = u "didnotfinish") then Some (u "DNF")
    else if decide (raw_lc = [] \/ raw_lc = u "ok") then None
    else Some (u "DISQ").
Proof.
  unfold map_status. simpl.
  repeat case_decide; try done;
    repeat case_bool_decide; simpl; try done; tauto.
Qed.

(** C5.  [map_status] has a value for every input, absent or not, and the
    value depends on the lower-cased text alone: [didnotstart] gives DNS,
    [didnotfinish] gives DNF, the empty text and [ok] give [None], every
    other text gives DISQ. *)
Theorem map_status_total (raw : option str) :
  let raw_lc := lower (default [] raw) in
  (raw_lc = u "didnotstart" -> map_status raw = Some (u "DNS"))
  /\ (raw_lc = u "didnotfinish" -> map_status raw = Some (u "DNF"))
  /\ (raw_lc = [] \/ raw_lc = u "ok" -> map_status raw = None)
  /\ (raw_lc <> u "didnotstart" -> raw_lc <> u "didnotfinish" ->
      raw_lc <> [] -> raw_lc <> u "ok" -> map_status raw = Some (u "DISQ"))
  /\ (raw = None \/ raw = Some [] -> map_status raw = None).
Proof.
  rewrite map_status_cases. cbv zeta.
  assert (Hnil : raw = None \/ raw = Some [] -> lower (default [] raw) = []).
  { intros [-> | ->]; reflexivity. }
  set (lc := lower (default [] raw)) in *. clearbody lc.
  repeat split; intros; repeat case_decide; try done; try tauto.
  all: try (apply Hnil in H).
  all: try (destruct H as [H | H]).
  all: subst lc; done.
Qed.

(** Two texts with the same lower case have the same status. *)
Lemma map_status_case_insensitive (a b : str) :
  lower a = lower b -> map_status (Some a) = map_status (Some b).
Proof. intros H. unfold map_status. simpl. by rewrite H. Qed.

(** The value is one of the four outcomes. *)
Lemma map_status_range (raw : option str) :
  map_status raw ∈ [Some (u "DNS"); Some (u "DNF"); Some (u "DISQ"); None].
Proof.
  rewrite map_status_cases. cbv zeta.
  rewrite !elem_of_cons. repeat case_decide; tauto.
Qed.

End Status.

Section StatusSpelling.
Context {rt : PyRuntime} (faithful : Faithful rt).

Lemma blanks_plain s : Forall (fun c => isspace c = true) s -> Forall plain s.
Proof. intros Hs. eapply Forall_impl; [done|]. intros c H. by right. Qed.

Lemma lower1_blanks s :
  Forall (fun c => isspace c = true) s -> BasicLatin.lower1 <$> s = s.
Proof.
  induction 1 as [|c s Hc _ IH]; [done|].
  rewrite fmap_cons. by rewrite (isspace_lower1 c Hc), IH.
Qed.

Lemma folds_to_ascii_plain s t :
  BasicLatin.lower1 <$> s = t -> Forall (fun c => (c < 0x80)%N) t ->
  Forall plain s.
Proof.
  intros <-. rewrite Forall_fmap. intros Hs. eapply Forall_impl; [done|].
  intros c H. left. by apply lower1_latin.
Qed.

(** C10.  [map_status] does not strip its argument: [ok], in any case,
    with blanks before it or after it is not [ok] any more and gives
    DISQ. *)
Theorem map_status_keeps_blanks (pre core post : str) :
  Forall (fun c => isspace c = true) pre ->
  Forall (fun c => isspace c = true) post ->
  pre ++ post <> [] ->
  BasicLatin.lower1 <$> core = u "ok" ->
  map_status (Some (pre ++ core ++ post)) = Some (u "DISQ").
Proof.
  intros Hpre Hpost Hne Hcore.
  assert (Hlc : lower (pre ++ core ++ post) = pre ++ u "ok" ++ post).
  { rewrite (lower_plain faithful).
    - by rewrite !fmap_app, Hcore, !lower1_blanks.
    - rewrite !Forall_app. split_and!; [by apply blanks_plain | | by apply blanks_plain].
      apply (folds_to_ascii_plain _ _ Hcore). simpl. repeat constructor. }
  rewrite map_status_cases. cbv zeta. simpl default. rewrite Hlc.
  destruct pre as [|p pre].
  - destruct post as [|q post]; [done|].
    repeat case_decide; try done.
    destruct H1 as [H1 | H1]; done.
  - apply Forall_cons in Hpre as [Hp _].
    repeat case_decide; try done.
    all: repeat match goal with H : _ \/ _ |- _ => destruct H end.
    all: simplify_eq/=; done.
Qed.

(** On the script's alphabet, two texts that differ in case only have the
    same status. *)
Lemma map_status_any_case (a b : str) :
  Forall latin a -> Forall latin b ->
  BasicLatin.lower1 <$> a = BasicLatin.lower1 <$> b ->
  map_status (Some a) = map_status (Some b).
Proof.
  intros Ha Hb H. apply map_status_case_insensitive.
  rewrite !(lower_plain faithful); [done | |].
  - eapply Forall_impl; [exact Hb|]. intros c Hc. by left.
  - eapply Forall_impl; [exact Ha|]. intros c Hc. by left.
Qed.

End StatusSpelling.

(* ================================================================== *)
(** * The scoring rule *)
(* ================================================================== *)

Lemma POINTS_lookup (p : Z) :
  POINTS !! p = if bool_decide (1 <= p <= 20) then Some (21 - p) else None.
Proof.
  assert (Hkeys : ((fun i => (i, 21 - i)) <$> seqZ 1 20).*1 = seqZ 1 20)
    by (vm_compute; reflexivity).
  unfold POINTS. case_bool_decide as Hp.
  - apply elem_of_list_to_map_1.
    + rewrite Hkeys. apply NoDup_seqZ.
    + apply list_elem_of_fmap. exists p. split; [done|].
      apply elem_of_seqZ. lia.
  - apply not_elem_of_list_to_map_1.
    rewrite Hkeys. intros Hq. apply elem_of_seqZ in Hq. lia.
Qed.

Lemma POINTS_get_range (p : Z) : 0 <= POINTS_get p <= 20.
Proof.
  unfold POINTS_get. rewrite POINTS_lookup.
  case_bool_decide; simpl; lia.
Qed.

Section Scoring.
Context {rt : PyRuntime}.

(** C3.  The scoring rule has a value for every position text: 21 - p for a
    position p from 1 to 20, 0 for a position from 21 on, and no position
    with 0 points when the text is not a number. *)
Theorem scoring_rule :
  (forall p, 1 <= p <= 20 -> POINTS_get p = 21 - p)
  /\ (forall p, 21 <= p -> POINTS_get p = 0)
  /\ (forall pos_text p, py_int pos_text = Some p ->
        parse_position pos_text = (Some p, POINTS_get p))
  /\ (forall pos_text, py_int pos_text = None ->
        parse_position pos_text = (None, 0)).
Proof.
  split_and!.
  - intros p Hp. unfold POINTS_get. rewrite POINTS_lookup.
    by rewrite bool_decide_eq_true_2.
  - intros p Hp. unfold POINTS_get. rewrite POINTS_lookup.
    rewrite bool_decide_eq_false_2; [done | lia].
  - intros pos_text p H. unfold parse_position. by rewrite H.
  - intros pos_text H. unfold parse_position. by rewrite H.
Qed.

(** Positions below 1 score 0 as well. *)
Lemma POINTS_get_nonpositive (p : Z) : p <= 0 -> POINTS_get p = 0.
Proof.
  intros Hp. unfold POINTS_get. rewrite POINTS_lookup.
  rewrite bool_decide_eq_false_2; [done | lia].
Qed.

End Scoring.

(* ================================================================== *)
(** * The display text *)
(* ================================================================== *)

Section Display.
Context {rt : PyRuntime}.

(** C4.  The display text of a record: the status code when [map_status]
    gives one; else the empty text when there is no position; else the
    points in decimal when they are positive; else ["0"]. *)
Theorem display_priority (rec : ResultRecord) :
  (forall code, map_status (Some (status_raw rec)) = Some code ->
     display_of rec = code /\ code ∈ [u "DNS"; u "DNF"; u "DISQ"])
  /\ (map_status (Some (status_raw rec)) = None -> position rec = None ->
      display_of rec = [])
  /\ (map_status (Some (status_raw rec)) = None -> position rec <> None ->
      0 < points rec -> display_of rec = str_of_Z (points rec))
  /\ (map_status (Some (status_raw rec)) = None -> position rec <> None ->
      points rec <= 0 -> display_of rec = u "0").
Proof.
  unfold display_of. split_and!.
  - intros code H. rewrite H. split; [done|].
    pose proof (map_status_range (Some (status_raw rec))) as Hr.
    rewrite H in Hr. rewrite !elem_of_cons in *.
    destruct Hr as [Hr | [Hr | [Hr | [Hr | Hr]]]]; simplify_eq; auto.
    by apply elem_of_nil in Hr.
  - by intros -> ->.
  - intros -> Hpos Hpts. destruct (position rec); [|done].
    by rewrite (proj2 (Z.ltb_lt _ _) Hpts).
  - intros -> Hpos Hpts. destruct (position rec); [|done].
    by rewrite (proj2 (Z.ltb_ge _ _) Hpts).
Qed.

End Display.

(* ================================================================== *)
(** * Sorting *)
(* ================================================================== *)

Section Sorting.
Context {A : Type} (leb : A -> A -> bool).

Lemma insert_sorted_perm x l : insert_sorted leb x l ≡ₚ x :: l.
Proof.
  induction l as [|y l IH]; simpl; [done|].
  destruct (leb x y); [done|]. rewrite IH. apply Permutation_swap.
Qed.

Lemma stable_sort_perm l : stable_sort leb l ≡ₚ l.
Proof.
  induction l as [|x l IH]; simpl; [done|].
  rewrite insert_sorted_perm. by rewrite IH.
Qed.

Lemma stable_sort_length l : length (stable_sort leb l) = length l.
Proof. apply Permutation_length, stable_sort_perm. Qed.

Lemma stable_sort_nil l : stable_sort leb l = [] <-> l = [].
Proof.
  split; [|by intros ->].
  intros H. apply Permutation_nil_r. rewrite <- H. symmetry. apply stable_sort_perm.
Qed.

(** The order [leb] is total and transitive. *)
Hypothesis leb_total : forall x y, leb x y = true \/ leb y x = true.
Hypothesis leb_trans : forall x y z, leb x y = true -> leb y z = true -> leb x z = true.

Lemma insert_sorted_sorted x l :
  StronglySorted (fun a b => leb a b = true) l ->
  StronglySorted (fun a b => leb a b = true) (insert_sorted leb x l).
Proof.
  induction 1 as [|y l Hl IH Hy]; simpl.
  - repeat constructor.
  - destruct (leb x y) eqn:Hxy.
    + constructor; [by constructor|].
      constructor; [done|].
      eapply Forall_impl; [exact Hy|]. intros z Hz. by eapply leb_trans.
    + constructor; [done|].
      rewrite insert_sorted_perm. constructor; [|done].
      destruct (leb_total x y); congruence.
Qed.

Lemma stable_sort_sorted l :
  StronglySorted (fun a b => leb a b = true) (stable_sort leb l).
Proof.
  induction l as [|x l IH]; simpl; [constructor|].
  by apply insert_sorted_sorted.
Qed.

End Sorting.

Section Stability.
Context {A K : Type} `{EqDecision K} (key : A -> K) (kleb : K -> K -> bool).
Hypothesis kleb_refl : forall a, kleb a a = true.

Let leb (x y : A) : bool := kleb (key x) (key y).

Lemma insert_sorted_filter (k : K) x l :
  filter (fun y => key y = k) (insert_sorted leb x l)
  = filter (fun y => key y = k) (x :: l).
Proof.
  induction l as [|y l IH]; simpl; [done|].
  destruct (leb x y) eqn:Hxy; [done|].
  rewrite filter_cons, IH, !filter_cons.
  destruct (decide (key y = k)) as [Hy|Hy],
           (decide (key x = k)) as [Hx|Hx]; try done.
  exfalso. unfold leb in Hxy. rewrite Hx, Hy, kleb_refl in Hxy. done.
Qed.

(** Stability: the elements of one key keep their order. *)
Lemma stable_sort_filter (k : K) l :
  filter (fun y => key y = k) (stable_sort leb l)
  = filter (fun y => key y = k) l.
Proof.
  induction l as [|x l IH]; simpl; [done|].
  rewrite insert_sorted_filter, !filter_cons. by rewrite IH.
Qed.

End Stability.

(** Sorting two lists whose elements correspond, by keys that agree. *)
Lemma stable_sort_Forall2 {A B} (R : A -> B -> Prop) lebA lebB :
  (forall a a' b b', R a b -> R a' b' -> lebA a a' = lebB b b') ->
  forall l l', Forall2 R l l' ->
  Forall2 R (stable_sort lebA l) (stable_sort lebB l').
Proof.
  intros Hleb l l' H. induction H as [|a b l l' Hab _ IH]; simpl; [constructor|].
  revert IH. generalize (stable_sort lebA l) (stable_sort lebB l').
  intros s s' Hs. induction Hs as [|x y s s' Hxy Hs IH]; simpl.
  - by repeat constructor.
  - rewrite (Hleb a x b y Hab Hxy). destruct (lebB b y).
    + by repeat constructor.
    + by constructor.
Qed.

(* ================================================================== *)
(** * How a run ends *)
(* ================================================================== *)

Section Runs.
Context {rt : PyRuntime}.

Lemma main_nonempty found :
  found <> [] ->
  main found =
    let '(fx, parsed) := parse_all (stable_sort (fun a b => str_leb a.1 b.1) found) in
    match parsed ≫= sort_events with
    | Raise e => (fx, Raise e)
    | Ok events => let '(fx', r) := build_tables events in (fx ++ fx', r)
    end.
Proof.
  intros Hne. unfold main.
  destruct (stable_sort _ found) eqn:E; [|done].
  by apply stable_sort_nil in E.
Qed.

(** C8.  With no input document the run ends at once with [SystemExit] and
    its message: exit status 1, no file read, nothing written. *)
Theorem no_input_aborts :
  main [] = ([], Raise (SystemExit (u "No *.xml files found!")))
  /\ exit_status (main []).2 <> 0
  /\ writes_nothing (main []).1.
Proof.
  split_and!; [done | done |].
  intros f df H. by apply elem_of_nil in H.
Qed.

Lemma parse_event_bad_date doc :
  date_unreadable doc -> exists e, parse_event doc = Raise e.
Proof.
  unfold date_unreadable, parse_event. intros H.
  destruct (map_result parse_class_result (class_results doc)); simpl; [|eauto].
  destruct (event_date_text doc); [|eauto]. rewrite H. eauto.
Qed.

Lemma parse_all_no_write files : writes_nothing (parse_all files).1.
Proof.
  induction files as [|[path doc] files IH]; simpl.
  - intros f df H. by apply elem_of_nil in H.
  - destruct (parse_event doc).
    + destruct (parse_all files) as [fx r]. simpl in *.
      intros f df H. apply elem_of_cons in H as [H|H]; [done|]. by eapply IH.
    + intros f df H. apply elem_of_cons in H as [H|H]; [done|].
      by apply elem_of_nil in H.
Qed.

Lemma parse_all_raise files f :
  f ∈ files -> (exists e, parse_event f.2 = Raise e) ->
  exists e, (parse_all files).2 = Raise e.
Proof.
  intros Hin [e He].
  induction files as [|[path doc] files IH]; [by apply elem_of_nil in Hin|].
  simpl. destruct (parse_event doc) as [ev|e'] eqn:E; [|eauto].
  apply elem_of_cons in Hin as [-> | Hin]; [simpl in He; congruence|].
  destruct (IH Hin) as [e' He'].
  destruct (parse_all files) as [fx r]. simpl in *. subst r. eauto.
Qed.

Lemma build_tables_writes_last events :
  (build_tables events).2 = Ok () \/
  ((exists e, (build_tables events).2 = Raise e) /\ (build_tables events).1 = []).
Proof.
  unfold build_tables. destruct (categories events); simpl; eauto.
Qed.

(** A run that raises has written nothing. *)
Lemma main_all_or_nothing found :
  (exists e, (main found).2 = Raise e) -> writes_nothing (main found).1.
Proof.
  destruct (decide (found = [])) as [-> | Hne].
  { intros _ f df H. by apply elem_of_nil in H. }
  rewrite (main_nonempty _ Hne).
  pose proof (parse_all_no_write (stable_sort (fun a b => str_leb a.1 b.1) found)) as Hw.
  destruct (parse_all _) as [fx parsed]. simpl in Hw.
  destruct (parsed ≫= sort_events) as [events|e]; [|done].
  destruct (build_tables_writes_last events) as [H | [_ H]];
    destruct (build_tables events) as [fx' r]; simpl in *.
  - intros [e He]. congruence.
  - subst fx'. by rewrite app_nil_r.
Qed.

End Runs.

Lemma Forall2_concat_lists {A B} (R : A -> B -> Prop) ls ls' :
  Forall2 (Forall2 R) ls ls' -> Forall2 R (concat ls) (concat ls').
Proof.
  induction 1 as [|l l' ls ls' Hl _ IH]; simpl; [constructor|].
  by apply Forall2_app.
Qed.

Section Positions.
Context {rt : PyRuntime}.

Lemma map_result_rel {A B A' B'} (R : A -> A' -> Prop) (S : B -> B' -> Prop)
    (f : A -> result B) (g : A' -> result B') l l' :
  (forall x y, R x y -> result_rel S (f x) (g y)) ->
  Forall2 R l l' ->
  result_rel (Forall2 S) (map_result f l) (map_result g l').
Proof.
  intros Hfg H. induction H as [|x y l l' Hxy _ IH]; simpl; [constructor|].
  specialize (Hfg x y Hxy).
  destruct (f x), (g y); simpl in *; try done.
  destruct (map_result f l), (map_result g l'); simpl in *; try done.
  by constructor.
Qed.

Lemma parse_person_result_rel cn pr pr' :
  same_but_position pr pr' ->
  result_rel same_entry (parse_person_result cn pr) (parse_person_result cn pr').
Proof.
  intros [Hp Hs]. unfold parse_person_result. rewrite <- Hp.
  destruct (person_node pr); simpl; [|done].
  destruct (parse_position (position_text pr)),
           (parse_position (position_text pr')). simpl. by split_and!.
Qed.

Lemma parse_class_result_rel cr cr' :
  same_but_positions_class cr cr' ->
  result_rel (Forall2 same_entry) (parse_class_result cr) (parse_class_result cr').
Proof.
  intros [Hn Hprs]. unfold parse_class_result. rewrite <- Hn.
  eapply map_result_rel; [|exact Hprs].
  intros. by apply parse_person_result_rel.
Qed.

Lemma parse_event_rel doc doc' :
  same_but_positions doc doc' ->
  result_rel same_entries (parse_event doc) (parse_event doc').
Proof.
  intros (Hn & Hd & Hcs). unfold parse_event. rewrite <- Hd.
  pose proof (map_result_rel _ _ parse_class_result parse_class_result _ _
                parse_class_result_rel Hcs) as H.
  destruct (map_result _ (class_results doc)),
           (map_result _ (class_results doc')); simpl in *; try done.
  destruct (event_date_text doc); [|done].
  destruct (fromisoformat _); [|done].
  simpl. split_and!; try done. by apply Forall2_concat_lists.
Qed.

Lemma parse_all_rel files files' :
  Forall2 (fun f f' => f.1 = f'.1 /\ same_but_positions f.2 f'.2) files files' ->
  result_rel (Forall2 same_entries) (parse_all files).2 (parse_all files').2.
Proof.
  induction 1 as [|[p d] [p' d'] l l' [_ Hd] _ IH]; simpl in *; [constructor|].
  pose proof (parse_event_rel _ _ Hd) as H.
  destruct (parse_event d), (parse_event d'); simpl in *; try done.
  destruct (parse_all l) as [fx r], (parse_all l') as [fx' r']. simpl in *.
  destruct r, r'; simpl in *; try done. by constructor.
Qed.

Lemma mixed_awareness_rel evs evs' :
  Forall2 same_entries evs evs' -> mixed_awareness evs = mixed_awareness evs'.
Proof.
  intros H. unfold mixed_awareness.
  assert (Hd : date_obj <$> evs = date_obj <$> evs').
  { induction H as [|e e' l l' (_ & _ & Hd & _) _ IH]; csimpl; [done|].
    by rewrite Hd, IH. }
  assert (Hex : forall (p : datetime -> bool) l,
             existsb (fun e => p (date_obj e)) l = existsb p (date_obj <$> l)).
  { intros p l. induction l as [|x l IH]; csimpl; [done|]. by rewrite IH. }
  rewrite (Hex tzaware), (Hex (fun d => negb (tzaware d))).
  rewrite (Hex tzaware), (Hex (fun d => negb (tzaware d))).
  by rewrite Hd.
Qed.

Lemma sort_events_rel evs evs' :
  Forall2 same_entries evs evs' ->
  result_rel (Forall2 same_entries) (sort_events evs) (sort_events evs').
Proof.
  intros H. unfold sort_events. rewrite <- (mixed_awareness_rel _ _ H).
  destruct (mixed_awareness evs); simpl; [done|].
  apply stable_sort_Forall2; [|done].
  intros a a' b b' (_ & _ & Hab & _) (_ & _ & Hab' & _). by rewrite Hab, Hab'.
Qed.

Lemma categories_rel evs evs' :
  Forall2 same_entries evs evs' -> categories evs = categories evs'.
Proof.
  intros H. unfold categories. f_equal.
  induction H as [|e e' l l' (_ & _ & _ & Hr) _ IH]; csimpl; [done|].
  rewrite !fmap_app. f_equal; [|exact IH].
  clear -Hr. induction Hr as [|r r' l l' (Hc & _) _ IH]; csimpl; [done|].
  by rewrite Hc, IH.
Qed.

Lemma build_tables_rel evs evs' :
  Forall2 same_entries evs evs' ->
  (build_tables evs).2 = (build_tables evs').2.
Proof.
  intros H. unfold build_tables. rewrite <- (categories_rel _ _ H).
  by destruct (categories evs).
Qed.

End Positions.

Section Failures.
Context {rt : PyRuntime}.

Lemma main_same_end found found' :
  Forall2 (fun f f' => f.1 = f'.1 /\ same_but_positions f.2 f'.2) found found' ->
  (main found).2 = (main found').2.
Proof.
  intros H.
  destruct (decide (found = [])) as [-> | Hne].
  { by apply Forall2_nil_inv_l in H as ->. }
  assert (Hne' : found' <> []).
  { intros ->. by apply Forall2_nil_inv_r in H. }
  rewrite (main_nonempty _ Hne), (main_nonempty _ Hne').
  pose proof (stable_sort_Forall2 _
                (fun a b : str * ResultList => str_leb a.1 b.1)
                (fun a b : str * ResultList => str_leb a.1 b.1)
                (fun a a' b b' Hab Hab' =>
                   eq_trans (f_equal (fun x => str_leb x a'.1) (proj1 Hab))
                            (f_equal (str_leb b.1) (proj1 Hab')))
                _ _ H) as Hs.
  apply parse_all_rel in Hs.
  destruct (parse_all (stable_sort _ found)) as [fx r],
           (parse_all (stable_sort _ found')) as [fx' r']. simpl in Hs.
  destruct r as [evs|e], r' as [evs'|e']; simpl in *; try done; [|by subst].
  pose proof (sort_events_rel _ _ Hs) as Hsort.
  destruct (sort_events evs) as [s|e], (sort_events evs') as [s'|e'];
    simpl in *; try done; [|by subst].
  pose proof (build_tables_rel _ _ Hsort) as Hb.
  by destruct (build_tables s), (build_tables s').
Qed.

(** C9.  A document whose date cannot be read makes the run raise, and a
    run that raises writes nothing.  A position text that is not a number
    gives a record with no position and 0 points, and it never changes how
    the run ends: two directory listings that differ in position texts only
    end the same way. *)
Theorem date_fatal_position_tolerated :
  (forall found,
     (exists f, f ∈ found /\ date_unreadable f.2) ->
     (exists e, (main found).2 = Raise e) /\ writes_nothing (main found).1)
  /\ (forall class_name pr person,
        person_node pr = Some person -> py_int (position_text pr) = None ->
        exists rec, parse_person_result class_name pr = Ok rec
                    /\ position rec = None /\ points rec = 0)
  /\ (forall found found',
        Forall2 (fun f f' => f.1 = f'.1 /\ same_but_positions f.2 f'.2) found found' ->
        (main found).2 = (main found').2).
Proof.
  split_and!.
  - intros found (f & Hin & Hbad).
    assert (Hraise : exists e, (main found).2 = Raise e).
    { assert (Hne : found <> []) by (intros ->; by apply elem_of_nil in Hin).
      rewrite (main_nonempty _ Hne).
      destruct (parse_all_raise (stable_sort (fun a b => str_leb a.1 b.1) found) f)
        as [e He].
      - by rewrite stable_sort_perm.
      - by apply parse_event_bad_date.
      - destruct (parse_all _) as [fx r]. simpl in He. subst r. simpl. eauto. }
    split; [done|]. by apply main_all_or_nothing.
  - intros cn pr person Hp Hint. unfold parse_person_result, parse_position.
    rewrite Hp, Hint. eauto.
  - apply main_same_end.
Qed.

End Failures.

(* ================================================================== *)
(** * The aggregator *)
(* ================================================================== *)

Lemma add_key_spec k ks :
  add_key k ks = if decide (k ∈ ks) then ks else ks ++ [k].
Proof.
  induction ks as [|k' ks IH]; [done|]. cbn [add_key]. rewrite IH.
  destruct (decide (k' = k)) as [->|Hne].
  - rewrite decide_True; [done|]. rewrite elem_of_cons. by left.
  - destruct (decide (k ∈ ks)) as [Hin|Hin].
    + rewrite decide_True; [done|]. rewrite elem_of_cons. by right.
    + rewrite decide_False; [done|].
      rewrite elem_of_cons. intros [->|?]; done.
Qed.

Lemma dict_update_keys {V} k (f : V -> V) dflt d :
  (dict_update k f dflt d).*1 = add_key k d.*1.
Proof.
  induction d as [|[k' v] d IH]; [done|]. cbn [dict_update].
  destruct (decide (k' = k)) as [He|He]; rewrite !fmap_cons; cbn [add_key fst];
    [by rewrite decide_True | by rewrite decide_False, IH].
Qed.

Lemma filter_filter_notin (acc : list PersonKey) k (l : list PersonKey) :
  k ∈ acc ->
  filter (fun x => x ∉ acc) (filter (fun x => x <> k) l)
  = filter (fun x => x ∉ acc) l.
Proof.
  intros Hk. induction l as [|x l IH]; [done|].
  rewrite !filter_cons.
  destruct (decide (x <> k)) as [Hx|Hx].
  - rewrite filter_cons, IH. done.
  - rewrite IH. apply dec_stable in Hx. subst x.
    by rewrite decide_False by (intros H; by apply H).
Qed.

Lemma filter_notin_snoc (acc : list PersonKey) k (l : list PersonKey) :
  filter (fun x => x ∉ acc ++ [k]) l
  = filter (fun x => x ∉ acc) (filter (fun x => x <> k) l).
Proof.
  induction l as [|x l IH]; [done|].
  rewrite !filter_cons.
  destruct (decide (x <> k)) as [Hx|Hx].
  - rewrite filter_cons, <- IH.
    destruct (decide (x ∉ acc)) as [Ha|Ha].
    + rewrite decide_True; [done|].
      rewrite elem_of_app, list_elem_of_singleton. tauto.
    + rewrite decide_False; [done|].
      rewrite elem_of_app. tauto.
  - rewrite <- IH. apply dec_stable in Hx. subst x.
    rewrite decide_False; [done|].
    rewrite elem_of_app, list_elem_of_singleton. tauto.
Qed.

(** Filling a dictionary key after key lists the keys by first
    appearance. *)
Lemma foldl_add_key keys acc :
  foldl (fun ks k => add_key k ks) acc keys
  = acc ++ filter (fun x => x ∉ acc) (first_appearance keys).
Proof.
  revert acc. induction keys as [|k keys IH]; intros acc; simpl.
  - by rewrite app_nil_r.
  - rewrite IH, add_key_spec, filter_cons.
    destruct (decide (k ∈ acc)) as [Hin|Hin].
    + rewrite decide_False by tauto. by rewrite filter_filter_notin.
    + rewrite decide_True by done.
      rewrite <- app_assoc. simpl. by rewrite filter_notin_snoc.
Qed.

Lemma first_appearance_elem k keys : k ∈ first_appearance keys <-> k ∈ keys.
Proof.
  induction keys as [|k' keys IH]; simpl; [done|].
  rewrite !elem_of_cons, list_elem_of_filter, IH.
  destruct (decide (k = k')); tauto.
Qed.

Lemma first_appearance_NoDup keys : NoDup (first_appearance keys).
Proof.
  induction keys as [|k keys IH]; simpl; [constructor|].
  constructor.
  - rewrite list_elem_of_filter. tauto.
  - by apply NoDup_filter.
Qed.

(** As many entries as there are distinct keys. *)
Lemma first_appearance_length keys :
  length (first_appearance keys) = length (remove_dups keys).
Proof.
  apply Permutation_length, NoDup_Permutation.
  - apply first_appearance_NoDup.
  - apply NoDup_remove_dups.
  - intros k. by rewrite first_appearance_elem, elem_of_remove_dups.
Qed.

Section Aggregator.
Context {rt : PyRuntime}.

Lemma accumulate_from_flat cat n idx acc events :
  accumulate_from cat n idx acc events
  = foldl (fun acc p => accumulate_record n p.1 acc p.2) acc
          (tagged_from cat idx events).
Proof.
  revert idx acc. induction events as [|ev events IH]; intros idx acc; [done|].
  cbn [accumulate_from tagged_from]. rewrite foldl_app, IH. f_equal.
  by rewrite foldl_fmap.
Qed.

Lemma tagged_from_entries cat idx events :
  (tagged_from cat idx events).*2 = entries cat events.
Proof.
  revert idx. induction events as [|ev events IH]; intros idx; [done|].
  cbn [tagged_from]. unfold entries. rewrite fmap_cons, fmap_app. cbn [concat].
  f_equal; [|apply IH].
  rewrite <- list_fmap_compose. apply list_fmap_id.
Qed.

Lemma foldl_cells_keys n L acc :
  (cells_by_comp (foldl (fun acc p => accumulate_record n p.1 acc p.2) acc L)).*1
  = foldl (fun ks k => add_key k ks) (cells_by_comp acc).*1 (person_key <$> L.*2).
Proof.
  revert acc. induction L as [|[i r] L IH]; intros acc; [done|].
  rewrite !fmap_cons. cbn [foldl]. rewrite IH. f_equal.
  cbn. apply dict_update_keys.
Qed.

Lemma foldl_totals n L acc :
  totals_by_comp (foldl (fun acc p => accumulate_record n p.1 acc p.2) acc L)
  = foldl add_total (totals_by_comp acc) L.*2.
Proof.
  revert acc. induction L as [|[i r] L IH]; intros acc; [done|].
  rewrite !fmap_cons. cbn [foldl]. by rewrite IH.
Qed.

Lemma foldl_add_total_lookup (recs : list ResultRecord) (m : gmap PersonKey Z)
    (k : PersonKey) :
  default 0 (foldl add_total m recs !! k) = default 0 (m !! k) + points_of k recs.
Proof.
  revert m. induction recs as [|r recs IH]; intros m.
  - unfold points_of. cbn. lia.
  - cbn [foldl]. rewrite IH. unfold points_of.
    rewrite filter_cons. unfold add_total, numeric_value.
    destruct (decide (person_key r = k)) as [<-|Hne].
    + rewrite fmap_cons. cbn [Zsum foldr].
      destruct (isdigit (display_of r)).
      * rewrite lookup_insert_eq. cbn. unfold Zsum. lia.
      * unfold Zsum. lia.
    + destruct (isdigit (display_of r)); [|done].
      by rewrite lookup_insert_ne.
Qed.

Lemma accumulate_keys cat events :
  (cells_by_comp (accumulate cat events)).*1
  = first_appearance (person_key <$> entries cat events).
Proof.
  unfold accumulate. rewrite accumulate_from_flat, foldl_cells_keys.
  rewrite foldl_add_key, tagged_from_entries. cbn.
  generalize (first_appearance (person_key <$> entries cat events)).
  intros l. induction l as [|x l IH]; [done|].
  rewrite filter_cons, decide_True by apply not_elem_of_nil. by rewrite IH.
Qed.

(** The total of a row is the sum of what the competitor's records add. *)
Lemma season_total_points cat events key :
  season_total cat events key = points_of key (entries cat events).
Proof.
  unfold season_total, accumulate.
  rewrite accumulate_from_flat, foldl_totals, foldl_add_total_lookup.
  rewrite tagged_from_entries. cbn. rewrite lookup_empty. cbn. lia.
Qed.

Lemma Zsum_perm l l' : l ≡ₚ l' -> Zsum l = Zsum l'.
Proof.
  unfold Zsum. induction 1; cbn [foldr] in *; lia.
Qed.

Lemma points_of_perm key recs recs' :
  recs ≡ₚ recs' -> points_of key recs = points_of key recs'.
Proof.
  intros H. unfold points_of. apply Zsum_perm. by rewrite H.
Qed.

Lemma entries_perm cat events events' :
  events ≡ₚ events' -> entries cat events ≡ₚ entries cat events'.
Proof. intros H. unfold entries. by rewrite H. Qed.

Lemma rows_of_keys acc : row_key <$> rows_of acc = (cells_by_comp acc).*1.
Proof.
  unfold rows_of. rewrite <- list_fmap_compose.
  apply list_fmap_ext. by intros i [k c] _.
Qed.

Lemma rows_of_total acc r :
  r ∈ rows_of acc -> row_total r = default 0 (totals_by_comp acc !! row_key r).
Proof.
  unfold rows_of. intros H. apply list_elem_of_fmap in H as ([k c] & -> & _). done.
Qed.

Lemma add_pos_rows_from (c : Z) (rows : list Row) :
  (imap (fun rk row => (Z.of_nat rk + c, row)) rows).*2 = rows
  /\ (imap (fun rk row => (Z.of_nat rk + c, row)) rows).*1 = seqZ c (Z.of_nat (length rows)).
Proof.
  revert c. induction rows as [|r rows IH]; intros c; [done|].
  rewrite imap_cons, !fmap_cons.
  rewrite (imap_ext _ (fun rk row => (Z.of_nat rk + (c + 1), row))).
  2:{ intros i x _. unfold compose. f_equal. lia. }
  destruct (IH (c + 1)) as [-> ->]. split; [done|].
  cbn [length fst]. rewrite Nat2Z.inj_succ, (seqZ_cons c) by lia.
  f_equal; try lia. f_equal; lia.
Qed.

Lemma sort_rows_perm rows : sort_rows rows ≡ₚ rows.
Proof. apply stable_sort_perm. Qed.

Lemma sort_rows_sorted rows :
  StronglySorted (fun a b => row_total a >= row_total b) (sort_rows rows).
Proof.
  unfold sort_rows.
  assert (H : StronglySorted (fun a b => (- row_total a <=? - row_total b) = true)
                (stable_sort (fun a b => - row_total a <=? - row_total b) rows)).
  { apply stable_sort_sorted.
    - intros x y. rewrite !Z.leb_le. lia.
    - intros x y z. rewrite !Z.leb_le. lia. }
  induction H as [|x l Hl IH Hx]; constructor; [done|].
  eapply Forall_impl; [exact Hx|]. intros y. cbn. rewrite Z.leb_le. lia.
Qed.

Lemma sort_rows_stable t rows :
  filter (fun r => row_total r = t) (sort_rows rows)
  = filter (fun r => row_total r = t) rows.
Proof.
  apply (stable_sort_filter row_total (fun a b => - a <=? - b)).
  intros a. apply Z.leb_le. lia.
Qed.

Lemma category_rows_rows cat events :
  (category_rows cat events).*2 = sort_rows (rows_of (accumulate cat events))
  /\ (category_rows cat events).*1
     = seqZ 1 (Z.of_nat (length (category_rows cat events))).
Proof.
  unfold category_rows, add_pos.
  destruct (add_pos_rows_from 1 (sort_rows (rows_of (accumulate cat events))))
    as [H2 H1].
  split; [done|]. rewrite H1. f_equal.
  by rewrite <- H2 at 1; rewrite length_fmap.
Qed.

Lemma filter_fmap_row_key (g : PersonKey -> Z) t (l : list Row) :
  (forall r, r ∈ l -> row_total r = g (row_key r)) ->
  row_key <$> filter (fun r => row_total r = t) l
  = filter (fun k => g k = t) (row_key <$> l).
Proof.
  induction l as [|r l IH]; intros H; [done|].
  rewrite fmap_cons, !filter_cons.
  rewrite <- (H r) by (by left).
  destruct (decide (row_total r = t)).
  - rewrite fmap_cons, IH; [done|]. intros r' Hr'. apply H. by right.
  - rewrite IH; [done|]. intros r' Hr'. apply H. by right.
Qed.

Lemma filter_rows_keys cat events t :
  row_key <$> filter (fun r => row_total r = t) (rows_of (accumulate cat events))
  = filter (fun k => season_total cat events k = t)
           (row_key <$> rows_of (accumulate cat events)).
Proof. apply filter_fmap_row_key, rows_of_total. Qed.

Lemma category_rows_spec (cat : str) (events : list Event) :
  let rows := category_rows cat events in
  let keys := person_key <$> entries cat events in
  rows.*1 = seqZ 1 (Z.of_nat (length rows))
  /\ length rows = length (remove_dups keys)
  /\ row_key <$> rows.*2 ≡ₚ first_appearance keys
  /\ StronglySorted (fun a b => row_total a >= row_total b) rows.*2
  /\ (forall r, r ∈ rows.*2 -> row_total r = season_total cat events (row_key r))
  /\ (forall t,
        row_key <$> filter (fun r => row_total r = t) rows.*2
        = filter (fun k => season_total cat events k = t) (first_appearance keys)).
Proof.
  cbv zeta. destruct (category_rows_rows cat events) as [H2 H1].
  assert (Hkeys : row_key <$> rows_of (accumulate cat events)
                  = first_appearance (person_key <$> entries cat events)).
  { by rewrite rows_of_keys, accumulate_keys. }
  split_and!.
  - exact H1.
  - rewrite <- first_appearance_length, <- Hkeys, length_fmap.
    rewrite <- (length_fmap snd), H2. apply Permutation_length, sort_rows_perm.
  - rewrite H2, <- Hkeys. by rewrite sort_rows_perm.
  - rewrite H2. apply sort_rows_sorted.
  - intros r Hr. rewrite H2, sort_rows_perm in Hr. by apply rows_of_total.
  - intros t. rewrite H2, sort_rows_stable, filter_rows_keys. by rewrite Hkeys.
Qed.

(** C6.  The data rows of a category: the ranks are 1 to K without a gap,
    K the number of distinct competitors of the category; the totals go
    down; competitors with the same total stand in the order of their first
    appearance in the events. *)
Theorem ranking (cat : str) (events : list Event) :
  let rows := category_rows cat events in
  let keys := person_key <$> entries cat events in
  rows.*1 = seqZ 1 (Z.of_nat (length rows))
  /\ length rows = length (remove_dups keys)
  /\ row_key <$> rows.*2 ≡ₚ first_appearance keys
  /\ StronglySorted (fun a b => row_total a >= row_total b) rows.*2
  /\ (forall r, r ∈ rows.*2 -> row_total r = season_total cat events (row_key r))
  /\ (forall t,
        row_key <$> filter (fun r => row_total r = t) rows.*2
        = filter (fun k => season_total cat events k = t) (first_appearance keys)).
Proof. apply category_rows_spec. Qed.

Lemma existsb_perm {A} (p : A -> bool) l l' :
  l ≡ₚ l' -> existsb p l = existsb p l'.
Proof.
  induction 1; simpl; try congruence.
  - by destruct (p x), (p y).
Qed.

Lemma sort_events_perm events events' sorted :
  events ≡ₚ events' -> sort_events events = Ok sorted ->
  exists sorted', sort_events events' = Ok sorted' /\ sorted ≡ₚ sorted'.
Proof.
  intros Hp. unfold sort_events, mixed_awareness.
  rewrite <- !(existsb_perm _ _ _ Hp).
  destruct (_ && _); [done|]. intros [= <-].
  eexists. split; [done|]. by rewrite !stable_sort_perm.
Qed.

(** C7.  The season totals do not depend on the order in which the parsed
    documents stand before they are sorted by date: the sort goes through
    for both orders or for none, the same competitors get a row, and every
    competitor has the same total in every category. *)
Theorem totals_invariant_under_reordering
    (events events' sorted : list Event) :
  events ≡ₚ events' ->
  sort_events events = Ok sorted ->
  exists sorted',
    sort_events events' = Ok sorted'
    /\ forall cat key,
         season_total cat sorted key = season_total cat sorted' key
         /\ ((exists r, r ∈ (category_rows cat sorted).*2 /\ row_key r = key)
             <-> (exists r, r ∈ (category_rows cat sorted').*2 /\ row_key r = key))
         /\ forall r r', r ∈ (category_rows cat sorted).*2 ->
                         r' ∈ (category_rows cat sorted').*2 ->
                         row_key r = row_key r' -> row_total r = row_total r'.
Proof.
  intros Hp Hs. destruct (sort_events_perm _ _ _ Hp Hs) as (sorted' & Hs' & Hperm).
  exists sorted'. split; [done|]. intros cat key.
  assert (Htot : forall k, season_total cat sorted k = season_total cat sorted' k).
  { intros k. rewrite !season_total_points.
    apply points_of_perm, entries_perm, Hperm. }
  assert (Hrow : forall evs k,
             (exists r, r ∈ (category_rows cat evs).*2 /\ row_key r = k)
             <-> k ∈ person_key <$> entries cat evs).
  { intros evs k. destruct (category_rows_spec cat evs) as (_ & _ & Hk & _).
    rewrite <- first_appearance_elem, <- Hk, list_elem_of_fmap.
    split; intros (r & ? & ?); exists r; by split. }
  split_and!.
  - apply Htot.
  - rewrite !Hrow. by rewrite (entries_perm cat _ _ Hperm).
  - intros r r' Hr Hr' Hk.
    destruct (category_rows_spec cat sorted) as (_ & _ & _ & _ & Ht & _).
    destruct (category_rows_spec cat sorted') as (_ & _ & _ & _ & Ht' & _).
    rewrite (Ht r Hr), (Ht' r' Hr'), Hk. apply Htot.
Qed.

End Aggregator.

(* ================================================================== *)
(** * Cells and totals *)
(* ================================================================== *)

Lemma dict_get_update {V} k key (f : V -> V) dflt (d : list (PersonKey * V)) :
  dict_get k (dict_update key f dflt d)
  = if decide (k = key) then Some (f (default dflt (dict_get key d)))
    else dict_get k d.
Proof.
  induction d as [|[k' v] d IH]; cbn [dict_update dict_get].
  - repeat case_decide; simplify_eq; by cbn.
  - destruct (decide (k' = key)) as [->|Hne]; cbn [dict_get].
    + repeat case_decide; simplify_eq; by cbn.
    + rewrite IH. repeat case_decide; simplify_eq; by cbn.
Qed.

Lemma dict_get_elem {V} k (v : V) (d : list (PersonKey * V)) :
  NoDup d.*1 -> (k, v) ∈ d -> dict_get k d = Some v.
Proof.
  induction d as [|[k' v'] d IH]; intros Hnd Hin; [by apply elem_of_nil in Hin|].
  rewrite fmap_cons in Hnd. apply NoDup_cons in Hnd as [Hk' Hnd].
  cbn [dict_get]. apply elem_of_cons in Hin as [[= <- <-]|Hin].
  - by rewrite decide_True.
  - rewrite decide_False; [by apply IH|].
    intros ->. apply Hk'. apply list_elem_of_fmap. by exists (k, v).
Qed.

Lemma Zsum_cons x l : Zsum (x :: l) = x + Zsum l.
Proof. done. Qed.

Lemma Zsum_insert (f : str -> Z) (l : list str) i x old :
  l !! i = Some old ->
  Zsum (f <$> <[i := x]> l) = Zsum (f <$> l) - f old + f x.
Proof.
  revert i. induction l as [|y l IH]; intros [|i] H; try done.
  - cbn in H. injection H as ->.
    change (<[0%nat:=x]> (old :: l)) with (x :: l).
    rewrite !fmap_cons, !Zsum_cons. lia.
  - cbn in H. change (<[S i:=x]> (y :: l)) with (y :: <[i:=x]> l).
    rewrite !fmap_cons, !Zsum_cons, (IH i H). lia.
Qed.

Lemma Zsum_blank (f : str -> Z) n : f [] = 0 -> Zsum (f <$> replicate n []) = 0.
Proof.
  intros H. induction n as [|n IH]; [done|].
  cbn [replicate]. rewrite fmap_cons, Zsum_cons. lia.
Qed.

Section Cells.
Context {rt : PyRuntime} (n : nat).

Lemma accumulated_snoc L i r :
  accumulated n (L ++ [(i, r)]) = accumulate_record n i (accumulated n L) r.
Proof. unfold accumulated. by rewrite foldl_app. Qed.

Lemma accumulate_record_total i acc r k :
  default 0 (totals_by_comp (accumulate_record n i acc r) !! k)
  = default 0 (totals_by_comp acc !! k)
    + (if decide (k = person_key r) then numeric_value (display_of r) else 0).
Proof.
  unfold accumulate_record, numeric_value. cbn [totals_by_comp].
  destruct (isdigit (display_of r)).
  - destruct (decide (k = person_key r)) as [->|Hne].
    + rewrite lookup_insert_eq. by cbn.
    + rewrite lookup_insert_ne by done. lia.
  - destruct (decide (k = person_key r)); lia.
Qed.

Lemma cells_invariant L :
  Forall (fun p => (p.1 < n)%nat) L ->
  (forall k cells,
     dict_get k (cells_by_comp (accumulated n L)) = Some cells ->
     length cells = n
     /\ forall i d, cells !! i = Some d -> d <> [] ->
          exists r, (i, r) ∈ L /\ person_key r = k /\ display_of r = d)
  /\ (forall k, dict_get k (cells_by_comp (accumulated n L)) = None ->
        totals_by_comp (accumulated n L) !! k = None).
Proof.
  induction L as [|[i r] L IH] using rev_ind; intros HL.
  { split; [done|]. intros k _. apply lookup_empty. }
  apply Forall_app in HL as [HL Hi]. apply Forall_cons in Hi as [Hi _]. cbn in Hi.
  destruct (IH HL) as [IH1 IH2]. clear IH.
  rewrite accumulated_snoc. split.
  - intros k cells. cbn [accumulate_record cells_by_comp].
    rewrite dict_get_update. destruct (decide (k = person_key r)) as [->|Hne].
    + intros [= <-].
      set (cells0 := default (replicate n [])
                       (dict_get (person_key r) (cells_by_comp (accumulated n L)))).
      assert (Hlen : length cells0 = n).
      { unfold cells0. destruct (dict_get _ _) as [c|] eqn:E; cbn.
        - by destruct (IH1 _ _ E).
        - apply length_replicate. }
      split; [by rewrite length_insert|].
      intros j d Hj Hd. destruct (decide (j = i)) as [->|Hji].
      * rewrite list_lookup_insert_eq in Hj by lia. injection Hj as <-.
        exists r. split_and!; try done. apply elem_of_app. right. by left.
      * rewrite list_lookup_insert_ne in Hj by done.
        unfold cells0 in Hj. destruct (dict_get _ _) as [c|] eqn:E; cbn in Hj.
        -- destruct (IH1 _ _ E) as [_ H]. destruct (H j d Hj Hd) as (r' & ? & ? & ?).
           exists r'. split_and!; try done. apply elem_of_app. by left.
        -- apply lookup_replicate in Hj as [-> _]. done.
    + intros E. destruct (IH1 _ _ E) as [Hlen H]. split; [done|].
      intros j d Hj Hd. destruct (H j d Hj Hd) as (r' & ? & ? & ?).
      exists r'. split_and!; try done. apply elem_of_app. by left.
  - intros k. cbn [accumulate_record cells_by_comp totals_by_comp].
    rewrite dict_get_update. destruct (decide (k = person_key r)); [done|].
    intros E. destruct (isdigit _); [|by apply IH2].
    rewrite lookup_insert_ne by done. by apply IH2.
Qed.

(** When no competitor has two records in one event, the total is the sum
    of the numeric cells. *)
Lemma totals_match_cells L :
  Forall (fun p => (p.1 < n)%nat) L ->
  NoDup ((fun p => (p.1, person_key p.2)) <$> L) ->
  forall k cells,
    dict_get k (cells_by_comp (accumulated n L)) = Some cells ->
    default 0 (totals_by_comp (accumulated n L) !! k)
    = Zsum (numeric_value <$> cells).
Proof.
  induction L as [|[i r] L IH] using rev_ind; intros HL Hnd; [done|].
  apply Forall_app in HL as [HL Hi]. apply Forall_cons in Hi as [Hi _]. cbn in Hi.
  rewrite fmap_app in Hnd. apply NoDup_app in Hnd as (Hnd & Hfresh & _).
  specialize (IH HL Hnd). destruct (cells_invariant L HL) as [Inv1 Inv2].
  intros k cells. rewrite accumulated_snoc, accumulate_record_total.
  cbn [accumulate_record cells_by_comp]. rewrite dict_get_update.
  destruct (decide (k = person_key r)) as [->|Hne].
  - intros [= <-].
    set (cells0 := default (replicate n [])
                     (dict_get (person_key r) (cells_by_comp (accumulated n L)))).
    assert (H0 : length cells0 = n
                 /\ default 0 (totals_by_comp (accumulated n L) !! person_key r)
                    = Zsum (numeric_value <$> cells0)
                 /\ cells0 !! i = Some []).
    { unfold cells0. destruct (dict_get _ _) as [c|] eqn:E; cbn.
      - destruct (Inv1 _ _ E) as [Hlen Hrec]. split_and!; [done | by apply IH |].
        destruct (lookup_lt_is_Some_2 c i) as [d Hd]; [lia|].
        rewrite Hd. f_equal. destruct d as [|x d]; [done|].
        destruct (Hrec i (x :: d) Hd) as (r' & Hin & Hk & _); [done|].
        exfalso. apply (Hfresh (i, person_key r)).
        + apply list_elem_of_fmap. exists (i, r'). split; [cbn; by rewrite Hk | done].
        + cbn. by left.
      - split_and!.
        + apply length_replicate.
        + rewrite (Inv2 _ E). cbn. by rewrite Zsum_blank.
        + by apply lookup_replicate_2. }
    destruct H0 as (Hlen & Htot & Hold).
    rewrite (Zsum_insert _ _ _ _ _ Hold), Htot. cbn. lia.
  - intros E. rewrite (IH _ _ E). lia.
Qed.

End Cells.

Section CellsOfRows.
Context {rt : PyRuntime}.

Lemma accumulate_accumulated cat events :
  accumulate cat events = accumulated (length events) (tagged_from cat 0 events).
Proof. unfold accumulate, accumulated. apply accumulate_from_flat. Qed.

Lemma tagged_from_elem cat idx events i r :
  (i, r) ∈ tagged_from cat idx events
  <-> (idx <= i)%nat
      /\ exists ev, events !! (i - idx)%nat = Some ev
                    /\ r ∈ records_of_category cat ev.
Proof.
  revert idx. induction events as [|ev events IH]; intros idx.
  - cbn. rewrite elem_of_nil. split; [done|]. intros (_ & ev & H & _). done.
  - cbn [tagged_from]. rewrite elem_of_app, list_elem_of_fmap, IH. split.
    + intros [(r' & [= -> ->] & Hr) | (Hle & ev' & Hev & Hr)].
      * split; [lia|]. exists ev. by rewrite Nat.sub_diag.
      * split; [lia|]. exists ev'. split; [|done].
        replace (i - idx)%nat with (S (i - S idx)) by lia. done.
    + intros (Hle & ev' & Hev & Hr).
      destruct (decide (i = idx)) as [->|Hne].
      * left. rewrite Nat.sub_diag in Hev. injection Hev as <-. by exists r.
      * right. split; [lia|]. exists ev'. split; [|done].
        replace (i - idx)%nat with (S (i - S idx)) in Hev by lia. done.
Qed.

Lemma tagged_from_bound cat idx events :
  Forall (fun p => (p.1 < idx + length events)%nat) (tagged_from cat idx events).
Proof.
  apply Forall_forall. intros [i r] H.
  apply tagged_from_elem in H as (Hle & ev & Hev & _).
  apply lookup_lt_Some in Hev. cbn. lia.
Qed.

Lemma tagged_from_NoDup cat idx events :
  (forall ev, ev ∈ events -> NoDup (person_key <$> records_of_category cat ev)) ->
  NoDup ((fun p => (p.1, person_key p.2)) <$> tagged_from cat idx events).
Proof.
  revert idx. induction events as [|ev events IH]; intros idx H; [constructor|].
  cbn [tagged_from]. rewrite fmap_app. apply NoDup_app. split_and!.
  - rewrite <- list_fmap_compose.
    apply (NoDup_fmap_2 (fun k : PersonKey => (idx, k))) with
      (l := person_key <$> records_of_category cat ev) in H as Hnd.
    + by rewrite <- list_fmap_compose in Hnd.
    + by left.
  - intros [i k] H1 H2.
    apply list_elem_of_fmap in H1 as ([i1 r1] & Heq1 & Hr1).
    apply list_elem_of_fmap in Hr1 as (r1' & Heq & _).
    apply list_elem_of_fmap in H2 as ([i2 r2] & Heq2 & Hr2).
    apply tagged_from_elem in Hr2 as [Hle _].
    cbn in Heq1, Heq2. simplify_eq. lia.
  - apply IH. intros ev' Hev'. apply H. by right.
Qed.

(** The cells and the total of a data row.  A cell that is not blank is the
    display text of a record of that competitor in that event; when no
    competitor has two records in one event of the category, the total is
    the sum of the numeric cells. *)
Lemma cells_and_totals cat events row :
  row ∈ (category_rows cat events).*2 ->
  length (row_cells row) = length events
  /\ (forall i d, row_cells row !! i = Some d -> d <> [] ->
        exists ev rec, events !! i = Some ev
                       /\ rec ∈ records_of_category cat ev
                       /\ person_key rec = row_key row /\ display_of rec = d)
  /\ ((forall ev, ev ∈ events ->
         NoDup (person_key <$> records_of_category cat ev)) ->
      row_total row = Zsum (numeric_value <$> row_cells row)).
Proof.
  intros Hrow. destruct (category_rows_rows cat events) as [H2 _].
  rewrite H2, sort_rows_perm in Hrow.
  pose proof (rows_of_total _ _ Hrow) as Htot.
  assert (Hget : dict_get (row_key row) (cells_by_comp (accumulate cat events))
                 = Some (row_cells row)).
  { apply dict_get_elem.
    - rewrite accumulate_keys. apply first_appearance_NoDup.
    - unfold rows_of in Hrow.
      apply list_elem_of_fmap in Hrow as ([k c] & -> & Hin). done. }
  rewrite accumulate_accumulated in Hget, Htot.
  pose proof (tagged_from_bound cat 0 events) as Hb.
  destruct (cells_invariant _ _ Hb) as [Inv _].
  destruct (Inv _ _ Hget) as [Hlen Hrec]. split_and!.
  - done.
  - intros i d Hi Hd. destruct (Hrec i d Hi Hd) as (r & Hin & Hk & Hdisp).
    apply tagged_from_elem in Hin as (_ & ev & Hev & Hr).
    rewrite Nat.sub_0_r in Hev. by exists ev, r.
  - intros Hnd. rewrite Htot.
    apply (totals_match_cells _ _ Hb); [|done]. by apply tagged_from_NoDup.
Qed.

End CellsOfRows.

(* ================================================================== *)
(** * Two runners of one name *)
(* ================================================================== *)

(** C2.  The total of a row is not always the sum of its numeric cells.
    In the race [Homonyms.race] the two records of the one key fall into
    the same cell: the cell keeps the second display text, 19, and the
    total adds both, 20 + 19 = 39. *)
Theorem homonyms_total_is_not_the_sum :
  exists ev,
    @parse_event BasicLatin.runtime Homonyms.race = Ok ev
    /\ (@category_rows BasicLatin.runtime (u "M") [ev]).*2
       = [ {| row_key := Homonyms.key; row_cells := [u "19"]; row_total := 39 |} ]
    /\ Zsum (numeric_value <$> [u "19"]) = 19.
Proof.
  eexists. split; [vm_compute; reflexivity|]. split; vm_compute; reflexivity.
Qed.

(* ================================================================== *)
(** * The Basic Latin runtime is faithful *)
(* ================================================================== *)

Lemma spells_head s t :
  Forall latin s -> spells s t ->
  match t with
  | m :: _ => (m =? COMBINING_CARON)%N = false
  | [] => True
  end.
Proof.
  intros Hs H. destruct H as [|c s t H|c s t H]; [done| |].
  - apply Forall_cons in Hs as [Hc _]. revert Hc. chars.
  - apply Forall_cons in Hs as [Hc _]. revert Hc.
    unfold BasicLatin.decompose1.
    destruct (c =? LATIN_SMALL_Z_CARON)%N; [done|].
    destruct (c =? LATIN_CAPITAL_Z_CARON)%N; [done|]. cbn. chars.
Qed.

Lemma decompose1_cons c : exists a r, BasicLatin.decompose1 c = a :: r.
Proof.
  unfold BasicLatin.decompose1.
  destruct (c =? LATIN_SMALL_Z_CARON)%N; [eauto|].
  destruct (c =? LATIN_CAPITAL_Z_CARON)%N; eauto.
Qed.

Lemma spells_nil_r s : spells s [] -> s = [].
Proof.
  inversion 1 as [| |c s' t' H' E1 E2]; [done|].
  destruct (decompose1_cons c) as (a & r & E). by rewrite E in E2.
Qed.

Lemma compose_spells s t :
  Forall latin s -> spells s t -> BasicLatin.compose t = s.
Proof.
  intros Hs H. induction H as [|c s t H IH|c s t H IH]; [done| |].
  - pose proof (spells_head _ _ (Forall_inv_tail Hs) H) as Hhd.
    specialize (IH (Forall_inv_tail Hs)).
    destruct t as [|m t]; [by rewrite (spells_nil_r _ H)|].
    cbn [BasicLatin.compose]. rewrite Hhd. cbn [andb].
    cbn [BasicLatin.compose] in IH. by rewrite IH.
  - pose proof (spells_head _ _ (Forall_inv_tail Hs) H) as Hhd.
    specialize (IH (Forall_inv_tail Hs)).
    unfold BasicLatin.decompose1.
    destruct (c =? LATIN_SMALL_Z_CARON)%N eqn:E1;
      [|destruct (c =? LATIN_CAPITAL_Z_CARON)%N eqn:E2].
    + apply N.eqb_eq in E1 as ->. cbn. by rewrite IH.
    + apply N.eqb_eq in E2 as ->. cbn. by rewrite IH.
    + destruct t as [|m t]; [by rewrite (spells_nil_r _ H)|].
      cbn -[N.eqb]. rewrite Hhd. cbn [andb].
      cbn [BasicLatin.compose] in IH. by rewrite IH.
Qed.

Lemma basic_latin_faithful : Faithful BasicLatin.runtime.
Proof.
  constructor.
  - done.
  - intros c H. cbn. by rewrite isspace_lower1.
  - done.
  - done.
  - intros s t. apply compose_spells.
Qed.

(* ================================================================== *)
(** * The theorems at work *)
(* ================================================================== *)

(** The scoring rule at the positions 5 and 21 and at the texts ["5"] and
    ["5th"]. *)
Lemma scoring_rule_witness :
  (1 <= 5 <= 20 /\ POINTS_get 5 = 21 - 5)
  /\ (21 <= 21 /\ POINTS_get 21 = 0)
  /\ (@py_int BasicLatin.runtime (u "5") = Some 5
      /\ @parse_position BasicLatin.runtime (u "5") = (Some 5, POINTS_get 5))
  /\ (@py_int BasicLatin.runtime (u "5th") = None
      /\ @parse_position BasicLatin.runtime (u "5th") = (None, 0)).
Proof.
  destruct (@scoring_rule BasicLatin.runtime) as (H1 & H2 & H3 & H4).
  refine (conj (conj _ (H1 5 _))
            (conj (conj _ (H2 21 _))
               (conj (conj _ (H3 (u "5") 5 _)) (conj _ (H4 (u "5th") _)))));
    try lia; reflexivity.
Defined.

(** The display text of a fifth place with status OK. *)
Lemma display_priority_witness :
  let rec := {| class_name := u "M"; person_key := (u "Adam", u "Kral", u "SK1");
                position := Some 5; points := 16; status_raw := u "OK" |} in
  @map_status BasicLatin.runtime (Some (status_raw rec)) = None
  /\ position rec <> None /\ 0 < points rec
  /\ @display_of BasicLatin.runtime rec = str_of_Z (points rec).
Proof.
  intros rec.
  destruct (@display_priority BasicLatin.runtime rec) as (_ & _ & H & _).
  assert (H1 : @map_status BasicLatin.runtime (Some (status_raw rec)) = None)
    by reflexivity.
  assert (H2 : position rec <> None) by discriminate.
  assert (H3 : 0 < points rec) by reflexivity.
  split_and!; try assumption. exact (H H1 H2 H3).
Defined.

(** The status ["DidNotStart"]. *)
Lemma map_status_total_witness :
  @lower BasicLatin.runtime (u "DidNotStart") = u "didnotstart"
  /\ @map_status BasicLatin.runtime (Some (u "DidNotStart")) = Some (u "DNS").
Proof.
  destruct (@map_status_total BasicLatin.runtime (Some (u "DidNotStart")))
    as (H & _).
  split; [reflexivity|]. apply H. reflexivity.
Defined.

(** The status [" OK "]. *)
Lemma map_status_keeps_blanks_witness :
  Forall (fun c => isspace c = true) (u " ")
  /\ Forall (fun c => isspace c = true) (u " ")
  /\ u " " ++ u " " <> []
  /\ BasicLatin.lower1 <$> u "OK" = u "ok"
  /\ @map_status BasicLatin.runtime (Some (u " " ++ u "OK" ++ u " ")) = Some (u "DISQ").
Proof.
  assert (H1 : Forall (fun c => isspace c = true) (u " "))
    by (repeat constructor).
  assert (H2 : u " " ++ u " " <> []) by discriminate.
  assert (H3 : BasicLatin.lower1 <$> u "OK" = u "ok") by reflexivity.
  split_and!; try assumption.
  exact (@map_status_keeps_blanks BasicLatin.runtime basic_latin_faithful
           (u " ") (u "OK") (u " ") H1 H1 H2 H3).
Defined.

(** The two races of [Season], given summer first. *)
Lemma totals_invariant_witness :
  let a := Season.event_of Season.spring in
  let b := Season.event_of Season.summer in
  [b; a] ≡ₚ [a; b]
  /\ sort_events [b; a] = Ok [a; b]
  /\ exists sorted',
       sort_events [a; b] = Ok sorted'
       /\ forall cat key,
            @season_total BasicLatin.runtime cat [a; b] key
            = @season_total BasicLatin.runtime cat sorted' key
            /\ ((exists r, r ∈ (@category_rows BasicLatin.runtime cat [a; b]).*2
                           /\ row_key r = key)
                <-> (exists r, r ∈ (@category_rows BasicLatin.runtime cat sorted').*2
                               /\ row_key r = key))
            /\ forall r r',
                 r ∈ (@category_rows BasicLatin.runtime cat [a; b]).*2 ->
                 r' ∈ (@category_rows BasicLatin.runtime cat sorted').*2 ->
                 row_key r = row_key r' -> row_total r = row_total r'.
Proof.
  intros a b.
  assert (Hp : [b; a] ≡ₚ [a; b]) by apply Permutation_swap.
  assert (Hs : sort_events [b; a] = Ok [a; b]) by reflexivity.
  split; [exact Hp|]. split; [exact Hs|].
  exact (@totals_invariant_under_reordering BasicLatin.runtime _ _ _ Hp Hs).
Defined.

(** A listing with an undated race, a runner placed ["5th"], and a listing
    with smudged positions. *)
Lemma date_fatal_position_tolerated_witness :
  let rt := BasicLatin.runtime in
  let found := [(u "a.xml", Season.spring); (u "b.xml", Season.summer_undated)] in
  let pr := Season.runner "Adam" "Kral" "SK1" "5th" "OK" in
  let clean := [(u "a.xml", Season.spring); (u "b.xml", Season.summer)] in
  let smudged := [(u "a.xml", Season.spring); (u "b.xml", Season.summer_smudged)] in
  ((exists f, f ∈ found /\ date_unreadable f.2)
   /\ (exists e, (main found).2 = Raise e) /\ writes_nothing (main found).1)
  /\ (py_int (position_text pr) = None
      /\ exists rec, parse_person_result (u "M") pr = Ok rec
                     /\ position rec = None /\ points rec = 0)
  /\ (Forall2 (fun f f' => f.1 = f'.1 /\ same_but_positions f.2 f'.2) clean smudged
      /\ (main clean).2 = (main smudged).2).
Proof.
  intros rt found pr clean smudged.
  destruct (@date_fatal_position_tolerated rt) as (H1 & H2 & H3).
  assert (Hbad : exists f, f ∈ found /\ date_unreadable f.2).
  { exists (u "b.xml", Season.summer_undated). split; [|reflexivity].
    apply elem_of_cons. right. apply elem_of_cons. by left. }
  assert (Hint : py_int (position_text pr) = None) by reflexivity.
  assert (Hsame : Forall2 (fun f f' => f.1 = f'.1 /\ same_but_positions f.2 f'.2)
                    clean smudged).
  { repeat constructor. }
  split; [split; [exact Hbad | exact (H1 found Hbad)]|].
  split; [split; [exact Hint | exact (H2 (u "M") pr _ eq_refl Hint)]|].
  split; [exact Hsame | exact (H3 clean smudged Hsame)].
Defined.

(* ================================================================== *)
(** * The category normalizer *)
(* ================================================================== *)

(** C1 does not hold as it stands.  The label ["x a b"] loses its last
    letter at every pass: it becomes ["X a"], and ["X a"] becomes ["X"]. *)
Lemma normalize_twice_differs :
  @normalize_class_name BasicLatin.runtime
    (Some (@normalize_class_name BasicLatin.runtime (Some (u "x a b"))))
  <> @normalize_class_name BasicLatin.runtime (Some (u "x a b")).
Proof. vm_compute. discriminate. Qed.

Lemma tidy_fusion sp da v :
  sub_runs isspace (u " ") sp (sub_runs is_dash (u " - ") da v) = tidy_go sp da v.
Proof.
  revert sp da. induction v as [|c v IH]; intros sp da; [done|].
  cbn [sub_runs tidy_go]. destruct (is_dash c).
  - destruct da; cbn [app].
    + apply IH.
    + change (u " - ") with [SPACE; HYPHEN_MINUS; SPACE]. cbn [app sub_runs].
      change (isspace SPACE) with true. change (isspace HYPHEN_MINUS) with false.
      cbn iota. rewrite IH. by destruct sp.
  - cbn [sub_runs]. destruct (isspace c); by rewrite IH.
Qed.

Lemma ends_ok_tail c v : ends_ok (c :: v) -> v <> [] -> ends_ok v.
Proof. unfold ends_ok. destruct v; [done|]. by rewrite last_cons_cons. Qed.

Lemma ends_ok_blank c v :
  ends_ok (c :: v) -> is_dash c = false -> isspace c = true -> v <> [].
Proof.
  unfold ends_ok. intros H Hd Hs ->. cbn in H. destruct H; congruence.
Qed.

Lemma word_char c :
  is_dash c = false -> isspace c = false ->
  (c =? HYPHEN_MINUS)%N = false /\ (c =? SPACE)%N = false.
Proof.
  intros Hd Hs. split.
  - destruct (N.eqb_spec c HYPHEN_MINUS) as [->|]; [done|done].
  - destruct (N.eqb_spec c SPACE) as [->|]; [done|done].
Qed.

Lemma tidy_go_tidy v :
  ends_ok v ->
  tidy_from Word (tidy_go false false v)
  /\ (v <> [] -> tidy_from Blank (tidy_go true false v))
  /\ tidy_from Gap (tidy_go true false v)
  /\ tidy_from Gap (tidy_go true true v).
Proof.
  induction v as [|c v IH]; intros Hend; [by split_and!|].
  assert (IH' : v <> [] -> tidy_from Word (tidy_go false false v)
                 /\ tidy_from Blank (tidy_go true false v)
                 /\ tidy_from Gap (tidy_go true false v)
                 /\ tidy_from Gap (tidy_go true true v)).
  { intros Hv. destruct (IH (ends_ok_tail _ _ Hend Hv)) as (?&?&?&?). auto. }
  assert (IHnil : v = [] -> tidy_from Word (tidy_go false false v)
                 /\ tidy_from Gap (tidy_go true false v)
                 /\ tidy_from Gap (tidy_go true true v)).
  { intros ->. by split_and!. }
  assert (HW : tidy_from Word (tidy_go false false v)
               /\ tidy_from Gap (tidy_go true false v)
               /\ tidy_from Gap (tidy_go true true v)).
  { destruct v; [by apply IHnil|]. destruct IH' as (?&?&?&?); auto. }
  destruct HW as (HW & HG & HGG). clear IH IHnil.
  cbn [tidy_go]. destruct (is_dash c) eqn:Hd; [|destruct (isspace c) eqn:Hs].
  - cbn. split_and!; try done.
  - pose proof (ends_ok_blank _ _ Hend Hd Hs) as Hv.
    destruct (IH' Hv) as (_ & HB & _). cbn. split_and!; try done.
  - destruct (word_char c Hd Hs) as [E1 E2].
    cbn [tidy_from]. rewrite E1, E2. by split_and!.
Qed.

Lemma dropwhile_snoc p l c :
  dropwhile p (l ++ [c])
  = if forallb p l then (if p c then [] else [c]) else dropwhile p l ++ [c].
Proof.
  induction l as [|x l IH]; [done|]. cbn. by destruct (p x).
Qed.

Lemma forallb_rev (p : N -> bool) l : forallb p (rev l) = forallb p l.
Proof.
  induction l as [|x l IH]; [done|]. cbn.
  rewrite forallb_app, IH. cbn. by destruct (p x), (forallb p l).
Qed.

Lemma dropwhile_nil p l : dropwhile p l = [] <-> forallb p l = true.
Proof.
  induction l as [|x l IH]; [done|]. cbn. by destruct (p x).
Qed.

Lemma rstrip_nil v : rstrip v = [] <-> forallb isspace v = true.
Proof.
  unfold rstrip. rewrite <- forallb_rev, <- dropwhile_nil.
  split; [|by intros ->].
  intros H. apply (f_equal (@rev N)) in H. by rewrite rev_involutive in H.
Qed.

Lemma rstrip_cons c v :
  rstrip (c :: v) = if isspace c && forallb isspace v then [] else c :: rstrip v.
Proof.
  unfold rstrip. cbn [rev]. rewrite dropwhile_snoc, forallb_rev.
  destruct (forallb isspace v) eqn:E.
  - apply dropwhile_nil in E as E'. rewrite <- forallb_rev in E.
    apply dropwhile_nil in E. rewrite E.
    by destruct (isspace c).
  - rewrite andb_false_r, rev_unit. done.
Qed.

Lemma rstrip_ends v : ends_ok (rstrip v).
Proof.
  induction v as [|c v IH]; [done|]. rewrite rstrip_cons.
  destruct (isspace c && forallb isspace v) eqn:E; [done|].
  destruct (rstrip v) as [|d w] eqn:Ev.
  - apply rstrip_nil in Ev. rewrite Ev, andb_true_r in E.
    unfold ends_ok. cbn. by right.
  - unfold ends_ok in *. by rewrite last_cons_cons.
Qed.

Lemma rstrip_head c v d w :
  rstrip (c :: v) = d :: w -> d = c.
Proof.
  rewrite rstrip_cons. destruct (_ && _); [done|]. by intros [= ->].
Qed.

Lemma strip_head a c w : strip a = c :: w -> isspace c = false.
Proof.
  unfold strip, lstrip. induction a as [|x a IH]; [done|]. cbn [dropwhile].
  destruct (isspace x) eqn:E; [done|].
  intros H. apply rstrip_head in H. by subst.
Qed.

(** The label that leaves the first three steps is tidy. *)
Lemma tidy_tidied a : tidied (collapse_spaces (unify_dashes (strip a))).
Proof.
  unfold collapse_spaces, unify_dashes. rewrite tidy_fusion.
  pose proof (rstrip_ends (lstrip a)) as Hend. fold (strip a) in Hend.
  destruct (strip a) as [|c v] eqn:E; [done|].
  apply strip_head in E as Hs.
  destruct (tidy_go_tidy v) as (HW & _ & _ & HGG).
  { destruct v as [|d v]; [done|]. by eapply ends_ok_tail. }
  cbn [tidy_go]. rewrite Hs. destruct (is_dash c) eqn:Hd.
  - cbn. by split_and!.
  - destruct (word_char c Hd Hs) as [E1 E2].
    cbn [tidied tidy_from]. rewrite E1, E2. apply N.eqb_neq in E1. by split_and!.
Qed.

Lemma tidy_from_not_blank q c o :
  tidy_from q (c :: o) -> isspace c = true -> q = Word.
Proof.
  cbn [tidy_from]. destruct (c =? HYPHEN_MINUS)%N eqn:E1.
  - apply N.eqb_eq in E1 as ->. done.
  - destruct (c =? SPACE)%N; [tauto|]. intros [[Hs _] _]. congruence.
Qed.

(** From a place that is not after a word, a tidy rest does not begin
    with a blank. *)
Lemma tidy_from_all_blank q o :
  q <> Word -> tidy_from q o -> forallb isspace o = true -> o = [].
Proof.
  intros Hq H Hall. destruct o as [|c o]; [done|].
  cbn in Hall. apply andb_true_iff in Hall as [Hc _].
  by apply tidy_from_not_blank in H.
Qed.

Lemma tidy_go_rstrip n o :
  (length o <= n)%nat ->
  (tidy_from Word o -> tidy_go false false (rstrip o) = o)
  /\ (tidy_from Blank o -> tidy_go true false (rstrip o) = o)
  /\ (tidy_from Gap o -> tidy_go true false (rstrip o) = o).
Proof.
  revert o. induction n as [|n IH]; intros o Hn.
  { destruct o; [|cbn in Hn; lia]. by split_and!. }
  destruct o as [|c o]; [by split_and!|]. cbn in Hn.
  assert (Hdash : forall q, q <> Word -> tidy_from q (c :: o) ->
                    (c =? HYPHEN_MINUS)%N = true ->
                    tidy_go true false (rstrip (c :: o)) = c :: o).
  { intros q Hq H E. cbn [tidy_from] in H. rewrite E in H.
    apply N.eqb_eq in E as ->. destruct H as [_ H].
    destruct o as [|sp o3]; [done|]. destruct H as [-> HG].
    rewrite rstrip_cons. change (isspace HYPHEN_MINUS) with false. cbn [andb].
    rewrite rstrip_cons. change (isspace SPACE) with true. cbn [andb].
    destruct (forallb isspace o3) eqn:Eall.
    - by rewrite (tidy_from_all_blank Gap o3).
    - cbn. f_equal. f_equal. cbn in Hn.
      destruct (IH o3) as (_ & _ & H3); [lia|]. by apply H3. }
  assert (Hword : forall sp q, tidy_from q (c :: o) ->
                    (c =? HYPHEN_MINUS)%N = false -> (c =? SPACE)%N = false ->
                    tidy_go sp false (rstrip (c :: o)) = c :: o).
  { intros sp q H E1 E2. cbn [tidy_from] in H. rewrite E1, E2 in H.
    destruct H as [[Hs Hd] HW].
    rewrite rstrip_cons, Hs. cbn [andb tidy_go]. rewrite Hd, Hs. f_equal.
    destruct (IH o) as (H1 & _); [lia|]. by apply H1. }
  destruct (c =? HYPHEN_MINUS)%N eqn:E1; [|destruct (c =? SPACE)%N eqn:E2].
  - split_and!; intros H.
    + cbn [tidy_from] in H. rewrite E1 in H. by destruct H.
    + by apply (Hdash Blank).
    + by apply (Hdash Gap).
  - assert (HB : tidy_from Word (c :: o) ->
                 tidy_go false false (rstrip (c :: o)) = c :: o).
    { intros H. cbn [tidy_from] in H. rewrite E1, E2 in H. destruct H as [_ HB].
      apply N.eqb_eq in E2 as ->.
      rewrite rstrip_cons. change (isspace SPACE) with true. cbn [andb].
      destruct (forallb isspace o) eqn:Eall.
      - by rewrite (tidy_from_all_blank Blank o) in HB.
      - cbn. f_equal. destruct (IH o) as (_ & H2 & _); [lia|]. by apply H2. }
    split_and!; [done| |]; intros H; cbn [tidy_from] in H;
      rewrite E1, E2 in H; by destruct H.
  - split_and!; intros H; by eapply Hword.
Qed.

(** A tidy label comes out of the first three steps as it went in. *)
Lemma tidy_fixed o : tidied o -> collapse_spaces (unify_dashes (strip o)) = o.
Proof.
  intros H. unfold collapse_spaces, unify_dashes. rewrite tidy_fusion.
  destruct o as [|c o]; [done|]. cbn [tidied] in H.
  destruct (c =? SPACE)%N eqn:E.
  - apply N.eqb_eq in E as ->. destruct H as [Hd HB].
    destruct o as [|d o]; [done|]. subst d.
    unfold strip, lstrip. cbn [dropwhile].
    change (isspace SPACE) with true. change (isspace HYPHEN_MINUS) with false.
    cbn iota.
    destruct (tidy_go_rstrip (length (HYPHEN_MINUS :: o)) (HYPHEN_MINUS :: o))
      as (_ & H2 & _); [done|].
    specialize (H2 HB). revert H2.
    rewrite rstrip_cons. change (isspace HYPHEN_MINUS) with false. cbn [andb].
    cbn. by intros ->.
  - destruct H as [Hc H].
    assert (Hs : isspace c = false).
    { destruct (isspace c) eqn:Hs; [|done].
      apply tidy_from_not_blank in H; done. }
    unfold strip, lstrip. cbn [dropwhile]. rewrite Hs.
    destruct (tidy_go_rstrip (length (c :: o)) (c :: o)) as (_ & _ & H3); [done|].
    specialize (H3 H). revert H3.
    rewrite rstrip_cons, Hs. cbn [andb tidy_go].
    destruct (is_dash c) eqn:Hd.
    + cbn [tidy_from] in H. destruct (c =? HYPHEN_MINUS)%N eqn:E1.
      * by apply N.eqb_eq in E1.
      * rewrite E in H. destruct H as [[_ Hd'] _]. congruence.
    + by rewrite Hs.
Qed.

Lemma replace_go_skip old new k s :
  replace_go old new k s = replace_go old new 0 (drop k s).
Proof.
  revert k. induction s as [|c s IH]; intros [|k]; try done.
  cbn [replace_go drop]. apply IH.
Qed.

Lemma is_prefix_split old s :
  is_prefix old s = true -> s = old ++ drop (length old) s.
Proof.
  revert s. induction old as [|a old IH]; intros [|c s] H; try done.
  cbn in H. apply andb_true_iff in H as [Ha H].
  apply N.eqb_eq in Ha as ->. cbn. f_equal. by apply IH.
Qed.

Lemma is_prefix_app old x : is_prefix old (old ++ x) = true.
Proof.
  induction old as [|a old IH]; [done|]. cbn. by rewrite N.eqb_refl, IH.
Qed.

Lemma replace_unfold old new c s :
  old <> [] ->
  replace_go old new 0 (c :: s)
  = if is_prefix old (c :: s)
    then new ++ replace_go old new 0 (drop (length old) (c :: s))
    else c :: replace_go old new 0 s.
Proof.
  intros Hold. cbn [replace_go]. destruct (is_prefix old (c :: s)); [|done].
  rewrite replace_go_skip. destruct old as [|a old]; [done|].
  cbn [length]. replace (S (length old) - 1)%nat with (length old) by lia. done.
Qed.

Lemma replace_app old new s :
  old <> [] ->
  replace_go old new 0 (old ++ s) = new ++ replace_go old new 0 s.
Proof.
  intros Hold. destruct (old ++ s) as [|c r] eqn:E.
  { by destruct old. }
  rewrite replace_unfold by done. rewrite <- E.
  rewrite is_prefix_app. by rewrite drop_app_length.
Qed.

Lemma is_prefix_accented old e s :
  Forall (fun c => c <> LATIN_SMALL_Z_CARON) old ->
  Forall2 accented e s -> is_prefix old e = true -> is_prefix old s = true.
Proof.
  intros Hold. revert e s.
  induction Hold as [|a o Ha _ IH]; intros e s H; [done|].
  destruct H as [|x y e s Hxy H]; [done|].
  cbn. rewrite !andb_true_iff. intros [Hx He]. apply N.eqb_eq in Hx as <-.
  split; [|by eapply IH].
  destruct Hxy as [<- | [-> _]]; [apply N.eqb_refl | done].
Qed.

Lemma replace_accented old new s :
  old <> [] -> Forall2 accented new old ->
  Forall2 accented (replace_go old new 0 s) s.
Proof.
  intros old_nonempty new_accented.
  remember (length s) as n eqn:Hn. revert s Hn.
  induction n as [n IH] using lt_wf_ind. intros s Hn.
  destruct s as [|c s]; [constructor|].
  rewrite replace_unfold by done.
  destruct (is_prefix old (c :: s)) eqn:E.
  - apply is_prefix_split in E as Hs. rewrite Hs at 2.
    apply Forall2_app; [done|].
    apply (IH (length (drop (length old) (c :: s)))); [|done].
    rewrite length_drop. subst n. destruct old; [done|]. cbn. lia.
  - constructor; [by left|]. apply (IH (length s)); [|done]. subst n. cbn. lia.
Qed.

Section Replace.
Variables old new : str.
Hypothesis old_nonempty : old <> [].
Hypothesis new_accented : Forall2 accented new old.
Hypothesis old_plain : Forall (fun c => c <> LATIN_SMALL_Z_CARON) old.
Hypothesis new_clean :
  forall x, no_occurrence old x -> no_occurrence old (new ++ x).

Lemma no_occurrence_accented e s :
  Forall2 accented e s -> no_occurrence old s -> no_occurrence old e.
Proof.
  induction 1 as [|x y e s Hxy H IH]; [done|].
  intros [Hp Hs]. split; [|by apply IH].
  destruct (is_prefix old (x :: e)) eqn:E; [|done].
  rewrite (is_prefix_accented old (x :: e) (y :: s)) in Hp;
    [done | done | by constructor | done].
Qed.

Lemma no_occurrence_replace s : no_occurrence old (replace_go old new 0 s).
Proof.
  remember (length s) as n eqn:Hn. revert s Hn.
  induction n as [n IH] using lt_wf_ind. intros s Hn.
  destruct s as [|c s]; [done|].
  rewrite replace_unfold by done.
  destruct (is_prefix old (c :: s)) eqn:E.
  - apply new_clean.
    apply (IH (length (drop (length old) (c :: s)))); [|done].
    rewrite length_drop. subst n. destruct old; [done|]. cbn. lia.
  - split.
    + destruct (is_prefix old (c :: replace_go old new 0 s)) eqn:E'; [|done].
      rewrite (is_prefix_accented old (c :: replace_go old new 0 s) (c :: s)) in E;
        [done | done | | done].
      constructor; [by left | by apply replace_accented].
    + apply (IH (length s)); [|done]. subst n. cbn. lia.
Qed.

End Replace.

Lemma replace_no_occurrence old new t :
  no_occurrence old t -> replace_go old new 0 t = t.
Proof.
  induction t as [|c t IH]; [done|]. intros [Hp Ht].
  cbn [replace_go]. rewrite Hp. f_equal. by apply IH.
Qed.

Lemma guarded_ascii old : guarded old -> Forall (fun c => (c < 0x80)%N) old.
Proof.
  induction old as [|c r IH]; [constructor|]. intros (H & _ & Hr).
  constructor; [done | by apply IH].
Qed.

Lemma decompose1_ascii c : (c < 0x80)%N -> BasicLatin.decompose1 c = [c].
Proof. intros H. chars. Qed.

Lemma spells_refl s : spells s s.
Proof. induction s; by constructor. Qed.

Lemma spells_decompose s : spells s (BasicLatin.decompose s).
Proof. induction s; cbn; by constructor. Qed.

Lemma spells_app s t s' t' : spells s t -> spells s' t' -> spells (s ++ s') (t ++ t').
Proof.
  induction 1 as [|c s t H IH|c s t H IH]; intros H'; [done| |].
  - cbn. constructor. by apply IH.
  - rewrite <- app_assoc. cbn. constructor. by apply IH.
Qed.

Lemma spells_ascii_prefix old s' t :
  Forall (fun c => (c < 0x80)%N) old -> spells (old ++ s') t ->
  exists t', t = old ++ t' /\ spells s' t'.
Proof.
  intros Hold. revert t. induction Hold as [|a o Ha _ IH]; intros t H.
  - by exists t.
  - cbn in H. inversion H as [|c s0 t0 H0|c s0 t0 H0]; subst.
    + destruct (IH _ H0) as (t' & -> & Ht'). by exists t'.
    + rewrite decompose1_ascii by done.
      destruct (IH _ H0) as (t' & -> & Ht'). by exists t'.
Qed.

Lemma is_prefix_caron old t :
  guarded old -> old <> [] -> is_prefix old (COMBINING_CARON :: t) = false.
Proof.
  destruct old as [|a o]; [done|]. intros (Ha & _) _. cbn.
  destruct (N.eqb_spec a COMBINING_CARON) as [->|]; [|done].
  unfold COMBINING_CARON in Ha. lia.
Qed.

Lemma is_prefix_spells old s t :
  guarded old -> Forall latin s -> spells s t ->
  is_prefix old t = is_prefix old s.
Proof.
  revert s t. induction old as [|a o IH]; intros s t Hg Hs H; [done|].
  destruct Hg as (Ha & Hz & Hg).
  destruct H as [|c s t H|c s t H]; [done| |].
  - cbn. f_equal. apply IH; [done | by eapply Forall_inv_tail | done].
  - apply Forall_cons in Hs as [Hc Hs].
    assert (Hsame : is_prefix (a :: o) (c :: t) = is_prefix (a :: o) (c :: s)).
    { cbn. f_equal. by apply IH. }
    unfold BasicLatin.decompose1.
    destruct (N.eqb_spec c LATIN_SMALL_Z_CARON) as [->|Hc1];
      [|destruct (N.eqb_spec c LATIN_CAPITAL_Z_CARON) as [->|Hc2]]; [| |done].
    + cbn -[N.eqb]. replace (a =? LATIN_SMALL_Z_CARON)%N with false
        by (symmetry; apply N.eqb_neq; unfold LATIN_SMALL_Z_CARON; lia).
      destruct (N.eqb_spec a 0x7A%N) as [->|]; [|done]. cbn [andb].
      destruct o as [|b o]; [by destruct Hz; auto|].
      apply (is_prefix_caron (b :: o)); done.
    + cbn -[N.eqb]. replace (a =? LATIN_CAPITAL_Z_CARON)%N with false
        by (symmetry; apply N.eqb_neq; unfold LATIN_CAPITAL_Z_CARON; lia).
      destruct (N.eqb_spec a 0x5A%N) as [->|]; [|done]. cbn [andb].
      destruct o as [|b o]; [by destruct Hz; auto|].
      apply (is_prefix_caron (b :: o)); done.
Qed.

Lemma no_occurrence_spells old s t :
  guarded old -> Forall latin s -> spells s t ->
  no_occurrence old s -> no_occurrence old t.
Proof.
  intros Hg Hs H. induction H as [|c s t H IH|c s t H IH]; [done| |].
  - intros [Hp Hn]. split.
    + rewrite (is_prefix_spells old (c :: s)); [done | done | done | by constructor].
    + apply IH; [by eapply Forall_inv_tail | done].
  - intros [Hp Hn].
    assert (Hold : old <> []) by (intros ->; done).
    assert (Ht : no_occurrence old t).
    { apply IH; [by eapply Forall_inv_tail | done]. }
    assert (Hwhole : is_prefix old (BasicLatin.decompose1 c ++ t) = false).
    { rewrite (is_prefix_spells old (c :: s)); [done | done | done | by constructor]. }
    revert Hwhole. unfold BasicLatin.decompose1.
    destruct (c =? LATIN_SMALL_Z_CARON)%N;
      [|destruct (c =? LATIN_CAPITAL_Z_CARON)%N]; intros Hwhole.
    + split; [done|]. split; [by apply is_prefix_caron | done].
    + split; [done|]. split; [by apply is_prefix_caron | done].
    + by split.
Qed.

Lemma replace_spells old new s t :
  guarded old -> old <> [] -> Forall latin s -> spells s t ->
  spells (replace_go old new 0 s) (replace_go old new 0 t).
Proof.
  intros Hg Hold. remember (length s) as n eqn:Hn. revert s t Hn.
  induction n as [n IH] using lt_wf_ind. intros s t Hn Hs H.
  destruct s as [|c s].
  { inversion H. constructor. }
  pose proof (is_prefix_spells old _ _ Hg Hs H) as Hpre.
  rewrite replace_unfold by done.
  destruct (is_prefix old (c :: s)) eqn:E.
  - apply is_prefix_split in E as Es. rewrite Es in H, Hs.
    apply spells_ascii_prefix in H as (t' & -> & H'); [|by apply guarded_ascii].
    rewrite replace_app by done. apply spells_app; [apply spells_refl|].
    apply (IH (length (drop (length old) (c :: s)))); try done.
    + rewrite length_drop. subst n. destruct old; [done|]. cbn. lia.
    + by apply Forall_app in Hs as [_ Hs].
  - assert (IHs : forall t1, spells s t1 ->
              spells (replace_go old new 0 s) (replace_go old new 0 t1)).
    { intros t1 H1. apply (IH (length s)); try done.
      - subst n. cbn. lia.
      - by eapply Forall_inv_tail. }
    inversion H as [|c0 s0 t0 H0|c0 s0 t0 H0]; subst.
    + rewrite replace_unfold, Hpre by done. constructor. by apply IHs.
    + revert Hpre. unfold BasicLatin.decompose1.
      destruct (c =? LATIN_SMALL_Z_CARON)%N eqn:E1;
        [|destruct (c =? LATIN_CAPITAL_Z_CARON)%N eqn:E2]; intros Hpre.
      * cbn [app] in *. rewrite replace_unfold, Hpre by done.
        rewrite replace_unfold, is_prefix_caron by done.
        pose proof (spells_split c _ _ (IHs _ H0)) as Hsp.
        unfold BasicLatin.decompose1 in Hsp. by rewrite E1 in Hsp.
      * cbn [app] in *. rewrite replace_unfold, Hpre by done.
        rewrite replace_unfold, is_prefix_caron by done.
        pose proof (spells_split c _ _ (IHs _ H0)) as Hsp.
        unfold BasicLatin.decompose1 in Hsp. by rewrite E1, E2 in Hsp.
      * cbn [app] in *. rewrite replace_unfold, Hpre by done.
        constructor. by apply IHs.
Qed.

Lemma accented_trans a b c : accented a b -> accented b c -> accented a c.
Proof.
  unfold accented, LATIN_SMALL_Z_CARON.
  intros [->|[-> ->]] [->|[? ->]]; auto.
Qed.

Lemma Forall2_accented_trans e m s :
  Forall2 accented e m -> Forall2 accented m s -> Forall2 accented e s.
Proof.
  intros H. revert s. induction H as [|x y e m Hxy _ IH]; intros s Hs.
  - by inversion Hs.
  - inversion Hs as [|? z ? s' Hyz Hs']; subst.
    constructor; [by eapply accented_trans | by apply IH].
Qed.

Lemma accented_small e s :
  Forall2 accented e s -> Forall small s -> Forall small e.
Proof.
  induction 1 as [|x y e s Hxy _ IH]; [done|].
  intros Hs. apply Forall_cons in Hs as [Hy Hs].
  constructor; [|by apply IH].
  destruct Hxy as [->|[-> _]]; [done|]. split; [|done]. right. by left.
Qed.

Lemma accented_space x y : accented x y -> (x =? SPACE)%N = (y =? SPACE)%N.
Proof. intros [->|[-> ->]]; done. Qed.

Lemma accented_hyphen x y :
  accented x y -> (x =? HYPHEN_MINUS)%N = (y =? HYPHEN_MINUS)%N.
Proof. intros [->|[-> ->]]; done. Qed.

Lemma accented_word x y :
  accented x y -> isspace y = false /\ is_dash y = false ->
  isspace x = false /\ is_dash x = false.
Proof. intros [->|[-> ->]]; done. Qed.

Lemma tidy_from_accented n q e s :
  (length s <= n)%nat ->
  Forall2 accented e s -> tidy_from q s -> tidy_from q e.
Proof.
  revert q e s. induction n as [|n IH]; intros q e s Hn H.
  { destruct H; [done|]. cbn in Hn. lia. }
  destruct H as [|x y e s Hxy H]; [done|]. cbn in Hn.
  cbn [tidy_from]. rewrite (accented_hyphen _ _ Hxy), (accented_space _ _ Hxy).
  destruct (y =? HYPHEN_MINUS)%N; [|destruct (y =? SPACE)%N].
  - intros [Hq Hs]. split; [done|].
    destruct H as [|x2 y2 e s Hxy2 H]; [done|]. destruct Hs as [-> Hs].
    split.
    + destruct Hxy2 as [->|[_ ?]]; done.
    + cbn in Hn. apply (IH Gap e s); [lia | done | done].
  - intros [Hq Hs]. split; [done|]. apply (IH Blank e s); [lia | done | done].
  - intros [Hw Hs]. split; [by eapply accented_word|].
    apply (IH Word e s); [lia | done | done].
Qed.

Lemma tidied_accented e s : Forall2 accented e s -> tidied s -> tidied e.
Proof.
  intros H. destruct H as [|x y e s Hxy H]; [done|].
  cbn [tidied]. rewrite (accented_space _ _ Hxy).
  destruct (y =? SPACE)%N.
  - intros [Hd HB]. split.
    + destruct H as [|x2 y2 e s Hxy2 H]; [done|]. subst y2.
      destruct Hxy2 as [->|[_ ?]]; done.
    + by apply (tidy_from_accented (length s) Blank e s).
  - intros [Hy HG]. split.
    + intros ->. destruct Hxy as [<-|[? _]]; done.
    + apply (tidy_from_accented (length (y :: s)) Gap (x :: e) (y :: s));
        [done | by constructor | done].
Qed.

Lemma chop_keeps name : keeps_tail name -> chop_trailing_letter name = name.
Proof.
  unfold keeps_tail, chop_trailing_letter.
  destruct (rev name) as [|c [|sp r]]; try done.
  intros [-> H]. destruct r as [|sp' r']; [done|]. by rewrite H.
Qed.

Lemma chop_fixed name : chop_trailing_letter name = name -> keeps_tail name.
Proof.
  unfold keeps_tail, chop_trailing_letter.
  pose proof (length_rev name) as Hlen.
  destruct (rev name) as [|c [|sp r]]; try done. cbn in Hlen.
  destruct ((sp =? SPACE)%N && is_az c).
  { intros H. apply (f_equal length) in H. rewrite length_rev in H. lia. }
  intros H. split; [done|]. destruct r as [|sp' r']; [done|].
  destruct ((c =? LINE_FEED)%N && is_az sp && (sp' =? SPACE)%N); [|done].
  apply (f_equal length) in H. rewrite length_app, length_rev in H.
  cbn in H, Hlen. lia.
Qed.

Lemma Forall2_rev_accented e s :
  Forall2 accented e s -> Forall2 accented (rev e) (rev s).
Proof.
  induction 1; cbn; [constructor|]. apply Forall2_app; [done|].
  constructor; [done | constructor].
Qed.

Lemma accented_az x y : accented x y -> is_az x = true -> x = y.
Proof. intros [->|[-> _]]; done. Qed.

Lemma accented_eqb x y k :
  k <> LATIN_SMALL_Z_CARON -> accented x y -> (x =? k)%N = true -> (y =? k)%N = true.
Proof.
  intros Hk [->|[-> _]]; [done|]. intros H. apply N.eqb_eq in H. done.
Qed.

Lemma keeps_tail_accented e s :
  Forall2 accented e s -> keeps_tail s -> keeps_tail e.
Proof.
  intros H. apply Forall2_rev_accented in H. unfold keeps_tail.
  destruct H as [|c c' re rs Hc H]; [done|].
  destruct H as [|sp sp' re rs Hsp H]; [done|].
  intros [H1 H2]. split.
  - destruct ((sp =? SPACE)%N && is_az c) eqn:E; [|done].
    apply andb_true_iff in E as [E1 E2].
    pose proof (accented_eqb sp sp' SPACE ltac:(done) Hsp E1) as E1'.
    rewrite <- (accented_az _ _ Hc E2), E1', E2 in H1. done.
  - destruct H as [|sp2 sp2' re rs Hsp2 H]; [done|].
    destruct ((c =? LINE_FEED)%N && is_az sp && (sp2 =? SPACE)%N) eqn:E; [|done].
    apply andb_true_iff in E as [E E3]. apply andb_true_iff in E as [E1 E2].
    pose proof (accented_eqb c c' LINE_FEED ltac:(done) Hc E1) as E1'.
    pose proof (accented_eqb sp2 sp2' SPACE ltac:(done) Hsp2 E3) as E3'.
    rewrite <- (accented_az _ _ Hsp E2), E1', E2, E3' in H2. done.
Qed.

Lemma lower1_small c : latin c -> small (BasicLatin.lower1 c).
Proof. intros H. split; chars. Qed.

Lemma title1_small c :
  small c ->
  latin (BasicLatin.title1 c) /\ BasicLatin.lower1 (BasicLatin.title1 c) = c.
Proof. intros [H1 H2]. unfold small in *. split; chars. Qed.

Lemma small_fixed s : Forall small s -> BasicLatin.lower1 <$> s = s.
Proof.
  induction 1 as [|c s [_ Hc] _ IH]; [done|]. by rewrite fmap_cons, Hc, IH.
Qed.

Lemma small_latin s : Forall small s -> Forall latin s.
Proof. intros H. eapply Forall_impl; [exact H|]. by intros c [Hc _]. Qed.

Lemma latin_plain s : Forall latin s -> Forall plain s.
Proof. intros H. eapply Forall_impl; [exact H|]. intros c Hc. by left. Qed.

Lemma dropwhile_Forall (P : N -> Prop) p s :
  Forall P s -> Forall P (dropwhile p s).
Proof.
  induction 1 as [|c s Hc Hs IH]; [done|]. cbn.
  destruct (p c); [done | by constructor].
Qed.

Lemma rev_Forall (P : N -> Prop) s : Forall P s -> Forall P (rev s).
Proof.
  induction 1 as [|c s Hc Hs IH]; [done|]. cbn.
  apply Forall_app. split; [done | by constructor].
Qed.

Lemma strip_Forall (P : N -> Prop) s : Forall P s -> Forall P (strip s).
Proof.
  intros H. unfold strip, rstrip, lstrip.
  by apply rev_Forall, dropwhile_Forall, rev_Forall, dropwhile_Forall.
Qed.

Lemma tidy_go_Forall (P : N -> Prop) sp da v :
  P SPACE -> P HYPHEN_MINUS -> Forall P v -> Forall P (tidy_go sp da v).
Proof.
  intros Hs Hh H. revert sp da.
  induction H as [|c v Hc _ IH]; intros sp da; [done|].
  cbn [tidy_go]. destruct (is_dash c); [|destruct (isspace c)].
  - destruct da; [done|]. apply Forall_app. split.
    + destruct sp; by repeat constructor.
    + by repeat constructor.
  - apply Forall_app. split; [|done]. destruct sp; by repeat constructor.
  - by constructor.
Qed.

Lemma muzi_accented_ok :
  Forall2 accented muzi_accented (u "muzi")
  /\ (forall x, no_occurrence (u "muzi") x ->
                no_occurrence (u "muzi") (muzi_accented ++ x)).
Proof.
  split.
  - cbn. constructor; [by left|]. constructor; [by left|].
    constructor; [by right|]. constructor; [by left|]. constructor.
  - intros x Hx. cbn. by split_and!.
Qed.

Lemma zeny_accented_ok :
  Forall2 accented zeny_accented (u "zeny")
  /\ (forall x, no_occurrence (u "zeny") x ->
                no_occurrence (u "zeny") (zeny_accented ++ x)).
Proof.
  split.
  - cbn. constructor; [by right|]. constructor; [by left|].
    constructor; [by left|]. constructor; [by left|]. constructor.
  - intros x Hx. cbn. by split_and!.
Qed.

Lemma patterns_plain :
  Forall (fun c => c <> LATIN_SMALL_Z_CARON) (u "muzi")
  /\ Forall (fun c => c <> LATIN_SMALL_Z_CARON) (u "zeny")
  /\ guarded (u "muzi") /\ guarded (u "zeny").
Proof.
  split_and!; try (by repeat constructor).
  - cbn. split_and!; try lia; try done.
  - cbn. split_and!; try lia; try done.
Qed.

Lemma accent_accented s : Forall2 accented (accent s) s.
Proof.
  unfold accent, str_replace.
  eapply Forall2_accented_trans.
  - apply replace_accented; [done | apply zeny_accented_ok].
  - apply replace_accented; [done | apply muzi_accented_ok].
Qed.

Lemma accent_clean s :
  no_occurrence (u "muzi") (accent s) /\ no_occurrence (u "zeny") (accent s).
Proof.
  destruct patterns_plain as (Hm & Hz & _). unfold accent, str_replace. split.
  - eapply no_occurrence_accented; [done| |].
    + apply replace_accented; [done | apply zeny_accented_ok].
    + apply no_occurrence_replace; [done | apply muzi_accented_ok | done
                                     | apply muzi_accented_ok].
  - apply no_occurrence_replace; [done | apply zeny_accented_ok | done
                                   | apply zeny_accented_ok].
Qed.

Lemma accented_latin e s : Forall2 accented e s -> Forall latin s -> Forall latin e.
Proof.
  induction 1 as [|x y e s Hxy _ IH]; [done|].
  intros Hs. apply Forall_cons in Hs as [Hy Hs].
  constructor; [|by apply IH].
  destruct Hxy as [->|[-> _]]; [done|]. right. by left.
Qed.

Lemma accent_spells s t :
  Forall latin s -> spells s t -> spells (accent s) (accent t).
Proof.
  destruct patterns_plain as (_ & _ & Gm & Gz).
  intros Hs H. unfold accent, str_replace.
  apply replace_spells; [done | done | |].
  - eapply accented_latin; [|exact Hs].
    apply replace_accented; [done | apply muzi_accented_ok].
  - by apply replace_spells.
Qed.

Lemma accent_fixed t :
  no_occurrence (u "muzi") t -> no_occurrence (u "zeny") t -> accent t = t.
Proof.
  intros Hm Hz. unfold accent, str_replace.
  by rewrite (replace_no_occurrence _ _ t Hm), (replace_no_occurrence _ _ t Hz).
Qed.

Section Normalizer.
Context {rt : PyRuntime} (faithful : Faithful rt).

Lemma normalize_steps raw :
  raw <> [] ->
  normalize_class_name (Some raw)
  = capitalize (nfc (accent (nfkd (chop_trailing_letter (tidy (lower raw)))))).
Proof. by destruct raw. Qed.

Lemma capitalize_small c e :
  Forall small (c :: e) ->
  capitalize (c :: e) = BasicLatin.title1 c :: e
  /\ lower (BasicLatin.title1 c :: e) = c :: e.
Proof.
  intros H. pose proof (small_latin _ H) as Hl.
  apply Forall_cons in H as [Hc He]. apply Forall_cons in Hl as [Hlc Hle].
  destruct (title1_small c Hc) as [Ht1 Ht2]. split.
  - cbn [capitalize]. rewrite (totitle_latin _ faithful c Hlc).
    rewrite (lower_go_plain faithful) by (by apply latin_plain).
    by rewrite small_fixed.
  - rewrite (lower_plain faithful).
    + by rewrite fmap_cons, Ht2, small_fixed.
    + apply latin_plain. by constructor.
Qed.

Lemma ascii_latin s : Forall (fun c => (c < 0x80)%N) s -> Forall latin s.
Proof. intros H. eapply Forall_impl; [exact H|]. intros c Hc. by left. Qed.

(** One pass on a label of small Basic Latin letters, step by step. *)
Lemma normalize_small_ascii c s kept :
  Forall small (c :: s) -> Forall (fun c => (c < 0x80)%N) kept ->
  chop_trailing_letter (tidy (c :: s)) = kept ->
  normalize_class_name (Some (BasicLatin.title1 c :: s))
  = capitalize (accent kept).
Proof.
  intros Hs Hk Hchop. destruct (capitalize_small c s Hs) as [_ Hlow].
  rewrite normalize_steps by done. rewrite Hlow, Hchop.
  pose proof (ascii_latin _ Hk) as Hl.
  rewrite (nfkd_latin _ faithful _ Hl).
  rewrite (nfc_latin _ faithful (accent kept)); [done | |].
  - eapply accented_latin; [apply accent_accented | done].
  - apply accent_spells; [done | apply spells_decompose].
Qed.

(** In every faithful runtime ["X a b"] becomes ["X a"], and ["X a"]
    becomes ["X"]. *)
Lemma normalize_strips_again :
  normalize_class_name (Some (u "X a b")) = u "X a"
  /\ normalize_class_name (Some (u "X a")) = u "X".
Proof.
  assert (Hsmall : forall s, Forall (fun c => (0x61 <= c <= 0x7A)%N \/ c = SPACE) s ->
                     Forall small s).
  { intros s H. eapply Forall_impl; [exact H|]. intros c Hc. unfold small.
    split; chars. }
  assert (Hcap : forall s, Forall (fun c => (0x61 <= c <= 0x7A)%N \/ c = SPACE) s ->
                   capitalize (0x78%N :: s) = 0x58%N :: s).
  { intros s H. apply (capitalize_small 0x78%N s).
    apply Hsmall. constructor; [left; lia | done]. }
  assert (Hab : Forall (fun c => (0x61 <= c <= 0x7A)%N \/ c = SPACE) (u "x a b")).
  { repeat first [apply Forall_nil_2
                 | apply Forall_cons_2; [first [by right | left; cbn; lia]|]]. }
  pose proof (Forall_inv_tail Hab) as Hab'.
  assert (Ha : Forall (fun c => (0x61 <= c <= 0x7A)%N \/ c = SPACE) (u "x a")).
  { repeat first [apply Forall_nil_2
                 | apply Forall_cons_2; [first [by right | left; cbn; lia]|]]. }
  pose proof (Forall_inv_tail Ha) as Ha'.
  split.
  - change (u "X a b") with (BasicLatin.title1 0x78%N :: u " a b").
    rewrite (normalize_small_ascii 0x78%N (u " a b") (u "x a")).
    + exact (Hcap _ Ha').
    + exact (Hsmall _ Hab).
    + repeat first [apply Forall_nil_2 | apply Forall_cons_2; [cbn; lia|]].
    + reflexivity.
  - change (u "X a") with (BasicLatin.title1 0x78%N :: u " a").
    rewrite (normalize_small_ascii 0x78%N (u " a") (u "x")).
    + apply (Hcap []). constructor.
    + exact (Hsmall _ Ha).
    + repeat first [apply Forall_nil_2 | apply Forall_cons_2; [cbn; lia|]].
    + reflexivity.
Qed.

End Normalizer.

(* ================================================================== *)
(** * Decimal texts *)
(* ================================================================== *)

Lemma int_of_digits_snoc s c :
  int_of_digits (s ++ [c]) = 10 * int_of_digits s + digit_value c.
Proof. unfold int_of_digits. by rewrite fold_left_app. Qed.

Lemma digit_char d :
  0 <= d < 10 ->
  is_ascii_digit (Z.to_N (0x30 + d)) = true /\ digit_value (Z.to_N (0x30 + d)) = d.
Proof.
  intros Hd. unfold is_ascii_digit, in_range, digit_value. split.
  - apply andb_true_iff. rewrite !N.leb_le. lia.
  - lia.
Qed.

Lemma digits_of_spec fuel n :
  0 <= n -> (Z.to_nat n < fuel)%nat ->
  forallb is_ascii_digit (digits_of fuel n) = true
  /\ digits_of fuel n <> []
  /\ int_of_digits (digits_of fuel n) = n.
Proof.
  revert n. induction fuel as [|fuel IH]; intros n Hn Hfuel; [lia|].
  cbn [digits_of].
  destruct (digit_char (n mod 10)) as [Hd Hv]; [apply Z.mod_pos_bound; lia|].
  destruct (Z.ltb_spec n 10) as [Hlt|Hge].
  - cbn [app]. split_and!.
    + cbn. by rewrite Hd.
    + done.
    + unfold int_of_digits. cbn. rewrite Hv. rewrite Z.mod_small; lia.
  - destruct (IH (n / 10)) as (H1 & H2 & H3).
    + apply Z.div_pos; lia.
    + assert (n / 10 < n) by (apply Z.div_lt; lia).
      assert (0 <= n / 10) by (apply Z.div_pos; lia). lia.
    + split_and!.
      * rewrite forallb_app, H1. cbn. by rewrite Hd.
      * intros H. by apply app_eq_nil in H as [_ ?].
      * rewrite int_of_digits_snoc, H3, Hv.
        pose proof (Z.div_mod n 10). lia.
Qed.

(** [int(str(n))] is [n], and [str(n)] is a digit text, for [n >= 0]. *)
Lemma str_of_Z_digits n :
  0 <= n -> isdigit (str_of_Z n) = true /\ int_of_digits (str_of_Z n) = n.
Proof.
  intros Hn. unfold str_of_Z. rewrite (proj2 (Z.ltb_ge n 0)) by lia.
  destruct (digits_of_spec (S (Z.to_nat n)) n) as (H1 & H2 & H3); [lia | lia |].
  split; [|done]. unfold isdigit. by destruct (digits_of _ n).
Qed.

Lemma str_of_Z_inj n m : 0 <= n -> 0 <= m -> str_of_Z n = str_of_Z m -> n = m.
Proof.
  intros Hn Hm H.
  destruct (str_of_Z_digits n Hn) as [_ <-].
  destruct (str_of_Z_digits m Hm) as [_ <-]. by rewrite H.
Qed.

(* ================================================================== *)
(** * The content of a cell *)
(* ================================================================== *)

Lemma filter_none {A} (P : A -> Prop) `{forall x, Decision (P x)} (l : list A) :
  Forall (fun x => ~ P x) l -> filter P l = [].
Proof.
  induction 1 as [|x l Hx _ IH]; [done|].
  by rewrite filter_cons, decide_False.
Qed.

Section CellContent.
Context {rt : PyRuntime} (n : nat).

Lemma filter_tag_snoc_same (L : list (nat * ResultRecord)) (i : nat) r :
  filter (fun p => p.1 = i /\ person_key p.2 = person_key r) (L ++ [(i, r)])
  = filter (fun p => p.1 = i /\ person_key p.2 = person_key r) L ++ [(i, r)].
Proof.
  rewrite filter_app. f_equal. rewrite filter_cons, decide_True by done. done.
Qed.

Lemma filter_tag_snoc_other (L : list (nat * ResultRecord)) (i j : nat) k r :
  ~ (i = j /\ person_key r = k) ->
  filter (fun p => p.1 = j /\ person_key p.2 = k) (L ++ [(i, r)])
  = filter (fun p => p.1 = j /\ person_key p.2 = k) L.
Proof.
  intros H. rewrite filter_app, filter_cons, decide_False by done.
  cbn. by rewrite app_nil_r.
Qed.

(** After the loops have met [L], a cell holds the display text of the last
    record of its competitor and event. *)
Lemma cells_last L :
  Forall (fun p => (p.1 < n)%nat) L ->
  (forall k cells,
     dict_get k (cells_by_comp (accumulated n L)) = Some cells ->
     forall i, (i < n)%nat ->
       cells !! i
       = Some (from_option (fun p => display_of p.2) []
                 (last (filter (fun p => p.1 = i /\ person_key p.2 = k) L))))
  /\ (forall k, dict_get k (cells_by_comp (accumulated n L)) = None ->
        Forall (fun p => person_key p.2 <> k) L).
Proof.
  induction L as [|[i r] L IH] using rev_ind; intros HL.
  { split; [done|]. intros k _. constructor. }
  apply Forall_app in HL as [HL Hi]. apply Forall_cons in Hi as [Hi _]. cbn in Hi.
  destruct (IH HL) as [IH1 IH2]. clear IH.
  destruct (cells_invariant n L HL) as [Inv _].
  rewrite accumulated_snoc. split.
  - intros k cells. cbn [accumulate_record cells_by_comp].
    rewrite dict_get_update. destruct (decide (k = person_key r)) as [->|Hne].
    + intros [= <-] j Hj. destruct (decide (j = i)) as [->|Hji].
      * rewrite filter_tag_snoc_same, last_snoc. cbn.
        apply list_lookup_insert_eq.
        destruct (dict_get _ _) as [c|] eqn:E; cbn.
        -- destruct (Inv _ _ E) as [-> _]. done.
        -- by rewrite length_replicate.
      * rewrite list_lookup_insert_ne by done.
        rewrite filter_tag_snoc_other by (intros [? _]; congruence).
        destruct (dict_get _ _) as [c|] eqn:E; cbn.
        -- by apply IH1.
        -- rewrite lookup_replicate_2 by done. f_equal.
           specialize (IH2 _ E).
           rewrite filter_none; [done|].
           eapply Forall_impl; [exact IH2|]. intros p Hp [_ ?]. done.
    + intros E j Hj. rewrite filter_tag_snoc_other by (intros [_ ?]; congruence).
      by apply IH1.
  - intros k. cbn [accumulate_record cells_by_comp].
    rewrite dict_get_update. destruct (decide (k = person_key r)); [done|].
    intros E. apply Forall_app. split; [by apply IH2|].
    apply Forall_cons. split; [cbn; congruence | constructor].
Qed.

End CellContent.

Section CellOfEvent.
Context {rt : PyRuntime}.

Lemma filter_tag_fmap (recs : list ResultRecord) (idx i : nat) k :
  filter (fun p => p.1 = i /\ person_key p.2 = k) ((fun r => (idx, r)) <$> recs)
  = if decide (idx = i)
    then (fun r => (idx, r)) <$> filter (fun r => person_key r = k) recs
    else [].
Proof.
  induction recs as [|r recs IH]; [by case_decide|].
  rewrite fmap_cons, !filter_cons, IH. cbn [fst snd].
  destruct (decide (idx = i)) as [->|Hne].
  - destruct (decide (person_key r = k)).
    + rewrite decide_True by done. by rewrite fmap_cons.
    + rewrite decide_False by (intros [_ ?]; done). done.
  - rewrite decide_False by (intros [? _]; done). done.
Qed.

Lemma filter_tagged_from cat idx events (i : nat) k :
  filter (fun p => p.1 = i /\ person_key p.2 = k) (tagged_from cat idx events)
  = if decide (idx <= i)%nat
    then from_option
           (fun ev => (fun r => (i, r))
                        <$> filter (fun r => person_key r = k)
                              (records_of_category cat ev))
           [] (events !! (i - idx)%nat)
    else [].
Proof.
  revert idx. induction events as [|ev events IH]; intros idx.
  - cbn. by case_decide.
  - cbn [tagged_from]. rewrite filter_app, filter_tag_fmap, IH.
    destruct (decide (idx = i)) as [->|Hne].
    + rewrite decide_False by lia. rewrite decide_True by lia.
      rewrite Nat.sub_diag. cbn. by rewrite app_nil_r.
    + cbn [app]. destruct (decide (S idx <= i)%nat).
      * rewrite decide_True by lia.
        replace (i - idx)%nat with (S (i - S idx)) by lia. done.
      * rewrite decide_False by lia. done.
Qed.

(** X1.  The cells of a data row.  A row has one cell per event; the cell
    of an event holds the display text of the last record of that
    competitor among the records of the category in that event, and is
    blank when the competitor has none there. *)
Theorem cell_content cat events row :
  row ∈ (category_rows cat events).*2 ->
  length (row_cells row) = length events
  /\ forall i ev, events !! i = Some ev ->
       row_cells row !! i
       = Some (last_display (row_key row) (records_of_category cat ev)).
Proof.
  intros Hrow. destruct (category_rows_rows cat events) as [H2 _].
  rewrite H2, sort_rows_perm in Hrow.
  assert (Hget : dict_get (row_key row) (cells_by_comp (accumulate cat events))
                 = Some (row_cells row)).
  { apply dict_get_elem.
    - rewrite accumulate_keys. apply first_appearance_NoDup.
    - unfold rows_of in Hrow.
      apply list_elem_of_fmap in Hrow as ([k c] & -> & Hin). done. }
  rewrite accumulate_accumulated in Hget.
  pose proof (tagged_from_bound cat 0 events) as Hb.
  destruct (cells_invariant _ _ Hb) as [Inv _].
  destruct (Inv _ _ Hget) as [Hlen _]. split; [done|].
  intros i ev Hev. destruct (cells_last _ _ Hb) as [Last _].
  rewrite (Last _ _ Hget) by (by apply lookup_lt_Some in Hev).
  rewrite filter_tagged_from, decide_True by lia.
  rewrite Nat.sub_0_r, Hev. cbn [from_option]. unfold last_display.
  rewrite fmap_last. by destruct (last _).
Qed.

End CellOfEvent.

(* ================================================================== *)
(** * What a record adds to a total *)
(* ================================================================== *)

Section Counted.
Context {rt : PyRuntime}.

Lemma numeric_value_display rec :
  numeric_value (display_of rec) = counted_points rec.
Proof.
  unfold display_of, counted_points.
  pose proof (map_status_range (Some (status_raw rec))) as H.
  rewrite !elem_of_cons, elem_of_nil in H.
  destruct H as [-> | [-> | [-> | [-> | []]]]]; try done.
  destruct (position rec); [|done].
  destruct (Z.ltb_spec 0 (points rec)) as [Hpos|Hnon].
  - unfold numeric_value.
    destruct (str_of_Z_digits (points rec)) as [-> ->]; lia.
  - rewrite Z.max_l by lia. done.
Qed.

Lemma counted_points_nonneg rec : 0 <= counted_points rec.
Proof.
  unfold counted_points.
  destruct (map_status _); [done|]. destruct (position rec); lia.
Qed.

Lemma Zsum_nonneg l : Forall (fun x => 0 <= x) l -> 0 <= Zsum l.
Proof. induction 1; [done|]. rewrite Zsum_cons. lia. Qed.

Lemma row_total_counted cat events row :
  row ∈ (category_rows cat events).*2 ->
  row_total row
  = Zsum (counted_points
            <$> filter (fun r => person_key r = row_key row) (entries cat events)).
Proof.
  intros Hrow. destruct (category_rows_rows cat events) as [H2 _].
  rewrite H2, sort_rows_perm in Hrow.
  rewrite (rows_of_total _ _ Hrow).
  change (default 0 (totals_by_comp (accumulate cat events) !! row_key row))
    with (season_total cat events (row_key row)).
  rewrite season_total_points. unfold points_of. f_equal.
  apply list_fmap_ext. intros _ r _. apply numeric_value_display.
Qed.

Lemma row_total_nonneg cat events row :
  row ∈ (category_rows cat events).*2 -> 0 <= row_total row.
Proof.
  intros Hrow. rewrite (row_total_counted _ _ _ Hrow). apply Zsum_nonneg.
  apply Forall_fmap, Forall_forall. intros r _. apply counted_points_nonneg.
Qed.

(** X2.  The total of a data row is the sum, over the records of that
    competitor in the category, of the points of the records that count: a
    record with a status other than empty or OK, or without a numeric
    place, or with no points, adds nothing.  A total is never negative. *)
Theorem total_is_counted_points cat events row :
  row ∈ (category_rows cat events).*2 ->
  row_total row
  = Zsum (counted_points
            <$> filter (fun r => person_key r = row_key row) (entries cat events))
  /\ 0 <= row_total row.
Proof.
  intros Hrow. split; [by apply row_total_counted | by eapply row_total_nonneg].
Qed.

(** X3.  When no competitor has two records in one event of the category,
    the total of a data row is the sum of its numeric cells. *)
Theorem total_is_sum_of_cells cat events row :
  (forall ev, ev ∈ events -> NoDup (person_key <$> records_of_category cat ev)) ->
  row ∈ (category_rows cat events).*2 ->
  row_total row = Zsum (numeric_value <$> row_cells row).
Proof.
  intros Hnd Hrow. by apply (cells_and_totals cat events row Hrow).
Qed.

End Counted.

(* ================================================================== *)
(** * The shape of the table *)
(* ================================================================== *)

Section Shape.
Context {rt : PyRuntime}.

Lemma length_cols events : length (cols events) = (length events + 5)%nat.
Proof.
  unfold cols. rewrite !length_app, length_imap. cbn [length u]. cbn. lia.
Qed.

Lemma row_cells_of_length r :
  length (row_cells_of r) = (length (row_cells r.2) + 5)%nat.
Proof.
  unfold row_cells_of. destruct (row_key r.2) as [[given family] pid].
  rewrite !length_app, length_fmap. cbn. lia.
Qed.

Lemma category_section_widths events cat :
  Forall (fun row => length row = (length events + 5)%nat)
         (category_section events cat).
Proof.
  unfold category_section. cbv zeta. repeat apply Forall_cons_2.
  - rewrite !length_app, !length_replicate, length_cols. cbn. lia.
  - rewrite !length_app, length_imap, length_replicate. cbn. lia.
  - rewrite !length_app, length_fmap, length_replicate. cbn. lia.
  - rewrite !length_app, length_fmap. cbn. lia.
  - apply Forall_fmap, Forall_forall. intros r Hr. cbn.
    rewrite row_cells_of_length.
    destruct (cells_and_totals cat events r.2) as [-> _]; [|done].
    apply list_elem_of_fmap. by exists r.
Qed.

Lemma join_chunks_Forall (P : list cell -> Prop) sep chunks :
  Forall P sep -> Forall (Forall P) chunks -> Forall P (join_chunks sep chunks).
Proof.
  intros Hsep. induction 1 as [|chunk chunks Hc Hcs IH]; [constructor|].
  cbn [join_chunks]. destruct chunks as [|chunk' chunks]; [done|].
  apply Forall_app. split; [done|]. apply Forall_app. split; [done|]. apply IH.
Qed.

Lemma join_chunks_length sep chunk chunks :
  length (join_chunks sep (chunk :: chunks))
  = (length chunk + sum_list ((fun c => length sep + length c)%nat <$> chunks))%nat.
Proof.
  revert chunk. induction chunks as [|chunk' chunks IH]; intros chunk.
  - cbn. lia.
  - change (join_chunks sep (chunk :: chunk' :: chunks))
      with (chunk ++ sep ++ join_chunks sep (chunk' :: chunks)).
    rewrite !length_app, IH, fmap_cons.
    change (sum_list (?x :: ?l)) with (x + sum_list l)%nat. lia.
Qed.

(** The two ways [build_tables] ends. *)
Lemma build_tables_cases events :
  (categories events = [] /\ build_tables events = ([], Raise ValueError))
  \/ (categories events <> []
      /\ exists df line,
           build_tables events
           = ([WriteCsv (RESULT_FILE_NAME ++ u ".csv") df; Print line], Ok ())
           /\ columns df = cols events
           /\ body df
              = join_chunks (replicate 3 (replicate (length (cols events)) (CStr [])))
                  (category_section events <$> categories events)).
Proof.
  unfold build_tables. destruct (categories events) as [|cat cats]; [by left|].
  right. split; [done|]. by eexists _, _.
Qed.

Lemma build_tables_written events file_name df :
  WriteCsv file_name df ∈ (build_tables events).1 ->
  file_name = RESULT_FILE_NAME ++ u ".csv"
  /\ columns df = cols events
  /\ body df
     = join_chunks (replicate 3 (replicate (length (cols events)) (CStr [])))
         (category_section events <$> categories events).
Proof.
  destruct (build_tables_cases events)
    as [[_ ->] | (_ & df' & line & -> & Hc & Hb)]; cbn [fst].
  { intros H. by apply elem_of_nil in H. }
  rewrite !elem_of_cons, elem_of_nil. intros [H | [H | []]]; [|discriminate H].
  injection H as -> ->. done.
Qed.

(** X4.  The frame written to the file is rectangular: it has five columns
    more than there are events, and every row, title, header, data or
    separator, has one cell per column. *)
Theorem table_is_rectangular events file_name df :
  WriteCsv file_name df ∈ (build_tables events).1 ->
  length (columns df) = (length events + 5)%nat
  /\ Forall (fun row => length row = length (columns df)) (body df).
Proof.
  intros H. apply build_tables_written in H as (_ & Hc & Hb).
  rewrite Hc, Hb, length_cols. split; [done|].
  apply join_chunks_Forall.
  - apply Forall_replicate. by rewrite length_replicate.
  - apply Forall_fmap, Forall_forall. intros c _. apply category_section_widths.
Qed.

End Shape.

(* ================================================================== *)
(** * The categories *)
(* ================================================================== *)

Lemma str_leb_total a b : str_leb a b = true \/ str_leb b a = true.
Proof.
  revert b. induction a as [|x a IH]; intros [|y b]; cbn; auto.
  destruct (N.ltb_spec x y), (N.ltb_spec y x); auto; lia.
Qed.

Lemma str_leb_trans a b c :
  str_leb a b = true -> str_leb b c = true -> str_leb a c = true.
Proof.
  revert b c. induction a as [|x a IH]; intros [|y b] [|z c]; cbn; auto;
    try discriminate.
  destruct (N.ltb_spec x y), (N.ltb_spec y x), (N.ltb_spec y z),
    (N.ltb_spec z y), (N.ltb_spec x z), (N.ltb_spec z x);
    try discriminate; try lia; eauto.
Qed.

Lemma str_leb_antisym a b : str_leb a b = true -> str_leb b a = true -> a = b.
Proof.
  revert b. induction a as [|x a IH]; intros [|y b]; cbn; try done.
  destruct (N.ltb_spec x y), (N.ltb_spec y x); try discriminate; try lia.
  intros H1 H2. f_equal; [lia | by apply IH].
Qed.

Lemma sorted_set_elem l c : c ∈ sorted_set l <-> c ∈ l.
Proof.
  unfold sorted_set. by rewrite stable_sort_perm, elem_of_remove_dups.
Qed.

Lemma sorted_set_NoDup l : NoDup (sorted_set l).
Proof.
  unfold sorted_set. rewrite stable_sort_perm. apply NoDup_remove_dups.
Qed.

Lemma sorted_set_sorted l :
  StronglySorted (fun a b => str_leb a b = true) (sorted_set l).
Proof. apply stable_sort_sorted; [apply str_leb_total | apply str_leb_trans]. Qed.

(** Two lists sorted by [<=] with the same elements, each once, are the
    same list. *)
Lemma sorted_unique (l l' : list str) :
  StronglySorted (fun a b => str_leb a b = true) l ->
  StronglySorted (fun a b => str_leb a b = true) l' ->
  NoDup l -> NoDup l' -> (forall c, c ∈ l <-> c ∈ l') -> l = l'.
Proof.
  intros Hs. revert l'. induction Hs as [|x l Hs IH Hx]; intros l' Hs' Hn Hn' Hel.
  { destruct l' as [|y l']; [done|].
    exfalso. apply (not_elem_of_nil y). apply Hel. by left. }
  destruct Hs' as [|y l' Hs' Hy].
  { exfalso. apply (not_elem_of_nil x). apply Hel. by left. }
  apply NoDup_cons in Hn as [Hxl Hn]. apply NoDup_cons in Hn' as [Hyl Hn'].
  assert (x = y) as <-.
  { apply str_leb_antisym.
    - assert (Hin : y ∈ x :: l) by (apply Hel; by left).
      apply elem_of_cons in Hin as [->|Hin].
      + destruct (str_leb_total x x); done.
      + by apply (proj1 (Forall_forall _ _) Hx).
    - assert (Hin : x ∈ y :: l') by (apply Hel; by left).
      apply elem_of_cons in Hin as [->|Hin].
      + destruct (str_leb_total y y); done.
      + by apply (proj1 (Forall_forall _ _) Hy). }
  f_equal. apply IH; try done.
  intros c. specialize (Hel c). rewrite !elem_of_cons in Hel.
  split; intros Hc.
  - destruct (proj1 Hel (or_intror Hc)) as [->|]; done.
  - destruct (proj2 Hel (or_intror Hc)) as [->|]; done.
Qed.

Lemma elem_of_concat {A} (x : A) (ls : list (list A)) :
  x ∈ concat ls <-> exists l, x ∈ l /\ l ∈ ls.
Proof.
  induction ls as [|l ls IH]; cbn [concat].
  - split; [by intros ?%elem_of_nil | by intros (l & _ & ?%elem_of_nil)].
  - rewrite elem_of_app, IH. split.
    + intros [H | (l' & H & H')]; [exists l | exists l']; split; try done.
      * by left.
      * by right.
    + intros (l' & H & [-> | H']%elem_of_cons); [by left | right; by exists l'].
Qed.

Section Categories.
Context {rt : PyRuntime}.

Lemma categories_elem events c :
  c ∈ categories events
  <-> exists ev rec, ev ∈ events /\ rec ∈ records ev /\ class_name rec = c.
Proof.
  unfold categories. rewrite sorted_set_elem, list_elem_of_fmap. split.
  - intros (rec & -> & Hin). apply elem_of_concat in Hin as (recs & Hrec & Hrecs).
    apply list_elem_of_fmap in Hrecs as (ev & -> & Hev). by exists ev, rec.
  - intros (ev & rec & Hev & Hrec & <-). exists rec. split; [done|].
    apply elem_of_concat. exists (records ev). split; [done|].
    apply list_elem_of_fmap. by exists ev.
Qed.

(** X5.  The categories of the table are the class names that occur in the
    records, each once, in ascending order of their code points. *)
Theorem categories_sorted_and_complete events :
  StronglySorted (fun a b => str_leb a b = true /\ a <> b) (categories events)
  /\ forall c,
       c ∈ categories events
       <-> exists ev rec, ev ∈ events /\ rec ∈ records ev /\ class_name rec = c.
Proof.
  split; [|apply categories_elem].
  unfold categories.
  generalize (class_name <$> concat (records <$> events)). intros l.
  pose proof (sorted_set_sorted l) as Hs. pose proof (sorted_set_NoDup l) as Hn.
  induction Hs as [|x s Hs IH Hx]; [constructor|].
  apply NoDup_cons in Hn as [Hxs Hn]. constructor; [by apply IH|].
  apply Forall_forall. intros y Hy. split.
  - by apply (proj1 (Forall_forall _ _) Hx).
  - intros ->. done.
Qed.

(** X6.  The categories and their order do not depend on the order of the
    events. *)
Theorem categories_order_independent events events' :
  events ≡ₚ events' -> categories events = categories events'.
Proof.
  intros Hp.
  apply sorted_unique;
    try apply sorted_set_sorted; try apply sorted_set_NoDup.
  intros c. rewrite !categories_elem.
  split; intros (ev & rec & Hev & H); exists ev, rec; split; try done.
  - by rewrite <- Hp.
  - by rewrite Hp.
Qed.

End Categories.

(* ================================================================== *)
(** * How [build_tables] ends *)
(* ================================================================== *)

Section Outcome.
Context {rt : PyRuntime}.

Lemma categories_nil events :
  categories events = [] <-> forall ev, ev ∈ events -> records ev = [].
Proof.
  split.
  - intros E ev Hev. destruct (records ev) as [|rec recs] eqn:Hrec; [done|].
    exfalso. apply (not_elem_of_nil (class_name rec)). rewrite <- E.
    apply categories_elem. exists ev, rec. rewrite Hrec.
    split_and!; try done. by left.
  - intros H. destruct (categories events) as [|c cs] eqn:E; [done|].
    assert (Hc : c ∈ categories events) by (rewrite E; by left).
    apply categories_elem in Hc as (ev & rec & Hev & Hrec & _).
    rewrite (H ev Hev) in Hrec. by apply elem_of_nil in Hrec.
Qed.

(** X7.  [build_tables] fails with [ValueError], and writes and prints
    nothing, exactly when no event has a record; otherwise it writes one
    file, [StredoLigaResults.csv], then prints the line with the number of
    categories, and returns. *)
Theorem build_tables_outcome events :
  (build_tables events = ([], Raise ValueError)
   <-> forall ev, ev ∈ events -> records ev = [])
  /\ ((exists ev, ev ∈ events /\ records ev <> []) ->
      exists df,
        build_tables events
        = ([WriteCsv (u "StredoLigaResults.csv") df;
            Print ([0x2713%N] ++ u "  StredoLigaResults.csv written ("
                     ++ str_of_Z (Z.of_nat (length (categories events)))
                     ++ u " categories)")], Ok ())).
Proof.
  split.
  - rewrite <- categories_nil. unfold build_tables.
    destruct (categories events); [done|]. split; discriminate.
  - intros (ev & Hev & Hrec).
    assert (Hne : categories events <> []).
    { intros E. apply Hrec. by apply (proj1 (categories_nil events) E). }
    unfold build_tables. destruct (categories events) as [|c cs]; [done|].
    by eexists.
Qed.

Lemma category_section_length events cat :
  length (category_section events cat)
  = (4 + length (remove_dups (person_key <$> entries cat events)))%nat.
Proof.
  unfold category_section. cbv zeta. cbn [length].
  rewrite length_fmap.
  destruct (category_rows_spec cat events) as (_ & -> & _). done.
Qed.

Lemma category_has_a_competitor events cat :
  cat ∈ categories events ->
  (1 <= length (remove_dups (person_key <$> entries cat events)))%nat.
Proof.
  intros (ev & rec & Hev & Hrec & Hcat)%categories_elem.
  assert (Hin : person_key rec ∈ remove_dups (person_key <$> entries cat events)).
  { apply elem_of_remove_dups, list_elem_of_fmap. exists rec. split; [done|].
    apply elem_of_concat. exists (records_of_category cat ev). split.
    - by apply list_elem_of_filter.
    - apply list_elem_of_fmap. by exists ev. }
  destruct (remove_dups _); [by apply elem_of_nil in Hin | cbn; lia].
Qed.

(** X8.  The rows of the frame.  Every category has a title row, three
    header rows and one data row for each of its competitors, and has at
    least one competitor; three separator rows stand between two
    categories and none follows the last. *)
Theorem table_rows events file_name df :
  WriteCsv file_name df ∈ (build_tables events).1 ->
  let competitors cat :=
    length (remove_dups (person_key <$> entries cat events)) in
  Forall (fun cat => (1 <= competitors cat)%nat) (categories events)
  /\ length (body df)
     = (sum_list ((fun cat => 4 + competitors cat)%nat <$> categories events)
        + 3 * (length (categories events) - 1))%nat.
Proof.
  intros H competitors. apply build_tables_written in H as (_ & _ & ->).
  split.
  - apply Forall_forall. intros cat. apply category_has_a_competitor.
  - destruct (categories events) as [|cat cats]; [done|].
    rewrite fmap_cons, join_chunks_length, length_replicate.
    rewrite category_section_length. rewrite fmap_cons.
    change (sum_list (?x :: ?l)) with (x + sum_list l)%nat.
    cbn [length]. fold (competitors cat).
    assert (Hsum : forall l : list str,
              sum_list ((fun c => 3 + length c)%nat <$> (category_section events <$> l))
              = (sum_list ((fun c => 4 + competitors c)%nat <$> l) + 3 * length l)%nat).
    { induction l as [|c l IH]; [done|].
      rewrite !fmap_cons.
      change (sum_list (?x :: ?l)) with (x + sum_list l)%nat.
      rewrite IH, category_section_length. cbn [length]. unfold competitors. lia. }
    rewrite Hsum. lia.
Qed.

End Outcome.

(* ================================================================== *)
(** * What [parse_event] returns *)
(* ================================================================== *)

Lemma dropwhile_idem p s : dropwhile p (dropwhile p s) = dropwhile p s.
Proof.
  induction s as [|c s IH]; [done|]. cbn.
  destruct (p c) eqn:E; [done|]. cbn. by rewrite E.
Qed.

Lemma rstrip_idem v : rstrip (rstrip v) = rstrip v.
Proof. unfold rstrip. by rewrite rev_involutive, dropwhile_idem. Qed.

(** [s.strip().strip()] is [s.strip()]. *)
Lemma strip_idem s : strip (strip s) = strip s.
Proof.
  assert (H : lstrip (strip s) = strip s).
  { destruct (strip s) as [|c w] eqn:E; [done|].
    apply strip_head in E. unfold lstrip. cbn. by rewrite E. }
  unfold strip at 1. rewrite H. unfold strip. apply rstrip_idem.
Qed.

Lemma map_result_Ok {A B} (f : A -> result B) l ys :
  map_result f l = Ok ys <-> Forall2 (fun x y => f x = Ok y) l ys.
Proof.
  revert ys. induction l as [|x l IH]; intros ys; cbn.
  - split; [intros [= <-]; constructor | by intros ->%Forall2_nil_inv_l].
  - split.
    + destruct (f x) as [y|] eqn:E; [|done]. cbn.
      destruct (map_result f l) as [ys'|]; [|done]. cbn. intros [= <-].
      constructor; [done | by apply IH].
    + intros (y & ys' & E & H & ->)%Forall2_cons_inv_l.
      rewrite E. cbn. apply IH in H. rewrite H. done.
Qed.

Lemma map_result_all_Ok {A B} (f : A -> result B) l :
  (forall x, x ∈ l -> exists y, f x = Ok y) -> exists ys, map_result f l = Ok ys.
Proof.
  induction l as [|x l IH]; intros H; [by eexists|].
  destruct (H x) as [y Hy]; [by left|].
  destruct IH as [ys Hys]; [intros z Hz; apply H; by right|].
  exists (y :: ys). cbn. by rewrite Hy, Hys.
Qed.

Lemma map_result_Raise {A B} (f : A -> result B) l e :
  (forall x e', x ∈ l -> f x = Raise e' -> e' = e) ->
  (exists x e', x ∈ l /\ f x = Raise e') ->
  map_result f l = Raise e.
Proof.
  induction l as [|x l IH]; intros Hall (z & e' & Hz & He).
  { by apply elem_of_nil in Hz. }
  cbn. destruct (f x) as [y|e''] eqn:E; cbn.
  - rewrite IH; [done | |].
    + intros x' e0 Hx'. apply Hall. by right.
    + apply elem_of_cons in Hz as [->|Hz]; [congruence|]. by exists z, e'.
  - f_equal. apply (Hall x); [by left | done].
Qed.

Section Parsed.
Context {rt : PyRuntime}.

Lemma parse_person_result_Ok cn pr :
  person_node pr <> None -> exists rec, parse_person_result cn pr = Ok rec.
Proof.
  unfold parse_person_result. destruct (person_node pr); [|done]. intros _.
  destruct (parse_position _). by eexists.
Qed.

Lemma parse_person_result_Raise cn pr e :
  parse_person_result cn pr = Raise e -> e = AttributeError /\ person_node pr = None.
Proof.
  unfold parse_person_result. destruct (person_node pr); [|by intros [= <-]].
  by destruct (parse_position _).
Qed.

Lemma parse_class_result_Raise cr e :
  parse_class_result cr = Raise e ->
  e = AttributeError /\ exists pr, pr ∈ person_results cr /\ person_node pr = None.
Proof.
  unfold parse_class_result.
  generalize (normalize_class_name (class_name_text cr)). intros cn.
  induction (person_results cr) as [|pr prs IH]; [done|]. cbn.
  destruct (parse_person_result cn pr) as [rec|e'] eqn:E; cbn.
  - destruct (map_result _ prs) as [recs|e'']; [done|]. cbn. intros [= <-].
    destruct IH as [-> (pr' & Hin & Hnone)]; [done|].
    split; [done|]. exists pr'. split; [by right | done].
  - intros [= <-]. apply parse_person_result_Raise in E as [-> Hnone].
    split; [done|]. exists pr. split; [by left | done].
Qed.

Lemma parse_class_result_missing cr pr :
  pr ∈ person_results cr -> person_node pr = None ->
  parse_class_result cr = Raise AttributeError.
Proof.
  intros Hin Hnone. unfold parse_class_result. apply map_result_Raise.
  - intros x e' _ H. by apply parse_person_result_Raise in H as [-> _].
  - exists pr, AttributeError. split; [done|].
    unfold parse_person_result. by rewrite Hnone.
Qed.

Lemma parse_class_results_complete doc :
  persons_present doc ->
  exists chunks, map_result parse_class_result (class_results doc) = Ok chunks.
Proof.
  intros H. apply map_result_all_Ok. intros cr Hcr.
  unfold parse_class_result. apply map_result_all_Ok. intros pr Hpr.
  apply parse_person_result_Ok. by apply (H cr pr).
Qed.

(** X9.  How [parse_event] ends.  A [PersonResult] without [Person] is an
    [AttributeError], whatever the date; with every [Person] there, a
    missing date is a [TypeError], a date that is not a calendar date a
    [ValueError], and with a calendar date the event is returned with the
    name and the date text of the document. *)
Theorem parse_event_outcome doc :
  ((exists cr pr, cr ∈ class_results doc /\ pr ∈ person_results cr
                  /\ person_node pr = None) ->
   parse_event doc = Raise AttributeError)
  /\ (persons_present doc ->
      match event_date_text doc with
      | None => parse_event doc = Raise TypeError
      | Some text =>
          match fromisoformat text with
          | None => parse_event doc = Raise ValueError
          | Some d =>
              exists recs,
                parse_event doc
                = Ok {| name := event_name_text doc; date_str := text;
                        date_obj := d; records := recs |}
          end
      end).
Proof.
  split.
  - intros (cr & pr & Hcr & Hpr & Hnone). unfold parse_event.
    rewrite (map_result_Raise parse_class_result _ AttributeError); [done | |].
    + intros x e' _ H. by apply parse_class_result_Raise in H as [-> _].
    + exists cr, AttributeError. split; [done|].
      by apply (parse_class_result_missing cr pr).
  - intros H. destruct (parse_class_results_complete doc H) as [chunks Hc].
    unfold parse_event. rewrite Hc. cbn.
    destruct (event_date_text doc) as [text|]; [|done].
    destruct (fromisoformat text); [by eexists | done].
Qed.

Lemma find_svk_id_stripped ids : strip (find_svk_id ids) = find_svk_id ids.
Proof.
  induction ids as [|n ids IH]; [done|]. cbn.
  case_decide; [apply strip_idem | done].
Qed.

Lemma parse_person_result_record cn pr rec :
  parse_person_result cn pr = Ok rec ->
  class_name rec = cn /\ status_raw rec = status_text pr
  /\ (exists given family pid,
        person_key rec = (given, family, pid)
        /\ strip given = given /\ strip family = family /\ strip pid = pid)
  /\ 0 <= points rec <= 20
  /\ (0 < points rec ->
      exists p, position rec = Some p /\ 1 <= p <= 20 /\ points rec = 21 - p).
Proof.
  unfold parse_person_result. destruct (person_node pr) as [person|]; [|done].
  unfold parse_position. destruct (py_int (position_text pr)) as [p|].
  - intros [= <-]. cbn. split_and!; try done.
    + eexists _, _, _. split; [done|].
      split_and!; [apply strip_idem | apply strip_idem | apply find_svk_id_stripped].
    + apply POINTS_get_range.
    + apply POINTS_get_range.
    + unfold POINTS_get. rewrite POINTS_lookup. case_bool_decide; cbn; [|lia].
      intros _. exists p. split_and!; try done; lia.
  - intros [= <-]. cbn. split_and!; try done; try lia.
    eexists _, _, _. split; [done|].
    split_and!; [apply strip_idem | apply strip_idem | apply find_svk_id_stripped].
Qed.

(** X10.  The records of a parsed event.  There is one record for each
    [PersonResult], in document order; it has the normalized name of its
    class and the status text as it is written; the three parts of its key
    are stripped; its points lie between 0 and 20, and are positive only
    for a numeric place [p] between 1 and 20, where they are [21 - p]. *)
Theorem parse_event_records doc ev :
  parse_event doc = Ok ev ->
  Forall2 (fun src rec =>
             class_name rec = normalize_class_name (class_name_text src.1)
             /\ status_raw rec = status_text src.2
             /\ (exists given family pid,
                   person_key rec = (given, family, pid)
                   /\ strip given = given /\ strip family = family
                   /\ strip pid = pid)
             /\ 0 <= points rec <= 20
             /\ (0 < points rec ->
                 exists p, position rec = Some p /\ 1 <= p <= 20
                           /\ points rec = 21 - p))
          (person_results_of doc) (records ev).
Proof.
  unfold parse_event, person_results_of.
  destruct (map_result parse_class_result (class_results doc)) as [chunks|] eqn:E;
    [|done]. cbn.
  destruct (event_date_text doc) as [text|]; [|done].
  destruct (fromisoformat text); [|done]. intros [= <-]. cbn [records].
  apply map_result_Ok in E. apply Forall2_concat_lists.
  apply Forall2_fmap_l. eapply Forall2_impl; [exact E|].
  intros cr recs Hcr. cbn. unfold parse_class_result in Hcr.
  apply map_result_Ok in Hcr. apply Forall2_fmap_l.
  eapply Forall2_impl; [exact Hcr|]. intros pr rec Hrec. cbn.
  by apply parse_person_result_record in Hrec.
Qed.

(** X11.  The federation number of a person is the text of the first
    identifier of type SVK, stripped; identifiers after it, and identifiers
    of another type, are not looked at; without an identifier of type SVK
    it is blank. *)
Theorem find_svk_id_first (pre post : list IdNode) :
  Forall (fun n => id_type n <> Some (u "SVK")) pre ->
  find_svk_id pre = []
  /\ forall node,
       id_type node = Some (u "SVK") ->
       find_svk_id (pre ++ node :: post) = strip (default [] (id_text node)).
Proof.
  induction 1 as [|n pre Hn _ [IH1 IH2]].
  - split; [done|]. intros node Hnode. cbn. by rewrite decide_True.
  - split.
    + cbn. by rewrite decide_False.
    + intros node Hnode. cbn. rewrite decide_False by done. by apply IH2.
Qed.

End Parsed.

(* ================================================================== *)
(** * The order of the events *)
(* ================================================================== *)

Lemma existsb_elem {A} (p : A -> bool) l :
  existsb p l = true <-> exists x, x ∈ l /\ p x = true.
Proof.
  induction l as [|x l IH]; cbn.
  - split; [done | by intros (x & ?%elem_of_nil & _)].
  - rewrite orb_true_iff, IH. split.
    + intros [H | (y & Hy & H)]; [exists x | exists y]; split; try done.
      * by left.
      * by right.
    + intros (y & [-> | Hy]%elem_of_cons & H); [by left | right; by exists y].
Qed.

Lemma mixed_awareness_true events :
  mixed_awareness events = true
  <-> exists a b, a ∈ events /\ b ∈ events
                  /\ tzaware (date_obj a) = true /\ tzaware (date_obj b) = false.
Proof.
  unfold mixed_awareness. rewrite andb_true_iff, !existsb_elem. split.
  - intros [(a & Ha & Ha') (b & Hb & Hb'%negb_true_iff)]. by exists a, b.
  - intros (a & b & Ha & Hb & Ha' & Hb'). split; [by exists a|].
    exists b. by rewrite Hb'.
Qed.

Lemma mixed_awareness_false events :
  mixed_awareness events = false
  <-> forall a b, a ∈ events -> b ∈ events ->
                  tzaware (date_obj a) = tzaware (date_obj b).
Proof.
  split.
  - intros H a b Ha Hb.
    destruct (tzaware (date_obj a)) eqn:Ea, (tzaware (date_obj b)) eqn:Eb; try done.
    + assert (mixed_awareness events = true); [|congruence].
      apply mixed_awareness_true. by exists a, b.
    + assert (mixed_awareness events = true); [|congruence].
      apply mixed_awareness_true. by exists b, a.
  - intros H. destruct (mixed_awareness events) eqn:E; [|done].
    apply mixed_awareness_true in E as (a & b & Ha & Hb & Ha' & Hb').
    specialize (H a b Ha Hb). congruence.
Qed.

Lemma StronglySorted_weaken {A} (R R' : A -> A -> Prop) l :
  (forall a b, R a b -> R' a b) -> StronglySorted R l -> StronglySorted R' l.
Proof.
  intros H. induction 1 as [|x l Hs IH Hx]; constructor; [done|].
  eapply Forall_impl; [exact Hx|]. intros y. apply H.
Qed.

(** X12.  The sort by date.  It fails with [TypeError] exactly when a date
    with a time zone meets one without; otherwise it returns the same
    events with their dates in ascending order, events of one date in the
    order in which they were given. *)
Theorem sort_events_outcome events :
  match sort_events events with
  | Raise e =>
      e = TypeError
      /\ exists a b, a ∈ events /\ b ∈ events
                     /\ tzaware (date_obj a) = true /\ tzaware (date_obj b) = false
  | Ok sorted =>
      (forall a b, a ∈ events -> b ∈ events ->
                   tzaware (date_obj a) = tzaware (date_obj b))
      /\ sorted ≡ₚ events
      /\ StronglySorted
           (fun a b => instant (date_obj a) <= instant (date_obj b)) sorted
      /\ forall t,
           filter (fun e => instant (date_obj e) = t) sorted
           = filter (fun e => instant (date_obj e) = t) events
  end.
Proof.
  unfold sort_events. destruct (mixed_awareness events) eqn:E.
  - split; [done|]. by apply mixed_awareness_true.
  - split_and!.
    + by apply mixed_awareness_false.
    + apply stable_sort_perm.
    + eapply StronglySorted_weaken; [|apply stable_sort_sorted].
      * intros a b H. cbn in H. by apply Z.leb_le.
      * intros a b. rewrite !Z.leb_le. lia.
      * intros a b c. rewrite !Z.leb_le. lia.
    + intros t.
      apply (stable_sort_filter (fun e => instant (date_obj e)) Z.leb).
      intros a. apply Z.leb_le. lia.
Qed.

(* ================================================================== *)
(** * A run of the script *)
(* ================================================================== *)

Section Run.
Context {rt : PyRuntime}.

Lemma parse_all_Ok files evs :
  (parse_all files).2 = Ok evs ->
  Forall2 (fun f ev => parse_event f.2 = Ok ev) files evs
  /\ (parse_all files).1 = ReadXml <$> files.*1.
Proof.
  revert evs. induction files as [|[path doc] files IH]; intros evs; cbn.
  - intros [= <-]. split; [constructor | done].
  - destruct (parse_event doc) as [ev|e] eqn:E; [|done].
    destruct (parse_all files) as [fx [evs'|e]]; cbn in *; [|done].
    intros [= <-]. destruct (IH evs' eq_refl) as [H1 H2].
    split; [by constructor | by rewrite H2].
Qed.

Lemma parse_all_complete files :
  (forall f, f ∈ files -> exists ev, parse_event f.2 = Ok ev) ->
  exists evs, (parse_all files).2 = Ok evs.
Proof.
  induction files as [|[path doc] files IH]; intros H; [by eexists|].
  destruct (H (path, doc)) as [ev Hev]; [by left|]. cbn in Hev.
  destruct IH as [evs Hevs]; [intros f Hf; apply H; by right|].
  cbn. rewrite Hev. destruct (parse_all files) as [fx r]. cbn in *.
  rewrite Hevs. by eexists.
Qed.

Lemma parse_all_reads files :
  exists n, (parse_all files).1 = ReadXml <$> take n files.*1.
Proof.
  induction files as [|[path doc] files [n IH]]; [by exists 0%nat|].
  cbn. destruct (parse_event doc).
  - destruct (parse_all files) as [fx r]. cbn in IH. exists (S n). cbn.
    by rewrite IH.
  - by exists 1%nat.
Qed.

End Run.

Lemma Forall2_elem_l {A B} (R : A -> B -> Prop) l l' x :
  Forall2 R l l' -> x ∈ l -> exists y, y ∈ l' /\ R x y.
Proof.
  induction 1 as [|a b l l' Hab _ IH]; [by intros ?%elem_of_nil|].
  intros [-> | Hx]%elem_of_cons.
  - exists b. split; [by left | done].
  - destruct (IH Hx) as (y & Hy & Hxy). exists y. split; [by right | done].
Qed.

Lemma Forall2_elem_r {A B} (R : A -> B -> Prop) l l' y :
  Forall2 R l l' -> y ∈ l' -> exists x, x ∈ l /\ R x y.
Proof.
  induction 1 as [|a b l l' Hab _ IH]; [by intros ?%elem_of_nil|].
  intros [-> | Hy]%elem_of_cons.
  - exists a. split; [by left | done].
  - destruct (IH Hy) as (x & Hx & Hxy). exists x. split; [by right | done].
Qed.

Lemma sorted_paths {A} (l : list (str * A)) :
  StronglySorted (fun a b => str_leb a.1 b.1 = true) l ->
  StronglySorted (fun a b => str_leb a b = true) l.*1.
Proof.
  induction 1 as [|x l Hs IH Hx]; [constructor|].
  rewrite fmap_cons. constructor; [done|]. by apply Forall_fmap.
Qed.

Lemma sort_events_outcome_aux events :
  match sort_events events with
  | Raise _ => True
  | Ok sorted =>
      (forall a b, a ∈ events -> b ∈ events ->
                   tzaware (date_obj a) = tzaware (date_obj b))
      /\ sorted ≡ₚ events
  end.
Proof.
  unfold sort_events. destruct (mixed_awareness events) eqn:E; [done|].
  split; [by apply mixed_awareness_false | apply stable_sort_perm].
Qed.

Section Script.
Context {rt : PyRuntime}.

(** X13.  The effects of a run.  The files are read in ascending order of
    their paths.  A run that returns has read every file, then written
    [StredoLigaResults.csv] once, then printed one line; a run that raises
    has read the first files of that order, as far as it came, and has
    done nothing else. *)
Theorem main_trace found :
  let paths := (stable_sort (fun a b => str_leb a.1 b.1) found).*1 in
  StronglySorted (fun a b => str_leb a b = true) paths
  /\ paths ≡ₚ found.*1
  /\ match (main found).2 with
     | Ok _ =>
         exists df line,
           (main found).1
           = (ReadXml <$> paths)
               ++ [WriteCsv (u "StredoLigaResults.csv") df; Print line]
     | Raise _ => exists n, (main found).1 = ReadXml <$> take n paths
     end.
Proof.
  intros paths. split_and!.
  - apply sorted_paths, stable_sort_sorted.
    + intros a b. apply str_leb_total.
    + intros a b c. apply str_leb_trans.
  - unfold paths. by rewrite stable_sort_perm.
  - destruct (decide (found = [])) as [-> | Hne]; [by exists 0%nat|].
    rewrite (main_nonempty _ Hne). fold paths.
    pose proof (parse_all_reads (stable_sort (fun a b => str_leb a.1 b.1) found))
      as [n Hn].
    pose proof (parse_all_Ok (stable_sort (fun a b => str_leb a.1 b.1) found))
      as Hok.
    fold paths in Hn, Hok.
    destruct (parse_all _) as [fx [evs|e]]; cbn [fst snd] in *; [|by exists n].
    destruct (Hok evs eq_refl) as [_ ->]. cbn [mbind result_bind].
    destruct (sort_events evs) as [events|e]; cbn.
    + destruct (build_tables_cases events)
        as [[_ ->] | (_ & df & line & -> & _)]; cbn.
      * exists (length paths). by rewrite firstn_all, app_nil_r.
      * by exists df, line.
    + exists (length paths). by rewrite firstn_all.
Qed.

(** X14.  When a run returns.  The script runs to its end exactly when
    every file parses, the dates are all with or all without a time zone,
    and some file has a record. *)
Theorem main_returns_iff found :
  (main found).2 = Ok ()
  <-> (forall f, f ∈ found -> exists ev, parse_event f.2 = Ok ev)
      /\ (forall f g ev ev',
            f ∈ found -> g ∈ found ->
            parse_event f.2 = Ok ev -> parse_event g.2 = Ok ev' ->
            tzaware (date_obj ev) = tzaware (date_obj ev'))
      /\ (exists f ev, f ∈ found /\ parse_event f.2 = Ok ev /\ records ev <> []).
Proof.
  set (files := stable_sort (fun a b => str_leb a.1 b.1) found).
  assert (Hfiles : forall f, f ∈ files <-> f ∈ found).
  { intros f. unfold files. by rewrite stable_sort_perm. }
  split.
  - intros Hmain.
    assert (Hne : found <> []) by (intros ->; discriminate Hmain).
    rewrite (main_nonempty _ Hne) in Hmain. fold files in Hmain.
    pose proof (parse_all_Ok files) as Hok.
    destruct (parse_all files) as [fx [evs|e]]; cbn [fst snd] in *; [|done].
    destruct (Hok evs eq_refl) as [Hall _]. cbn [mbind result_bind] in Hmain.
    pose proof (sort_events_outcome_aux evs) as Hsort.
    destruct (sort_events evs) as [events|e]; [|done].
    destruct Hsort as [Haware Hperm]. cbn in Hmain.
    destruct (build_tables_cases events)
      as [[_ Hb] | (Hcat & _)]; [by rewrite Hb in Hmain|].
    split_and!.
    + intros f Hf%Hfiles.
      destruct (Forall2_elem_l _ _ _ _ Hall Hf) as (ev & _ & Hev). by exists ev.
    + intros f g ev ev' Hf%Hfiles Hg%Hfiles Hev Hev'.
      destruct (Forall2_elem_l _ _ _ _ Hall Hf) as (ev0 & Hin & Hev0).
      destruct (Forall2_elem_l _ _ _ _ Hall Hg) as (ev1 & Hin' & Hev1).
      assert (ev0 = ev) as -> by congruence.
      assert (ev1 = ev') as -> by congruence. by apply Haware.
    + destruct (categories events) as [|c cs] eqn:E; [done|].
      assert (Hc : c ∈ categories events) by (rewrite E; by left).
      apply categories_elem in Hc as (ev & rec & Hev & Hrec & _).
      rewrite Hperm in Hev.
      destruct (Forall2_elem_r _ _ _ _ Hall Hev) as (f & Hf & Hfev).
      exists f, ev. split_and!; [by apply Hfiles | done |].
      intros Hnil. rewrite Hnil in Hrec. by apply elem_of_nil in Hrec.
  - intros (Hparse & Haware & f & ev & Hf & Hev & Hrec).
    assert (Hne : found <> []).
    { intros ->. by apply elem_of_nil in Hf. }
    rewrite (main_nonempty _ Hne). fold files.
    destruct (parse_all_complete files) as [evs Hevs].
    { intros g Hg%Hfiles. by apply Hparse. }
    pose proof (parse_all_Ok files) as Hok.
    destruct (parse_all files) as [fx r]; cbn [fst snd] in *. subst r.
    destruct (Hok evs eq_refl) as [Hall _]. cbn [mbind result_bind].
    assert (Hmix : mixed_awareness evs = false).
    { apply mixed_awareness_false. intros a b Ha Hb.
      destruct (Forall2_elem_r _ _ _ _ Hall Ha) as (fa & Hfa & Hpa).
      destruct (Forall2_elem_r _ _ _ _ Hall Hb) as (fb & Hfb & Hpb).
      apply (Haware fa fb); try done; by apply Hfiles. }
    unfold sort_events. rewrite Hmix.
    set (events := stable_sort _ evs).
    destruct (build_tables_cases events)
      as [[Hcat _] | (_ & df & line & -> & _)]; [|done].
    exfalso. apply Hrec. apply (proj1 (categories_nil events) Hcat).
    unfold events. rewrite stable_sort_perm.
    apply Hfiles in Hf.
    destruct (Forall2_elem_l _ _ _ _ Hall Hf) as (ev0 & Hin & Hev0).
    assert (ev0 = ev) as -> by congruence. done.
Qed.

End Script.

(* ================================================================== *)
(** * Labels of one class *)
(* ================================================================== *)

Lemma dropwhile_app p (a b : str) :
  dropwhile p (a ++ b)
  = if forallb p a then dropwhile p b else dropwhile p a ++ b.
Proof.
  induction a as [|c a IH]; [done|]. cbn. by destruct (p c).
Qed.

Lemma forallb_Forall (p : N -> bool) s :
  Forall (fun c => p c = true) s -> forallb p s = true.
Proof. induction 1 as [|c s Hc _ IH]; [done|]. cbn. by rewrite Hc, IH. Qed.

Lemma rstrip_pad v post :
  Forall (fun c => isspace c = true) post -> rstrip (v ++ post) = rstrip v.
Proof.
  intros H. unfold rstrip. rewrite rev_app_distr, dropwhile_app.
  rewrite forallb_rev, (forallb_Forall _ _ H). done.
Qed.

(** Blanks around a text do not change what [strip] returns. *)
Lemma strip_pad pre v post :
  Forall (fun c => isspace c = true) pre ->
  Forall (fun c => isspace c = true) post ->
  strip (pre ++ v ++ post) = strip v.
Proof.
  intros Hpre Hpost. unfold strip, lstrip.
  rewrite dropwhile_app, (forallb_Forall _ _ Hpre), dropwhile_app.
  destruct (forallb isspace v) eqn:E.
  - apply dropwhile_nil in E. rewrite E.
    rewrite (proj2 (dropwhile_nil isspace post)); [done|].
    by apply forallb_Forall.
  - by apply rstrip_pad.
Qed.

Lemma tidy_go_small sp da v :
  Forall (fun c => small c \/ isspace c = true) v -> Forall small (tidy_go sp da v).
Proof.
  assert (Hsp : small SPACE) by (split; [by left | done]).
  assert (Hhy : small HYPHEN_MINUS) by (split; [by left | done]).
  intros H. revert sp da. induction H as [|c v Hc _ IH]; intros sp da; [done|].
  cbn [tidy_go]. destruct (is_dash c).
  - destruct da; [done|]. apply Forall_app. split.
    + destruct sp; by repeat constructor.
    + by repeat constructor.
  - destruct (isspace c) eqn:E.
    + apply Forall_app. split; [destruct sp; by repeat constructor | done].
    + constructor; [|done]. by destruct Hc.
Qed.

Lemma chop_Forall (P : N -> Prop) s :
  Forall P s -> Forall P (chop_trailing_letter s).
Proof.
  intros H. pose proof (rev_Forall _ _ H) as Hr. unfold chop_trailing_letter.
  destruct (rev s) as [|c [|sp r]]; try done.
  apply Forall_cons in Hr as [Hc Hr]. apply Forall_cons in Hr as [_ Hr].
  destruct ((sp =? SPACE)%N && is_az c); [by apply rev_Forall|].
  destruct r as [|sp' r']; [done|].
  destruct ((c =? LINE_FEED)%N && is_az sp && (sp' =? SPACE)%N) eqn:E; [|done].
  apply andb_true_iff in E as [E _]. apply andb_true_iff in E as [E _].
  apply N.eqb_eq in E as ->. apply Forall_cons in Hr as [_ Hr].
  apply Forall_app. split; [by apply rev_Forall | by repeat constructor].
Qed.

Section Labels.
Context {rt : PyRuntime} (faithful : Faithful rt).

(** On a label of the script's alphabet and blanks, the Unicode
    normalizations change nothing: [normalize_class_name] is the lower
    case, tidied, cut, accented and capitalized. *)
Lemma normalize_plain raw :
  Forall plain raw ->
  normalize_class_name (Some raw)
  = title_first
      (accent (chop_trailing_letter (tidy (BasicLatin.lower1 <$> raw)))).
Proof.
  intros Hraw. destruct raw as [|c0 raw0]; [done|].
  rewrite normalize_steps by done.
  rewrite (lower_plain faithful) by done.
  set (k := chop_trailing_letter (tidy (BasicLatin.lower1 <$> c0 :: raw0))).
  assert (Hk : Forall small k).
  { apply chop_Forall. unfold tidy, collapse_spaces, unify_dashes.
    rewrite tidy_fusion. apply tidy_go_small, strip_Forall.
    rewrite Forall_fmap. eapply Forall_impl; [exact Hraw|].
    intros c [Hc|Hc]; cbn.
    - left. by apply lower1_small.
    - right. by rewrite (isspace_lower1 c Hc). }
  pose proof (small_latin _ Hk) as Hl.
  rewrite (nfkd_latin _ faithful _ Hl).
  rewrite (nfc_latin _ faithful (accent k)).
  - assert (He : Forall small (accent k)).
    { eapply accented_small; [apply accent_accented | done]. }
    destruct (accent k) as [|c e]; [done|].
    by destruct (capitalize_small faithful c e He) as [-> _].
  - eapply accented_latin; [apply accent_accented | done].
  - apply accent_spells; [done | apply spells_decompose].
Qed.

(** X15.  Letter case and blanks around a label do not matter: two labels
    of the script's alphabet that differ in case only, one of them with
    blanks around it, normalize to the same class name. *)
Theorem normalize_ignores_case_and_padding pre x post y :
  Forall (fun c => isspace c = true) pre ->
  Forall (fun c => isspace c = true) post ->
  Forall latin x -> Forall latin y ->
  BasicLatin.lower1 <$> x = BasicLatin.lower1 <$> y ->
  normalize_class_name (Some (pre ++ x ++ post)) = normalize_class_name (Some y).
Proof.
  intros Hpre Hpost Hx Hy Hxy.
  rewrite !normalize_plain.
  - rewrite !fmap_app, (lower1_blanks _ Hpre), (lower1_blanks _ Hpost), Hxy.
    unfold tidy. by rewrite (strip_pad _ _ _ Hpre Hpost).
  - by apply latin_plain.
  - apply Forall_app. split; [by apply blanks_plain|].
    apply Forall_app. split; [by apply latin_plain | by apply blanks_plain].
Qed.

End Labels.

(* ================================================================== *)
(** * The table of a run *)
(* ================================================================== *)

Section RunTable.
Context {rt : PyRuntime}.

Lemma Zsum_bound (f : str -> Z) (b : Z) (l : list str) :
  Forall (fun d => f d <= b) l -> Zsum (f <$> l) <= b * Z.of_nat (length l).
Proof.
  induction 1 as [|d l Hd _ IH]; [cbn; lia|].
  rewrite fmap_cons, Zsum_cons. cbn [length]. rewrite Nat2Z.inj_succ. lia.
Qed.

(** X16.  When no record has more than 20 points and no competitor has two
    records in one event of the category, a competitor has at most 20
    points for each event of the season. *)
Theorem total_at_most_20_per_event cat events row :
  (forall ev rec, ev ∈ events -> rec ∈ records ev -> points rec <= 20) ->
  (forall ev, ev ∈ events -> NoDup (person_key <$> records_of_category cat ev)) ->
  row ∈ (category_rows cat events).*2 ->
  0 <= row_total row <= 20 * Z.of_nat (length events).
Proof.
  intros Hpts Hnd Hrow.
  destruct (cells_and_totals cat events row Hrow) as (Hlen & Hcells & Htot).
  split; [by eapply row_total_nonneg|].
  rewrite (Htot Hnd), <- Hlen.
  - apply Zsum_bound, Forall_forall. intros d Hd.
    apply list_elem_of_lookup in Hd as [i Hi].
    destruct d as [|c d]; [done|].
    destruct (Hcells i (c :: d) Hi) as (ev & rec & Hev & Hrec & _ & <-); [done|].
    rewrite numeric_value_display. unfold counted_points.
    apply list_elem_of_filter in Hrec as [_ Hrec].
    apply list_elem_of_lookup_2 in Hev.
    specialize (Hpts ev rec Hev Hrec).
    destruct (map_status _); [lia|]. destruct (position rec); lia.
Qed.

(** X17.  The table of a run is the table of its events in the order of
    their dates: the file a run writes is the one [build_tables] writes for
    the events of the files, one for each file, sorted by date. *)
Theorem main_writes_table_of_events found file_name df :
  WriteCsv file_name df ∈ (main found).1 ->
  exists events,
    length events = length found
    /\ (forall ev, ev ∈ events <-> exists f, f ∈ found /\ parse_event f.2 = Ok ev)
    /\ StronglySorted
         (fun a b => instant (date_obj a) <= instant (date_obj b)) events
    /\ WriteCsv file_name df ∈ (build_tables events).1.
Proof.
  destruct (decide (found = [])) as [-> | Hne]; [by intros ?%elem_of_nil|].
  rewrite (main_nonempty _ Hne).
  set (files := stable_sort (fun a b => str_leb a.1 b.1) found).
  assert (Hfiles : files ≡ₚ found) by apply stable_sort_perm.
  pose proof (parse_all_no_write files) as Hw.
  pose proof (parse_all_Ok files) as Hok.
  destruct (parse_all files) as [fx [evs|e]]; cbn [fst snd] in *;
    [|by intros ?%Hw].
  destruct (Hok evs eq_refl) as [Hall _]. cbn [mbind result_bind].
  unfold sort_events. destruct (mixed_awareness evs); [by intros ?%Hw|].
  set (events := stable_sort _ evs).
  assert (Hevents : events ≡ₚ evs) by apply stable_sort_perm.
  destruct (build_tables events) as [fx' r] eqn:Eb. cbn [fst].
  intros [?%Hw | Hin]%elem_of_app; [done|].
  exists events. split_and!.
  - rewrite Hevents, <- Hfiles. symmetry. by eapply Forall2_length.
  - intros ev. rewrite Hevents. split.
    + intros Hev. destruct (Forall2_elem_r _ _ _ _ Hall Hev) as (f & Hf & Hfev).
      exists f. by rewrite <- Hfiles.
    + intros (f & Hf & Hfev). rewrite <- Hfiles in Hf.
      destruct (Forall2_elem_l _ _ _ _ Hall Hf) as (ev0 & Hin0 & Hev0).
      assert (ev0 = ev) as -> by congruence. done.
  - eapply StronglySorted_weaken; [|apply stable_sort_sorted].
    + intros a b H. cbn in H. by apply Z.leb_le.
    + intros a b. rewrite !Z.leb_le. lia.
    + intros a b c. rewrite !Z.leb_le. lia.
  - by rewrite Eb.
Qed.

End RunTable.

(* ================================================================== *)
(** * The steps of the normalizer that can be repeated *)
(* ================================================================== *)

(** X18.  Stripping, unifying the dashes and collapsing the blanks is
    idempotent on every text: done twice it gives what it gives once. *)
Theorem tidy_idempotent (s : str) : tidy (tidy s) = tidy s.
Proof. unfold tidy at 1 3. apply tidy_fixed. apply tidy_tidied. Qed.

(** X19.  The two replacements are idempotent on every text: after them
    the text holds no [muzi] and no [zeny], and replacing again changes
    nothing. *)
Theorem accent_idempotent (s : str) :
  no_occurrence (u "muzi") (accent s) /\ no_occurrence (u "zeny") (accent s)
  /\ accent (accent s) = accent s.
Proof.
  destruct (accent_clean s) as [Hm Hz]. split_and!; try done.
  by apply accent_fixed.
Qed.

(* ================================================================== *)
(** * When normalizing twice is normalizing once *)
(* ================================================================== *)

Lemma dash_not_sigma c : is_dash c = true -> (c =? GREEK_CAPITAL_SIGMA)%N = false.
Proof. intros H. chars. Qed.

Lemma dash_lower1 c : is_dash c = true -> BasicLatin.lower1 c = c.
Proof. intros H. chars. Qed.

Lemma basic_latin_dashes : @dashes_uncased BasicLatin.runtime.
Proof. intros c H. cbn. by rewrite dash_lower1. Qed.

(** The characters of a tidy text: hyphens, spaces, and characters that
    are no blanks. *)
Lemma tidy_from_chars_bounded n q o :
  (length o <= n)%nat -> tidy_from q o ->
  Forall (fun c => c = HYPHEN_MINUS \/ c = SPACE \/ isspace c = false) o.
Proof.
  revert q o. induction n as [|n IH]; intros q o Hn.
  { destruct o; [constructor | cbn in Hn; lia]. }
  destruct o as [|c o']; [constructor|]. cbn in Hn.
  cbn [tidy_from]. destruct (c =? HYPHEN_MINUS)%N eqn:Eh.
  - apply N.eqb_eq in Eh as ->. intros [_ H].
    destruct o' as [|sp o'']; [done|]. destruct H as [-> H]. cbn in Hn.
    constructor; [by left|]. constructor; [right; by left|].
    apply (IH Gap); [lia | done].
  - destruct (c =? SPACE)%N eqn:Es.
    + apply N.eqb_eq in Es as ->. intros [_ H].
      constructor; [right; by left|]. apply (IH Blank); [lia | done].
    + intros [[Hc _] H]. constructor; [right; by right|].
      apply (IH Word); [lia | done].
Qed.

Lemma tidy_from_chars q o :
  tidy_from q o ->
  Forall (fun c => c = HYPHEN_MINUS \/ c = SPACE \/ isspace c = false) o.
Proof. by apply (tidy_from_chars_bounded (length o)). Qed.

Lemma tidied_chars o :
  tidied o ->
  Forall (fun c => c = HYPHEN_MINUS \/ c = SPACE \/ isspace c = false) o.
Proof.
  destruct o as [|c o]; [constructor|]. cbn [tidied].
  destruct (c =? SPACE)%N eqn:Es.
  - apply N.eqb_eq in Es as ->. intros [_ H].
    constructor; [right; by left|]. by apply tidy_from_chars in H.
  - intros [_ H]. by apply tidy_from_chars in H.
Qed.

Lemma final_hyphen_cons a k : k <> [] -> final_hyphen (a :: k) = final_hyphen k.
Proof.
  intros Hk. unfold final_hyphen. cbn [rev].
  destruct (rev k) as [|c r] eqn:E; [|done].
  apply (f_equal (@rev N)) in E. rewrite rev_involutive in E. done.
Qed.

Lemma tidy_from_hyphen q o :
  tidy_from q (HYPHEN_MINUS :: o)
  <-> exists o', o = SPACE :: o' /\ q <> Word /\ tidy_from Gap o'.
Proof.
  cbn [tidy_from]. rewrite N.eqb_refl. split.
  - intros [Hq H]. destruct o as [|sp o']; [done|]. destruct H as [-> H].
    by exists o'.
  - intros (o' & -> & Hq & H). done.
Qed.

Lemma tidy_from_space q o :
  tidy_from q (SPACE :: o) <-> q = Word /\ tidy_from Blank o.
Proof. done. Qed.

Lemma tidy_from_word q c o :
  (c =? HYPHEN_MINUS)%N = false -> (c =? SPACE)%N = false ->
  tidy_from q (c :: o)
  <-> (isspace c = false /\ is_dash c = false) /\ tidy_from Word o.
Proof. intros Eh Es. cbn [tidy_from]. by rewrite Eh, Es. Qed.

(** A tidy text without its last word, when that word is one letter. *)
Lemma tidy_from_cut n q k c :
  (length k <= n)%nat -> is_az c = true ->
  tidy_from q (k ++ [SPACE; c]) ->
  if final_hyphen k then tidy_from q (k ++ [SPACE]) else tidy_from q k.
Proof.
  intros Hn Hc. revert q k Hn. induction n as [|n IH]; intros q k Hn.
  { destruct k; [|cbn in Hn; lia]. cbn. by intros [-> _]. }
  destruct k as [|c0 k']; [cbn; by intros [-> _]|]. cbn in Hn.
  rewrite <- !app_comm_cons.
  destruct (c0 =? HYPHEN_MINUS)%N eqn:Eh.
  - apply N.eqb_eq in Eh as ->.
    intros (o' & Ho & Hq & H)%tidy_from_hyphen.
    destruct k' as [|sp k'']; cbn [app] in Ho.
    { injection Ho as <-. unfold final_hyphen. cbn [rev app]. rewrite N.eqb_refl.
      apply tidy_from_hyphen. exists []. by cbn. }
    injection Ho as -> <-. cbn in Hn. destruct k'' as [|d k3].
    { apply tidy_from_space in H as [? _]. done. }
    rewrite !final_hyphen_cons by done.
    specialize (IH Gap (d :: k3) ltac:(cbn in *; lia) H).
    destruct (final_hyphen (d :: k3)); apply tidy_from_hyphen; eexists;
      (split; [cbn [app]; reflexivity | by split]).
  - destruct (c0 =? SPACE)%N eqn:Es.
    + apply N.eqb_eq in Es as ->. intros [Hq H]%tidy_from_space.
      destruct k' as [|d k''].
      { apply tidy_from_space in H as [? _]. done. }
      rewrite final_hyphen_cons by done.
      specialize (IH Blank (d :: k'') ltac:(cbn in *; lia) H).
      destruct (final_hyphen (d :: k'')); by apply tidy_from_space.
    + intros [Hw H]%tidy_from_word; [|done..]. destruct k' as [|d k''].
      { unfold final_hyphen. cbn [rev app]. rewrite Eh.
        apply tidy_from_word; [done..|]. by split. }
      rewrite final_hyphen_cons by done.
      specialize (IH Word (d :: k'') ltac:(cbn in *; lia) H).
      destruct (final_hyphen (d :: k'')); by apply tidy_from_word.
Qed.

Lemma tidy_from_end n q o :
  (length o <= n)%nat -> tidy_from q o -> final_hyphen o = false.
Proof.
  revert q o. induction n as [|n IH]; intros q o Hn.
  { destruct o; [done | cbn in Hn; lia]. }
  destruct o as [|c o']; [done|]. cbn in Hn.
  destruct (c =? HYPHEN_MINUS)%N eqn:Eh.
  - apply N.eqb_eq in Eh as ->. intros (o2 & -> & _ & H)%tidy_from_hyphen.
    cbn in Hn. destruct o2 as [|d o3]; [done|].
    rewrite !final_hyphen_cons by done. apply (IH Gap); [cbn in *; lia | done].
  - destruct (c =? SPACE)%N eqn:Es.
    + apply N.eqb_eq in Es as ->. intros [_ H]%tidy_from_space.
      destruct o' as [|d o2]; [done|].
      rewrite final_hyphen_cons by done. apply (IH Blank); [cbn in *; lia | done].
    + intros [_ H]%tidy_from_word; [|done..].
      destruct o' as [|d o2]; [unfold final_hyphen; cbn; by rewrite Eh|].
      rewrite final_hyphen_cons by done. apply (IH Word); [cbn in *; lia | done].
Qed.

(** A tidy text does not end in a hyphen. *)
Lemma tidied_end o : tidied o -> final_hyphen o = false.
Proof.
  destruct o as [|c o']; [done|]. cbn [tidied].
  destruct (c =? SPACE)%N eqn:Es.
  - intros [Hd H]. destruct o' as [|d o2]; [done|].
    rewrite final_hyphen_cons by done. by apply (tidy_from_end _ Blank _ (le_n _)).
  - intros [_ H]. by apply (tidy_from_end _ Gap _ (le_n _)).
Qed.

Lemma tidied_cut k c :
  is_az c = true -> tidied (k ++ [SPACE; c]) ->
  if final_hyphen k then tidied (k ++ [SPACE]) else tidied k.
Proof.
  intros Hc. destruct k as [|c0 k']; [done|].
  rewrite <- !app_comm_cons. cbn [tidied]. destruct (c0 =? SPACE)%N eqn:Es.
  - intros [Hd H]. destruct k' as [|d k'']; [by subst|].
    cbn [app] in Hd. rewrite final_hyphen_cons by done.
    pose proof (tidy_from_cut _ Blank (d :: k'') c (le_n _) Hc H) as Hcut.
    destruct (final_hyphen (d :: k'')); by split.
  - intros [Hd H]. rewrite app_comm_cons in H.
    pose proof (tidy_from_cut _ Gap (c0 :: k') c (le_n _) Hc H) as Hcut.
    destruct (final_hyphen (c0 :: k')); by split.
Qed.

Lemma not_line_feed c :
  c = HYPHEN_MINUS \/ c = SPACE \/ isspace c = false -> (c =? LINE_FEED)%N = false.
Proof. intros H. chars. Qed.

(** What the trailing-letter rule does to a tidy text. *)
Lemma chop_tidied t :
  tidied t ->
  (final_letter t = false /\ chop_trailing_letter t = t)
  \/ (final_letter t = true
      /\ exists c, is_az c = true /\ t = chop_trailing_letter t ++ [SPACE; c]).
Proof.
  intros Ht'. pose proof (rev_Forall _ _ (tidied_chars _ Ht')) as Ht. clear Ht'.
  unfold final_letter, chop_trailing_letter.
  destruct (rev t) as [|c [|sp r]] eqn:E; [by left | by left|].
  apply (f_equal (@rev N)) in E. rewrite rev_involutive in E. cbn in E.
  rewrite <- app_assoc in E. cbn in E.
  destruct ((sp =? SPACE)%N && is_az c) eqn:Ec.
  - right. split; [done|]. apply andb_true_iff in Ec as [->%N.eqb_eq Hc].
    by exists c.
  - left. split; [done|]. apply Forall_cons in Ht as [Hc _].
    rewrite (not_line_feed c Hc). by destruct r.
Qed.

Lemma accent_length s : length (accent s) = length s.
Proof. exact (Forall2_length _ _ _ (accent_accented s)). Qed.

Lemma title_first_length e : length (title_first e) = length e.
Proof. by destruct e. Qed.

Lemma accented_final_hyphen e k :
  Forall2 accented e k -> final_hyphen e = final_hyphen k.
Proof.
  intros H. apply Forall2_rev_accented in H. unfold final_hyphen.
  destruct H as [|x y re rk Hxy _]; [done|]. by apply accented_hyphen.
Qed.

Lemma title1_space c : (BasicLatin.title1 c =? SPACE)%N = (c =? SPACE)%N.
Proof.
  destruct (N.eqb_spec c SPACE) as [->|Hne]; [done|].
  apply N.eqb_neq. chars.
Qed.

Lemma title1_hyphen c :
  (BasicLatin.title1 c =? HYPHEN_MINUS)%N = (c =? HYPHEN_MINUS)%N.
Proof.
  destruct (N.eqb_spec c HYPHEN_MINUS) as [->|Hne]; [done|].
  apply N.eqb_neq. chars.
Qed.

(** Title case of the first character does not change how a text ends. *)
Lemma title_first_final e :
  final_letter (title_first e) = final_letter e
  /\ final_hyphen (title_first e) = final_hyphen e.
Proof.
  destruct e as [|c e']; [done|].
  unfold final_letter, final_hyphen, title_first. cbn [rev].
  destruct (rev e') as [|d [|d' r]]; cbn [app].
  - by rewrite title1_hyphen.
  - by rewrite title1_space.
  - done.
Qed.

Lemma lower1_title_first e :
  Forall small e -> BasicLatin.lower1 <$> title_first e = e.
Proof.
  intros He. destruct e as [|c e']; [done|].
  pose proof (small_fixed _ He) as Hfix. rewrite fmap_cons in Hfix.
  apply Forall_cons in He as [Hc He].
  destruct (title1_small c Hc) as [_ Ht].
  cbn [title_first]. rewrite fmap_cons, Ht. f_equal. by injection Hfix.
Qed.

Lemma title_first_latin e : Forall small e -> Forall latin (title_first e).
Proof.
  intros He. destruct e as [|c e']; [done|].
  apply Forall_cons in He as [Hc He]. cbn [title_first].
  constructor; [by apply title1_small | by apply small_latin].
Qed.

Lemma tidy_go_label sp da v :
  Forall (fun c => small c \/ isspace c = true \/ is_dash c = true) v ->
  Forall small (tidy_go sp da v).
Proof.
  assert (Hsp : small SPACE) by (split; [by left | done]).
  assert (Hhy : small HYPHEN_MINUS) by (split; [by left | done]).
  intros H. revert sp da. induction H as [|c v Hc _ IH]; intros sp da; [done|].
  cbn [tidy_go]. destruct (is_dash c) eqn:Ed.
  - destruct da; [done|]. apply Forall_app. split.
    + destruct sp; by repeat constructor.
    + by repeat constructor.
  - destruct (isspace c) eqn:E.
    + apply Forall_app. split; [destruct sp; by repeat constructor | done].
    + constructor; [|done]. by destruct Hc as [?|[?|?]].
Qed.

Section Idempotence.
Context {rt : PyRuntime} (faithful : Faithful rt) (dashes : dashes_uncased).

Lemma tolower_label c :
  label_char c ->
  (c =? GREEK_CAPITAL_SIGMA)%N = false /\ tolower_full c = [BasicLatin.lower1 c].
Proof.
  intros [H | [H | H]].
  - apply (tolower_plain faithful). by left.
  - apply (tolower_plain faithful). by right.
  - split; [by apply dash_not_sigma|]. rewrite (dash_lower1 c H). by apply dashes.
Qed.

Lemma lower_label s : Forall label_char s -> lower s = BasicLatin.lower1 <$> s.
Proof.
  unfold lower. generalize (@nil N). intros before Hs. revert before.
  induction Hs as [|c s Hc _ IH]; intros before; simpl; [done|].
  destruct (tolower_label c Hc) as [-> ->]. simpl. by rewrite IH.
Qed.

(** The first pass on a label: the label after the trailing-letter rule,
    [k], is made of small letters and is tidy, but for the blank that a
    hyphen at its end has lost. *)
Lemma normalize_label x :
  Forall label_char x ->
  exists k,
    normalize_class_name (Some x) = title_first (accent k)
    /\ Forall small k
    /\ if final_hyphen k then tidied (k ++ [SPACE]) else tidied k.
Proof.
  intros Hx. exists (chop_trailing_letter (tidy (BasicLatin.lower1 <$> x))).
  set (t := tidy (BasicLatin.lower1 <$> x)).
  assert (Ht : Forall small t).
  { unfold t, tidy, collapse_spaces, unify_dashes.
    rewrite tidy_fusion. apply tidy_go_label, strip_Forall.
    rewrite Forall_fmap. eapply Forall_impl; [exact Hx|].
    intros c [Hc | [Hc | Hc]]; cbn.
    - left. by apply lower1_small.
    - right. left. by rewrite (isspace_lower1 c Hc).
    - right. right. by rewrite (dash_lower1 c Hc). }
  assert (Htidy : tidied t) by apply tidy_tidied.
  assert (Hk : Forall small (chop_trailing_letter t)) by by apply chop_Forall.
  split_and!.
  - destruct x as [|c0 x0]; [done|].
    rewrite normalize_steps by done. rewrite lower_label by done. fold t.
    pose proof (small_latin _ Hk) as Hl.
    rewrite (nfkd_latin _ faithful _ Hl).
    rewrite (nfc_latin _ faithful (accent (chop_trailing_letter t))).
    + assert (He : Forall small (accent (chop_trailing_letter t))).
      { eapply accented_small; [apply accent_accented | done]. }
      destruct (accent _) as [|c e]; [done|].
      by destruct (capitalize_small faithful c e He) as [-> _].
    + eapply accented_latin; [apply accent_accented | done].
    + apply accent_spells; [done | apply spells_decompose].
  - done.
  - destruct (chop_tidied t Htidy) as [[_ ->] | [_ (c & Hc & Heq)]].
    + by rewrite (tidied_end t Htidy).
    + rewrite Heq in Htidy. by apply tidied_cut with c.
Qed.

(** The second pass, on the label [title_first e] that the first pass
    returns. *)
Lemma second_pass e :
  Forall small e -> accent e = e ->
  (if final_hyphen e then tidied (e ++ [SPACE]) else tidied e) ->
  normalize_class_name (Some (title_first e)) = title_first e
  <-> final_letter e = false /\ final_hyphen e = false.
Proof.
  intros He Hacc Htidy.
  rewrite (normalize_plain faithful) by by apply latin_plain, title_first_latin.
  rewrite (lower1_title_first e He).
  destruct (final_hyphen e) eqn:Eh.
  - assert (Ht : tidy e = e ++ [SPACE]).
    { rewrite <- (tidy_fixed _ Htidy). unfold tidy. f_equal. f_equal.
      symmetry. apply (strip_pad [] e [SPACE]); by repeat constructor. }
    assert (Hc : chop_trailing_letter (e ++ [SPACE]) = e ++ [SPACE]).
    { destruct (chop_tidied _ Htidy) as [[_ H] | [H _]]; [done|].
      unfold final_letter in H. rewrite rev_app_distr in H. cbn in H.
      destruct (rev e); [done|]. by rewrite andb_false_r in H. }
    rewrite Ht, Hc. split; [|by intros [_ ?]].
    intros H. apply (f_equal length) in H.
    rewrite !title_first_length, accent_length, length_app in H. cbn in H. lia.
  - assert (Ht : tidy e = e) by (by apply tidy_fixed).
    rewrite Ht.
    destruct (chop_tidied _ Htidy) as [[Hf ->] | [Hf (c & _ & Heq)]].
    + by rewrite Hacc, Hf.
    + rewrite Hf. split; [|by intros [? _]].
      intros H. apply (f_equal length) in H.
      rewrite !title_first_length, accent_length in H.
      rewrite Heq in H at 2. rewrite length_app in H. cbn in H. lia.
Qed.

(** C1, as amended.  On a label written in Basic Latin, ž, Ž, blanks and
    dashes, normalizing twice is normalizing once if and only if the
    normalized label ends neither in a space and a letter a-z nor in a
    hyphen. *)
Theorem normalize_idempotent_iff (x : str) :
  Forall label_char x ->
  normalize_class_name (Some (normalize_class_name (Some x)))
  = normalize_class_name (Some x)
  <-> final_letter (normalize_class_name (Some x)) = false
      /\ final_hyphen (normalize_class_name (Some x)) = false.
Proof.
  intros Hx. destruct (normalize_label x Hx) as (k & -> & Hk & Htidy).
  pose proof (accent_accented k) as Hacc.
  destruct (title_first_final (accent k)) as [-> ->].
  apply second_pass.
  - by eapply accented_small.
  - destruct (accent_clean k). by apply accent_fixed.
  - rewrite (accented_final_hyphen _ _ Hacc).
    destruct (final_hyphen k).
    + eapply tidied_accented; [|exact Htidy].
      apply Forall2_app; [done|]. constructor; [by left | constructor].
    + by eapply tidied_accented.
Qed.

End Idempotence.

(** The label of the specification, [a – muži] with an en dash; a label
    that loses a letter in the first pass, [A - Muzi a]; and the two labels
    that change again, [x a b] and [a - b]. *)
Lemma normalize_idempotent_iff_witness :
  let rt := BasicLatin.runtime in
  let spec_label := u "a " ++ [0x2013%N] ++ u " mu" ++ [LATIN_SMALL_Z_CARON] ++ u "i" in
  (Forall label_char spec_label
   /\ normalize_class_name (Some spec_label)
      = u "A - mu" ++ [LATIN_SMALL_Z_CARON] ++ u "i"
   /\ normalize_class_name (Some (normalize_class_name (Some spec_label)))
      = normalize_class_name (Some spec_label))
  /\ (Forall label_char (u "A - Muzi a")
      /\ normalize_class_name (Some (normalize_class_name (Some (u "A - Muzi a"))))
         = normalize_class_name (Some (u "A - Muzi a")))
  /\ (Forall label_char (u "x a b")
      /\ final_letter (normalize_class_name (Some (u "x a b"))) = true
      /\ normalize_class_name (Some (normalize_class_name (Some (u "x a b"))))
         <> normalize_class_name (Some (u "x a b")))
  /\ (Forall label_char (u "a - b")
      /\ final_hyphen (normalize_class_name (Some (u "a - b"))) = true
      /\ normalize_class_name (Some (normalize_class_name (Some (u "a - b"))))
         <> normalize_class_name (Some (u "a - b"))).
Proof.
  intros rt spec_label.
  pose proof (@normalize_idempotent_iff rt basic_latin_faithful basic_latin_dashes)
    as Hiff.
  assert (Hascii : forall s, Forall (fun c => (c < 0x80)%N) s -> Forall label_char s).
  { intros s H. eapply Forall_impl; [exact H|]. intros c Hc. left. by left. }
  assert (H1 : Forall label_char spec_label).
  { repeat first
      [ apply Forall_nil_2
      | apply Forall_cons_2;
        [first [left; left; cbn; lia | left; right; by left | right; right; reflexivity]|] ]. }
  assert (H2 : Forall label_char (u "A - Muzi a")).
  { apply Hascii.
    repeat first [apply Forall_nil_2 | apply Forall_cons_2; [cbn; lia|]]. }
  assert (H3 : Forall label_char (u "x a b")).
  { apply Hascii.
    repeat first [apply Forall_nil_2 | apply Forall_cons_2; [cbn; lia|]]. }
  assert (H4 : Forall label_char (u "a - b")).
  { apply Hascii.
    repeat first [apply Forall_nil_2 | apply Forall_cons_2; [cbn; lia|]]. }
  assert (E1 : normalize_class_name (Some spec_label)
               = u "A - mu" ++ [LATIN_SMALL_Z_CARON] ++ u "i") by reflexivity.
  assert (E3 : final_letter (normalize_class_name (Some (u "x a b"))) = true)
    by reflexivity.
  assert (E4 : final_hyphen (normalize_class_name (Some (u "a - b"))) = true)
    by reflexivity.
  split; [|split; [|split]].
  - split; [exact H1|]. split; [exact E1|].
    apply (proj2 (Hiff spec_label H1)). split; reflexivity.
  - split; [exact H2|].
    apply (proj2 (Hiff (u "A - Muzi a") H2)). split; reflexivity.
  - split; [exact H3|]. split; [exact E3|].
    intros H. apply (proj1 (Hiff (u "x a b") H3)) in H as [H _].
    rewrite E3 in H. discriminate H.
  - split; [exact H4|]. split; [exact E4|].
    intros H. apply (proj1 (Hiff (u "a - b") H4)) in H as [_ H].
    rewrite E4 in H. discriminate H.
Defined.

(* ================================================================== *)
(** * The table of the season *)
(* ================================================================== *)

Lemma persons_present_check doc :
  forallb (fun cr => forallb (fun pr => bool_decide (is_Some (person_node pr)))
                       (person_results cr))
          (class_results doc) = true ->
  persons_present doc.
Proof.
  intros H cr pr Hcr Hpr Hnone.
  assert (Hall : forall {A} (p : A -> bool) l x,
            forallb p l = true -> x ∈ l -> p x = true).
  { intros A p l x Hl Hx. induction l as [|y l IH]; [by apply elem_of_nil in Hx|].
    cbn in Hl. apply andb_true_iff in Hl as [Hy Hl].
    apply elem_of_cons in Hx as [->|Hx]; [done | by apply IH]. }
  pose proof (Hall _ _ _ _ H Hcr) as H1. cbn in H1.
  pose proof (Hall _ _ _ _ H1 Hpr) as H2. cbn in H2.
  apply bool_decide_eq_true in H2. rewrite Hnone in H2. by destruct H2.
Qed.

(** The row of Adam Kral in the table of the season. *)
Lemma cell_content_witness :
  let rt := BasicLatin.runtime in
  SeasonTable.adam ∈ (category_rows (u "M") SeasonTable.events).*2
  /\ length (row_cells SeasonTable.adam) = length SeasonTable.events
  /\ forall i ev, SeasonTable.events !! i = Some ev ->
       row_cells SeasonTable.adam !! i
       = Some (last_display (row_key SeasonTable.adam)
                 (records_of_category (u "M") ev)).
Proof.
  intros rt.
  assert (season_row : SeasonTable.adam
                       ∈ (category_rows (u "M") SeasonTable.events).*2)
    by (vm_compute; left).
  split; [exact season_row|].
  exact (@cell_content rt (u "M") SeasonTable.events SeasonTable.adam season_row).
Defined.

Lemma total_is_counted_points_witness :
  let rt := BasicLatin.runtime in
  SeasonTable.adam ∈ (category_rows (u "M") SeasonTable.events).*2
  /\ row_total SeasonTable.adam
     = Zsum (counted_points
               <$> filter (fun r => person_key r = row_key SeasonTable.adam)
                     (entries (u "M") SeasonTable.events))
  /\ 0 <= row_total SeasonTable.adam.
Proof.
  intros rt.
  assert (season_row : SeasonTable.adam
                       ∈ (category_rows (u "M") SeasonTable.events).*2)
    by (vm_compute; left).
  split; [exact season_row|].
  exact (@total_is_counted_points rt (u "M") SeasonTable.events SeasonTable.adam
           season_row).
Defined.

Lemma total_is_sum_of_cells_witness :
  let rt := BasicLatin.runtime in
  (forall ev, ev ∈ SeasonTable.events ->
              NoDup (person_key <$> records_of_category (u "M") ev))
  /\ SeasonTable.adam ∈ (category_rows (u "M") SeasonTable.events).*2
  /\ row_total SeasonTable.adam
     = Zsum (numeric_value <$> row_cells SeasonTable.adam).
Proof.
  intros rt.
  assert (season_no_double :
            forall ev, ev ∈ SeasonTable.events ->
                       NoDup (person_key <$> records_of_category (u "M") ev)).
  { intros ev Hev. unfold SeasonTable.events in Hev. rewrite !elem_of_cons in Hev.
    destruct Hev as [-> | [-> | []%elem_of_nil]];
      apply (bool_decide_unpack _); vm_compute; exact I. }
  assert (season_row : SeasonTable.adam
                       ∈ (category_rows (u "M") SeasonTable.events).*2)
    by (vm_compute; left).
  split; [exact season_no_double|].
  split; [exact season_row|].
  exact (@total_is_sum_of_cells rt (u "M") SeasonTable.events SeasonTable.adam
           season_no_double season_row).
Defined.

Lemma table_is_rectangular_witness :
  let rt := BasicLatin.runtime in
  WriteCsv (u "StredoLigaResults.csv") SeasonTable.table
    ∈ (build_tables SeasonTable.events).1
  /\ length (columns SeasonTable.table) = (length SeasonTable.events + 5)%nat
  /\ Forall (fun row => length row = length (columns SeasonTable.table))
            (body SeasonTable.table).
Proof.
  intros rt.
  assert (season_written :
            WriteCsv (u "StredoLigaResults.csv") SeasonTable.table
            ∈ (build_tables SeasonTable.events).1)
    by (vm_compute; left).
  split; [exact season_written|].
  exact (@table_is_rectangular rt SeasonTable.events _ _ season_written).
Defined.

(** The two races of the season, given summer first. *)
Lemma categories_order_independent_witness :
  let a := Season.event_of Season.spring in
  let b := Season.event_of Season.summer in
  [b; a] ≡ₚ [a; b] /\ categories [b; a] = categories [a; b].
Proof.
  intros a b.
  assert (Hp : [b; a] ≡ₚ [a; b]) by apply Permutation_swap.
  split; [exact Hp|]. exact (categories_order_independent _ _ Hp).
Defined.

(** No event at all, and the season. *)
Lemma build_tables_outcome_witness :
  let rt := BasicLatin.runtime in
  ((forall ev : Event, ev ∈ [] -> records ev = [])
   /\ build_tables [] = ([], Raise ValueError))
  /\ ((exists ev, ev ∈ SeasonTable.events /\ records ev <> [])
      /\ exists df,
           build_tables SeasonTable.events
           = ([WriteCsv (u "StredoLigaResults.csv") df;
               Print ([0x2713%N] ++ u "  StredoLigaResults.csv written ("
                        ++ str_of_Z (Z.of_nat (length (categories SeasonTable.events)))
                        ++ u " categories)")], Ok ())).
Proof.
  intros rt.
  assert (H0 : forall ev : Event, ev ∈ [] -> records ev = []).
  { intros ev Hev. by apply elem_of_nil in Hev. }
  assert (H1 : exists ev, ev ∈ SeasonTable.events /\ records ev <> []).
  { exists (Season.event_of Season.spring). split; [by left | by vm_compute]. }
  split.
  - split; [exact H0|]. exact (proj2 (proj1 (@build_tables_outcome rt [])) H0).
  - split; [exact H1|].
    exact (proj2 (@build_tables_outcome rt SeasonTable.events) H1).
Defined.

Lemma table_rows_witness :
  let rt := BasicLatin.runtime in
  let events := SeasonTable.events in
  let competitors cat :=
    length (remove_dups (person_key <$> entries cat events)) in
  WriteCsv (u "StredoLigaResults.csv") SeasonTable.table ∈ (build_tables events).1
  /\ Forall (fun cat => (1 <= competitors cat)%nat) (categories events)
  /\ length (body SeasonTable.table)
     = (sum_list ((fun cat => 4 + competitors cat)%nat <$> categories events)
        + 3 * (length (categories events) - 1))%nat.
Proof.
  intros rt events competitors.
  assert (season_written :
            WriteCsv (u "StredoLigaResults.csv") SeasonTable.table
            ∈ (build_tables events).1)
    by (vm_compute; left).
  split; [exact season_written|].
  exact (@table_rows rt events _ _ season_written).
Defined.

(** A result list with a nameless runner, and the spring race. *)
Lemma parse_event_outcome_witness :
  let rt := BasicLatin.runtime in
  ((exists cr pr, cr ∈ class_results SeasonTable.anonymous
                  /\ pr ∈ person_results cr /\ person_node pr = None)
   /\ parse_event SeasonTable.anonymous = Raise AttributeError)
  /\ (persons_present Season.spring
      /\ match event_date_text Season.spring with
         | None => parse_event Season.spring = Raise TypeError
         | Some text =>
             match fromisoformat text with
             | None => parse_event Season.spring = Raise ValueError
             | Some d =>
                 exists recs,
                   parse_event Season.spring
                   = Ok {| name := event_name_text Season.spring;
                           date_str := text; date_obj := d; records := recs |}
             end
         end).
Proof.
  intros rt.
  assert (H0 : exists cr pr, cr ∈ class_results SeasonTable.anonymous
                             /\ pr ∈ person_results cr /\ person_node pr = None).
  { eexists _, _. split_and!; [by left | by left | done]. }
  assert (H1 : persons_present Season.spring).
  { by apply persons_present_check. }
  split.
  - split; [exact H0|].
    exact (proj1 (@parse_event_outcome rt SeasonTable.anonymous) H0).
  - split; [exact H1|].
    exact (proj2 (@parse_event_outcome rt Season.spring) H1).
Defined.

(** The records of the spring race. *)
Lemma parse_event_records_witness :
  let rt := BasicLatin.runtime in
  let ev := Season.event_of Season.spring in
  parse_event Season.spring = Ok ev
  /\ Forall2 (fun src rec =>
                class_name rec = normalize_class_name (class_name_text src.1)
                /\ status_raw rec = status_text src.2
                /\ (exists given family pid,
                      person_key rec = (given, family, pid)
                      /\ strip given = given /\ strip family = family
                      /\ strip pid = pid)
                /\ 0 <= points rec <= 20
                /\ (0 < points rec ->
                    exists p, position rec = Some p /\ 1 <= p <= 20
                              /\ points rec = 21 - p))
             (person_results_of Season.spring) (records ev).
Proof.
  intros rt ev.
  assert (H : parse_event Season.spring = Ok ev) by (vm_compute; reflexivity).
  split; [exact H|]. exact (@parse_event_records rt Season.spring ev H).
Defined.

(** A person with an identifier of the international federation before
    two of the national one. *)
Lemma find_svk_id_first_witness :
  Forall (fun n => id_type n <> Some (u "SVK")) [SeasonTable.foreign_id]
  /\ find_svk_id [SeasonTable.foreign_id] = []
  /\ (id_type SeasonTable.home_id = Some (u "SVK")
      /\ find_svk_id ([SeasonTable.foreign_id]
                        ++ SeasonTable.home_id :: [SeasonTable.late_id])
         = strip (default [] (id_text SeasonTable.home_id))).
Proof.
  assert (H : Forall (fun n => id_type n <> Some (u "SVK")) [SeasonTable.foreign_id]).
  { constructor; [discriminate | constructor]. }
  assert (H' : id_type SeasonTable.home_id = Some (u "SVK")) by reflexivity.
  destruct (find_svk_id_first [SeasonTable.foreign_id] [SeasonTable.late_id] H)
    as [H1 H2].
  split; [exact H|]. split; [exact H1|]. split; [exact H'|].
  exact (H2 SeasonTable.home_id H').
Defined.

(** The labels [" Muzi B "] and ["MUZI b"]. *)
Lemma normalize_ignores_case_and_padding_witness :
  let rt := BasicLatin.runtime in
  Forall (fun c => isspace c = true) (u " ")
  /\ Forall latin (u "Muzi B") /\ Forall latin (u "MUZI b")
  /\ BasicLatin.lower1 <$> u "Muzi B" = BasicLatin.lower1 <$> u "MUZI b"
  /\ normalize_class_name (Some (u " " ++ u "Muzi B" ++ u " "))
     = normalize_class_name (Some (u "MUZI b")).
Proof.
  intros rt.
  assert (H1 : Forall (fun c => isspace c = true) (u " ")) by (repeat constructor).
  assert (H2 : Forall latin (u "Muzi B")).
  { repeat first [apply Forall_nil_2 | apply Forall_cons_2; [left; cbn; lia|]]. }
  assert (H3 : Forall latin (u "MUZI b")).
  { repeat first [apply Forall_nil_2 | apply Forall_cons_2; [left; cbn; lia|]]. }
  assert (H4 : BasicLatin.lower1 <$> u "Muzi B" = BasicLatin.lower1 <$> u "MUZI b")
    by reflexivity.
  split_and!; try assumption.
  exact (@normalize_ignores_case_and_padding rt basic_latin_faithful
           (u " ") (u "Muzi B") (u " ") (u "MUZI b") H1 H1 H2 H3 H4).
Defined.

Lemma total_at_most_20_per_event_witness :
  let rt := BasicLatin.runtime in
  (forall ev rec, ev ∈ SeasonTable.events -> rec ∈ records ev -> points rec <= 20)
  /\ (forall ev, ev ∈ SeasonTable.events ->
                 NoDup (person_key <$> records_of_category (u "M") ev))
  /\ SeasonTable.adam ∈ (category_rows (u "M") SeasonTable.events).*2
  /\ 0 <= row_total SeasonTable.adam <= 20 * Z.of_nat (length SeasonTable.events).
Proof.
  intros rt.
  assert (season_points :
            forall ev rec, ev ∈ SeasonTable.events -> rec ∈ records ev ->
                           points rec <= 20).
  { intros ev rec Hev Hrec.
    assert (H : Forall (fun ev => Forall (fun rec => points rec <= 20) (records ev))
                  SeasonTable.events)
      by (apply (bool_decide_unpack _); vm_compute; exact I).
    by apply (proj1 (Forall_forall _ _) (proj1 (Forall_forall _ _) H ev Hev)). }
  assert (season_no_double :
            forall ev, ev ∈ SeasonTable.events ->
                       NoDup (person_key <$> records_of_category (u "M") ev)).
  { intros ev Hev. unfold SeasonTable.events in Hev. rewrite !elem_of_cons in Hev.
    destruct Hev as [-> | [-> | []%elem_of_nil]];
      apply (bool_decide_unpack _); vm_compute; exact I. }
  assert (season_row : SeasonTable.adam
                       ∈ (category_rows (u "M") SeasonTable.events).*2)
    by (vm_compute; left).
  split; [exact season_points|]. split; [exact season_no_double|].
  split; [exact season_row|].
  exact (@total_at_most_20_per_event rt (u "M") SeasonTable.events SeasonTable.adam
           season_points season_no_double season_row).
Defined.

(** The run on the two files of the season. *)
Lemma main_writes_table_of_events_witness :
  let rt := BasicLatin.runtime in
  WriteCsv (u "StredoLigaResults.csv") SeasonTable.table
    ∈ (main SeasonTable.listing).1
  /\ exists events,
       length events = length SeasonTable.listing
       /\ (forall ev, ev ∈ events
                      <-> exists f, f ∈ SeasonTable.listing
                                    /\ parse_event f.2 = Ok ev)
       /\ StronglySorted
            (fun a b => instant (date_obj a) <= instant (date_obj b)) events
       /\ WriteCsv (u "StredoLigaResults.csv") SeasonTable.table
            ∈ (build_tables events).1.
Proof.
  intros rt.
  assert (season_run_written :
            WriteCsv (u "StredoLigaResults.csv") SeasonTable.table
            ∈ (main SeasonTable.listing).1)
    by (vm_compute; right; right; left).
  split; [exact season_run_written|].
  exact (@main_writes_table_of_events rt SeasonTable.listing _ _ season_run_written).
Defined.
